(** * CheerChaser: spot suggestion, course indexing and trail projection

    A shallow embedding of the algorithmic core of the CheerChaser
    application together with the properties stated about it: the pace
    parser of utils.ts, the spot generation and the trail projector of
    the MapComponent component, and the suggestion callback of the App
    component.

    Numbers.  JavaScript numbers are idealised as exact rationals [Q];
    the value [Infinity], which the code uses as the initial minimum and
    as the transit travel time, is the extra point of [xnum].  Where the
    rounding of an operation decides which index, which segment or which
    digit comes out (the spread of maxSpread, the projection of a vertex,
    the kilometres of a distance), the operation is written with its
    rounding [fl]; [Number.binary64] is the rounding to the nearest
    double.  The pace parser is followed on the safe integers.  Leaflet's
    [LatLng.distanceTo] and Turf's [lineIntersect] and [distance] are
    library code: they are parameters of the sections that use them. *)

From Stdlib Require Import QArith ZArith List String Ascii Bool Lia Lqa Qround.
From Stdlib Require Import Qminmax Qabs Qpower Sorted SetoidList.
From Stdlib Require Import DecimalString DecimalNat.
Import ListNotations.

Local Open Scope Q_scope.

(* ================================================================== *)
(** * utils.ts *)
(* ================================================================== *)

Module Utils.

Inductive TravelProfile := walking | cycling | transit.
Inductive SuggestionStrategy := maxSpread | minTravel.

(** ** String.prototype.split with a one-character separator *)

Fixpoint split (sep : ascii) (s : string) : list string :=
  match s with
  | EmptyString => [EmptyString]
  | String c rest =>
      if Ascii.eqb c sep then EmptyString :: split sep rest
      else match split sep rest with
           | [] => [String c EmptyString]
           | p :: ps => String c p :: ps
           end
  end.

(** ** parseInt(s, 10)

    A [string] is the UTF-8 text of the JavaScript string.  Leading
    StrWhiteSpaceChar are skipped, one sign is accepted, then the longest
    run of decimal digits is read; what follows is ignored.  No digit at
    all gives NaN, here [None]. *)

(** The code points of StrWhiteSpaceChar: the WhiteSpace of ECMAScript
    (TAB, VT, FF, SP, NBSP, U+1680, U+2000 to U+200A, U+202F, U+205F,
    U+3000, U+FEFF) and its LineTerminator (LF, CR, U+2028, U+2029). *)
Definition strWhiteSpaceCodePoints : list N :=
  [ 9; 10; 11; 12; 13; 32; 160; 5760;
    8192; 8193; 8194; 8195; 8196; 8197; 8198; 8199; 8200; 8201; 8202;
    8232; 8233; 8239; 8287; 12288; 65279 ]%N.

Definition isStrWhiteSpace (codePoint : N) : bool :=
  existsb (N.eqb codePoint) strWhiteSpaceCodePoints.

(** UTF-8: the code point of a sequence of one, two or three bytes.  No
    StrWhiteSpaceChar takes four bytes. *)
Definition continuationBits (c : ascii) : option N :=
  let n := N_of_ascii c in
  if ((128 <=? n) && (n <=? 191))%N then Some (n - 128)%N else None.

Definition codePoint1 (c0 : ascii) : option N :=
  let n0 := N_of_ascii c0 in
  if (n0 <? 128)%N then Some n0 else None.

Definition codePoint2 (c0 c1 : ascii) : option N :=
  let n0 := N_of_ascii c0 in
  if ((194 <=? n0) && (n0 <=? 223))%N then
    match continuationBits c1 with
    | Some b1 => Some ((n0 - 192) * 64 + b1)%N
    | None => None
    end
  else None.

Definition codePoint3 (c0 c1 c2 : ascii) : option N :=
  let n0 := N_of_ascii c0 in
  if ((224 <=? n0) && (n0 <=? 239))%N then
    match continuationBits c1, continuationBits c2 with
    | Some b1, Some b2 =>
        let codePoint := ((n0 - 224) * 4096 + b1 * 64 + b2)%N in
        if (2048 <=? codePoint)%N then Some codePoint else None
    | _, _ => None
    end
  else None.

Definition digitValue (c : ascii) : option Z :=
  let n := nat_of_ascii c in
  if ((48 <=? n)%nat && (n <=? 57)%nat)%bool then Some (Z.of_nat (n - 48)) else None.

Definition isDigit (c : ascii) : bool :=
  match digitValue c with Some _ => true | None => false end.

Fixpoint trimStart (s : string) : string :=
  match s with
  | String c0 r0 =>
      match codePoint1 c0 with
      | Some codePoint => if isStrWhiteSpace codePoint then trimStart r0 else s
      | None =>
          match r0 with
          | String c1 r1 =>
              match codePoint2 c0 c1 with
              | Some codePoint => if isStrWhiteSpace codePoint then trimStart r1 else s
              | None =>
                  match r1 with
                  | String c2 r2 =>
                      match codePoint3 c0 c1 c2 with
                      | Some codePoint =>
                          if isStrWhiteSpace codePoint then trimStart r2 else s
                      | None => s
                      end
                  | EmptyString => s
                  end
              end
          | EmptyString => s
          end
      end
  | EmptyString => EmptyString
  end.

Fixpoint readDigits (acc : Z) (s : string) : Z :=
  match s with
  | String c rest =>
      match digitValue c with
      | Some d => readDigits (10 * acc + d)%Z rest
      | None => acc
      end
  | EmptyString => acc
  end.

Definition readUnsigned (s : string) : option Z :=
  match s with
  | String c rest =>
      match digitValue c with
      | Some d => Some (readDigits d rest)
      | None => None
      end
  | EmptyString => None
  end.

(** The mathematical integer that the digits denote.  The Number that
    JavaScript returns is the double nearest to it: the integer itself as
    long as it is a safe integer, see [safeIntegers] below. *)
Definition parseInt (s : string) : option Z :=
  match trimStart s with
  | String "-"%char rest => option_map Z.opp (readUnsigned rest)
  | String "+"%char rest => readUnsigned rest
  | t => readUnsigned t
  end.

(** ** parsePaceToSecondsPerMeter *)

Definition parsePaceToSecondsPerMeter (pace : string) : option Q :=
  let parts := split ":"%char pace in
  if negb (length parts =? 2)%nat then None
  else
    match parseInt (nth 0 parts EmptyString), parseInt (nth 1 parts EmptyString) with
    | Some minutes, Some seconds =>
        let totalSecondsPerKm := (minutes * 60 + seconds)%Z in
        if (totalSecondsPerKm <=? 0)%Z then None
        else Some (inject_Z totalSecondsPerKm / 1000)
    | _, _ => None
    end.

(** ** Safe integers

    A double holds every integer up to 2^53 - 1 in magnitude, and the
    products and sums of such integers are exact as long as they stay in
    that range.  [safeIntegers pace] says that every integer that the
    function computes on [pace] is in it: the two integers read, the
    minutes times 60 and the total.  Outside this range the function
    works on rounded values, on Infinity and on NaN, which the
    definitions above do not follow. *)
Definition MAX_SAFE_INTEGER : Z := 9007199254740991.

Definition isSafeInteger (z : Z) : bool := (Z.abs z <=? MAX_SAFE_INTEGER)%Z.

Definition safeIntegers (pace : string) : bool :=
  match split ":"%char pace with
  | [pm; ps] =>
      match parseInt pm, parseInt ps with
      | Some minutes, Some seconds =>
          isSafeInteger minutes && isSafeInteger seconds
          && isSafeInteger (minutes * 60) && isSafeInteger (minutes * 60 + seconds)
      | _, _ => true
      end
  | _ => true
  end.

(** ** Two readings of "numeric" *)

(** A part that parseInt accepts: after the leading white space comes an
    optional sign and then a digit. *)
Definition LeadingInteger (s : string) : Prop :=
  exists (d : ascii) (rest : string),
    isDigit d = true
    /\ (trimStart s = String d rest
        \/ trimStart s = String "-"%char (String d rest)
        \/ trimStart s = String "+"%char (String d rest)).

(** A part that is a decimal numeral and nothing else: an optional sign
    followed by one or more digits. *)
Fixpoint allDigits (s : string) : bool :=
  match s with
  | EmptyString => true
  | String c rest => isDigit c && allDigits rest
  end.

Definition decimalNumeral (s : string) : bool :=
  match s with
  | String "-"%char (String d rest) => allDigits (String d rest)
  | String "+"%char (String d rest) => allDigits (String d rest)
  | String d rest => allDigits (String d rest)
  | EmptyString => false
  end.

End Utils.

(* ================================================================== *)
(** * JavaScript numbers: rounding to the nearest double *)
(* ================================================================== *)

Module Number.

(** The nearest integer, a tie going to the even one. *)
Definition roundHalfEven (y : Q) : Z :=
  let f := Qfloor y in
  match Qcompare (y - inject_Z f) (1 # 2) with
  | Lt => f
  | Gt => (f + 1)%Z
  | Eq => if Z.even f then f else (f + 1)%Z
  end.

(** The exponent e of a positive number a: 2^e <= a < 2^(e + 1). *)
Definition floorLog2 (a : Q) : Z :=
  let k := (Z.log2 (Qnum a) - Z.log2 (Zpos (Qden a)))%Z in
  if Qle_bool (2 ^ k) a then k else (k - 1)%Z.

(** The least exponent of a normal double; below it the doubles are
    evenly spaced. *)
Definition EMIN : Z := -1022.

(** The spacing of the doubles around a positive number: 53 binary digits
    from its leading one. *)
Definition ulp (a : Q) : Q := 2 ^ (Z.max (floorLog2 a) EMIN - 52).

Definition roundPositive (a : Q) : Q := inject_Z (roundHalfEven (a / ulp a)) * ulp a.

(** The double nearest to a number, a tie going to the even significand:
    the rounding that every arithmetic operation of JavaScript applies to
    its exact result.  Overflow to Infinity is left out: the numbers of
    this program are far from it. *)
Definition binary64 (x : Q) : Q :=
  match Qcompare x 0 with
  | Eq => 0
  | Gt => roundPositive (Qred x)
  | Lt => - roundPositive (Qred (- x))
  end.

Definition UNIT_ROUNDOFF : Q := 2 ^ (-53).
Definition MIN_NORMAL : Q := 2 ^ EMIN.

(** What the theorems use of a rounding [fl]: it respects equality, it
    is monotone, it leaves the safe integers as they are, and in the
    normal range its relative error is at most 2^-53. *)
Record Rounding (fl : Q -> Q) : Prop := mkRounding {
  fl_compat : forall x y, x == y -> fl x == fl y;
  fl_monotone : forall x y, x <= y -> fl x <= fl y;
  fl_integer :
    forall n : Z, (Z.abs n <= Utils.MAX_SAFE_INTEGER)%Z -> fl (inject_Z n) == inject_Z n;
  fl_error : forall x, MIN_NORMAL <= x -> Qabs (fl x - x) <= x * UNIT_ROUNDOFF
}.

End Number.

(* ================================================================== *)
(** * Numbers, points and the number-keyed Map *)
(* ================================================================== *)

(** A JavaScript number that may be [Infinity]. *)
Inductive xnum := Fin (q : Q) | Infinity.

Definition Qlt_bool (a b : Q) : bool := negb (Qle_bool b a).

Definition xadd (a b : xnum) : xnum :=
  match a, b with
  | Fin x, Fin y => Fin (x + y)
  | _, _ => Infinity
  end.

(** [xlt a b] is the comparison [a < b]. *)
Definition xlt (a b : xnum) : bool :=
  match a, b with
  | Fin x, Fin y => Qlt_bool x y
  | Fin _, Infinity => true
  | Infinity, _ => false
  end.

(** [xgt a b] is the comparison [a > b]. *)
Definition xgt (a b : xnum) : bool := xlt b a.

(** Leaflet's LatLng, in degrees. *)
Record LatLng := mkLatLng { lat : Q; lng : Q }.

(** Map<number, LatLng>: entries in insertion order; a key is found by
    numeric equality, and setting a key that is present replaces its value
    in place. *)
Definition NumMap := list (Q * LatLng).

Fixpoint map_set (k : Q) (v : LatLng) (m : NumMap) : NumMap :=
  match m with
  | [] => [(k, v)]
  | (k', v') :: m' =>
      if Qeq_bool k' k then (k', v) :: m' else (k', v') :: map_set k v m'
  end.

Fixpoint map_get (k : Q) (m : NumMap) : option LatLng :=
  match m with
  | [] => None
  | (k', v') :: m' => if Qeq_bool k' k then Some v' else map_get k m'
  end.

Definition map_has (k : Q) (m : NumMap) : bool :=
  match map_get k m with Some _ => true | None => false end.

Definition map_keys (m : NumMap) : list Q := map fst m.

(** The result of a pass whose loops are run on fuel and whose divisions
    are watched: a division by zero, which in JavaScript yields an
    infinite or NaN quotient, ends the pass with [DivByZero]. *)
Inductive outcome (A : Type) : Type :=
| Done (a : A)
| DivByZero
| OutOfFuel.
Arguments Done {A} a.
Arguments DivByZero {A}.
Arguments OutOfFuel {A}.

Definition jsdiv (a b : Q) : outcome Q :=
  if Qeq_bool b 0 then DivByZero else Done (a / b).

(* ================================================================== *)
(** * The MapComponent component *)
(* ================================================================== *)

Module MapComponent.

Definition POTENTIAL_SPOT_INTERVAL : Q := 50.
Definition FIVE_KM : Q := 5000.

Section Trail.

Variable distanceTo : LatLng -> LatLng -> Q.

(** ** Cumulative distances of the track points *)

Fixpoint cumulativeFrom (prev : LatLng) (totalDist : Q) (rest : list LatLng) : list Q :=
  match rest with
  | [] => []
  | p :: rest' =>
      let totalDist' := totalDist + distanceTo prev p in
      totalDist' :: cumulativeFrom p totalDist' rest'
  end.

Definition cumulativeDistances (points : list LatLng) : list Q :=
  match points with
  | p0 :: (_ :: _) as rest => 0 :: cumulativeFrom p0 0 rest
  | _ => []
  end.

(** ** Potential spot positions and 5 km markers *)

(** One of the two [while] loops of a segment: every mark at [next],
    [next + step], ... that the segment reaches is interpolated on the
    segment and stored under its distance. *)
Fixpoint markLoop (fuel : nat) (prevPoint currentPoint : LatLng)
    (segmentDistance totalDistance step next : Q) (m : NumMap)
  : outcome (Q * NumMap) :=
  if Qle_bool next (totalDistance + segmentDistance) then
    match fuel with
    | O => OutOfFuel
    | S fuel' =>
        let distanceToSpot := next - totalDistance in
        match jsdiv distanceToSpot segmentDistance with
        | Done ratio =>
            let spotLat := lat prevPoint + (lat currentPoint - lat prevPoint) * ratio in
            let spotLng := lng prevPoint + (lng currentPoint - lng prevPoint) * ratio in
            let spotPosition := mkLatLng spotLat spotLng in
            markLoop fuel' prevPoint currentPoint segmentDistance totalDistance step
              (next + step) (map_set next spotPosition m)
        | DivByZero => DivByZero
        | OutOfFuel => OutOfFuel
        end
    end
  else Done (next, m).

Record IndexState := mkIndexState {
  totalDistance : Q;
  nextPotentialSpotDist : Q;
  nextFiveKmMark : Q;
  newMarkerPositions : NumMap;
  fiveKmMarkerPositions : NumMap
}.

Fixpoint segmentLoop (fuel : nat) (interval : Q) (prevPoint : LatLng)
    (rest : list LatLng) (st : IndexState) : outcome IndexState :=
  match rest with
  | [] => Done st
  | currentPoint :: rest' =>
      let segmentDistance := distanceTo prevPoint currentPoint in
      match markLoop fuel prevPoint currentPoint segmentDistance (totalDistance st)
              interval (nextPotentialSpotDist st) (newMarkerPositions st) with
      | Done (nextSpot, spots) =>
          match markLoop fuel prevPoint currentPoint segmentDistance (totalDistance st)
                  FIVE_KM (nextFiveKmMark st) (fiveKmMarkerPositions st) with
          | Done (nextFive, fives) =>
              segmentLoop fuel interval currentPoint rest'
                (mkIndexState (totalDistance st + segmentDistance)
                   nextSpot nextFive spots fives)
          | DivByZero => DivByZero
          | OutOfFuel => OutOfFuel
          end
      | DivByZero => DivByZero
      | OutOfFuel => OutOfFuel
      end
  end.

Record TrackIndex := mkTrackIndex {
  totalTrackDistance : Q;
  markerPositions : NumMap;
  fiveKmMarkers : NumMap
}.

(** The spot-generation part of the drawing effect, for a track of
    [points] and a spot [interval]. *)
Definition calculateSpotPositions (interval : Q) (fuel : nat) (points : list LatLng)
  : outcome TrackIndex :=
  match points with
  | p0 :: (_ :: _) as rest =>
      let finishLatLng := last points p0 in
      match segmentLoop fuel interval p0 rest
              (mkIndexState 0 interval FIVE_KM [] []) with
      | Done st =>
          Done (mkTrackIndex (totalDistance st)
                  (map_set (totalDistance st) finishLatLng (newMarkerPositions st))
                  (fiveKmMarkerPositions st))
      | DivByZero => DivByZero
      | OutOfFuel => OutOfFuel
      end
  | _ => Done (mkTrackIndex 0 [] [])
  end.

(** ** Nearest point on the trail *)

Record Nearest := mkNearest {
  distance : xnum;
  point : option LatLng;
  segmentIndex : nat;
  ratio : Q
}.

Definition COORD_EPS : Q := 1 # 1000000000000.

(** The body of the loop for the segment from [p1] to [p2]: the clamped
    projection ratio of [latlng] and the point of the segment at that
    ratio, both in coordinate space.  The arithmetic is exact here, for
    the properties that hold whatever the operations round to;
    [Rounded.projectOnSegment] below is the same body with the rounding
    of every operation. *)
Definition projectOnSegment (latlng p1 p2 : LatLng) : Q * LatLng :=
  let vx := lng p2 - lng p1 in
  let vy := lat p2 - lat p1 in
  let wx := lng latlng - lng p1 in
  let wy := lat latlng - lat p1 in
  let dot_wv := wx * vx + wy * vy in
  let dot_vv := vx * vx + vy * vy in
  let t := if Qlt_bool dot_vv COORD_EPS then 0 else dot_wv / dot_vv in
  let ratio := Qmax 0 (Qmin 1 t) in
  let pointOnSegment := mkLatLng (lat p1 + ratio * vy) (lng p1 + ratio * vx) in
  (ratio, pointOnSegment).

Fixpoint nearestLoop (latlng : LatLng) (i : nat) (p1 : LatLng) (rest : list LatLng)
    (best : Nearest) : Nearest :=
  match rest with
  | [] => best
  | p2 :: rest' =>
      let segmentLength := distanceTo p1 p2 in
      if Qeq_bool segmentLength 0 then nearestLoop latlng (S i) p2 rest' best
      else
        let '(ratio, pointOnSegment) := projectOnSegment latlng p1 p2 in
        let distance' := distanceTo latlng pointOnSegment in
        if xlt (Fin distance') (distance best)
        then nearestLoop latlng (S i) p2 rest'
               (mkNearest (Fin distance') (Some pointOnSegment) i ratio)
        else nearestLoop latlng (S i) p2 rest' best
  end.

Definition findNearestPointOnTrail (latlng : LatLng) (trailPoints : list LatLng) : Nearest :=
  let start := mkNearest Infinity (nth_error trailPoints 0) 0 0 in
  match trailPoints with
  | [] => start
  | p0 :: rest => nearestLoop latlng 0 p0 rest start
  end.

(** An index outside an array reads [undefined]; the result is then no
    number, here [None]. *)
Definition calculateDistanceAlongTrail (segmentIndex : nat) (ratio : Q)
    (trailPoints : list LatLng) (cumulativeDistances : list Q) : option Q :=
  match nth_error cumulativeDistances segmentIndex,
        nth_error trailPoints segmentIndex,
        nth_error trailPoints (S segmentIndex) with
  | Some baseDistance, Some p1, Some p2 =>
      let segmentLength := distanceTo p1 p2 in
      Some (baseDistance + ratio * segmentLength)
  | _, _, _ => None
  end.

(** The along-course distance of the projection of [latlng], as
    showTrailInfo derives it. *)
Definition projectedTrailDistance (latlng : LatLng) (points : list LatLng) : option Q :=
  let r := findNearestPointOnTrail latlng points in
  calculateDistanceAlongTrail (segmentIndex r) (ratio r) points (cumulativeDistances points).

End Trail.

End MapComponent.

(* ================================================================== *)
(** * The App component *)
(* ================================================================== *)

Module App.

Import Utils.

Definition AVG_WALKING_SPEED_MPS : Q := 14 # 10.
Definition AVG_CYCLING_SPEED_MPS : Q := 55 # 10.
Definition SPECTATOR_BUFFER_SECONDS : Q := 60 * 10.
Definition COURSE_CROSSING_PENALTY_SECONDS : Q := 60 * 5.

(** GeoJSON: a position is [lng, lat], a LineString a list of positions. *)
Definition Position := (Q * Q)%type.
Definition LineString := list Position.

Record AppState := mkAppState {
  runnerPace : string;
  selectedSpots : list Q;
  markerPositions : NumMap;
  travelProfile : TravelProfile;
  gpxCourseLine : option LineString;
  numSpotsToSuggest : Z;
  suggestionStrategy : SuggestionStrategy;
  skipFirstKm : Q
}.

(** What one run of the suggestion callback does before it returns. *)
Inductive Suggestion :=
| Cleared                          (* setSelectedSpots(new Set()) at the guard *)
| Alerted (message : string)       (* alert(...) and return *)
| Returned                         (* plain return *)
| Suggested (suggestedDistances : list Q).

Abbreviation entry := (Q * LatLng)%type.
Definition noEntry : entry := (0, mkLatLng 0 0).

(** Array.prototype.sort with the comparator [a[0] - b[0]]: a stable sort
    by ascending distance. *)
Fixpoint insertEntry (e : entry) (l : list entry) : list entry :=
  match l with
  | [] => [e]
  | x :: l' => if Qlt_bool (fst x) (fst e) then x :: insertEntry e l' else e :: x :: l'
  end.

Fixpoint sortEntries (l : list entry) : list entry :=
  match l with
  | [] => []
  | x :: l' => insertEntry x (sortEntries l')
  end.

Definition potentiallyAvailableMarkers (markers : NumMap) (skipFirstKm : Q) : list entry :=
  let skipDistance := skipFirstKm * 1000 in
  sortEntries (filter (fun e => Qle_bool skipDistance (fst e)) markers).

(** Math.round: the nearest integer, halves upwards. *)
Definition Math_round (x : Q) : Z := Qfloor (x + (1 # 2)).

(** new Set(array): the first occurrence of every number, in order. *)
Fixpoint newSet (l : list Q) : list Q :=
  match l with
  | [] => []
  | x :: l' => x :: filter (fun y => negb (Qeq_bool x y)) (newSet l')
  end.

(** ** maxSpread

    The arithmetic is exact here; [Rounded.maxSpreadDistances] below is
    the same code with the rounding of the division and of the product,
    which decides the index at a half. *)

Definition maxSpreadDistances (availableMarkerEntries : list entry) (numToSelect : Z) : list Q :=
  let len := Z.of_nat (length availableMarkerEntries) in
  if ((numToSelect =? 1)%Z && (0 <? len)%Z)%bool then
    [fst (nth (Z.to_nat (len - 1)) availableMarkerEntries noEntry)]
  else if ((1 <? numToSelect)%Z && (1 <? len)%Z)%bool then
    let step := inject_Z (len - 1) / inject_Z (numToSelect - 1) in
    map (fun i : nat =>
           let index := Math_round (inject_Z (Z.of_nat i) * step) in
           let safeIndex := Z.max 0 (Z.min index (len - 1)) in
           fst (nth (Z.to_nat safeIndex) availableMarkerEntries noEntry))
        (seq 0 (Z.to_nat numToSelect))
  else [].

(** ** minTravel *)

Section MinTravel.

Variable distanceTo : LatLng -> LatLng -> Q.
Variable lineIntersect : LineString -> LineString -> list Position.
Variable turfDistance : Position -> Position -> Q.

Definition spectatorTimeSeconds (profile : TravelProfile) (straightLineDist : Q) : xnum :=
  match profile with
  | walking => Fin (straightLineDist / AVG_WALKING_SPEED_MPS)
  | cycling => Fin (straightLineDist / AVG_CYCLING_SPEED_MPS)
  | transit => Infinity
  end.

(** The loop over the intersection features, left at the first one that is
    more than 10 m from both ends of the spectator path. *)
Fixpoint trueIntersection (startPt endPt : Position) (features : list Position) : bool :=
  match features with
  | [] => false
  | intersectPt :: rest =>
      let distToStart := turfDistance startPt intersectPt in
      let distToEnd := turfDistance endPt intersectPt in
      if (Qlt_bool 10 distToStart && Qlt_bool 10 distToEnd)%bool then true
      else trueIntersection startPt endPt rest
  end.

Definition courseCrossing (course : LineString) (lastSpotLatLng potentialNextLatLng : LatLng) : bool :=
  let spectatorPathLine :=
    [(lng lastSpotLatLng, lat lastSpotLatLng); (lng potentialNextLatLng, lat potentialNextLatLng)] in
  let intersections := lineIntersect course spectatorPathLine in
  if (0 <? length intersections)%nat then
    let startPt := (lng lastSpotLatLng, lat lastSpotLatLng) in
    let endPt := (lng potentialNextLatLng, lat potentialNextLatLng) in
    trueIntersection startPt endPt intersections
  else false.

Definition crossingPenalty (course : LineString) (lastSpotLatLng potentialNextLatLng : LatLng) : Q :=
  if courseCrossing course lastSpotLatLng potentialNextLatLng
  then COURSE_CROSSING_PENALTY_SECONDS else 0.

Definition isFeasible (course : LineString) (profile : TravelProfile)
    (runnerSecondsPerMeter lastSpotDistance : Q) (lastSpotLatLng : LatLng)
    (candidate : entry) : bool :=
  let '(potentialNextDistance, potentialNextLatLng) := candidate in
  let straightLineDist := distanceTo lastSpotLatLng potentialNextLatLng in
  let courseDistanceBetweenSpots := potentialNextDistance - lastSpotDistance in
  let runnerTimeSeconds := courseDistanceBetweenSpots * runnerSecondsPerMeter in
  xgt (Fin runnerTimeSeconds)
      (xadd (xadd (spectatorTimeSeconds profile straightLineDist)
                  (Fin (crossingPenalty course lastSpotLatLng potentialNextLatLng)))
            (Fin SPECTATOR_BUFFER_SECONDS)).

(** The [for] loop over the candidates, from index [i] on; [None] stands
    for the index -1. *)
Fixpoint scanCandidates (course : LineString) (profile : TravelProfile)
    (runnerSecondsPerMeter lastSpotDistance : Q) (lastSpotLatLng : LatLng)
    (usedIndices : list nat) (entries : list entry) (i : nat)
    (bestNextSpotIndex : option nat) (minFeasibleStraightLineDist : xnum)
  : option nat :=
  match entries with
  | [] => bestNextSpotIndex
  | candidate :: rest =>
      if existsb (Nat.eqb i) usedIndices then
        scanCandidates course profile runnerSecondsPerMeter lastSpotDistance lastSpotLatLng
          usedIndices rest (S i) bestNextSpotIndex minFeasibleStraightLineDist
      else
        let straightLineDist := distanceTo lastSpotLatLng (snd candidate) in
        if (isFeasible course profile runnerSecondsPerMeter lastSpotDistance lastSpotLatLng candidate
            && xlt (Fin straightLineDist) minFeasibleStraightLineDist)%bool
        then scanCandidates course profile runnerSecondsPerMeter lastSpotDistance lastSpotLatLng
               usedIndices rest (S i) (Some i) (Fin straightLineDist)
        else scanCandidates course profile runnerSecondsPerMeter lastSpotDistance lastSpotLatLng
               usedIndices rest (S i) bestNextSpotIndex minFeasibleStraightLineDist
  end.

Definition bestNextSpot (course : LineString) (profile : TravelProfile)
    (runnerSecondsPerMeter lastSpotDistance : Q) (lastSpotLatLng : LatLng)
    (usedIndices : list nat) (availableMarkerEntries : list entry) : option nat :=
  scanCandidates course profile runnerSecondsPerMeter lastSpotDistance lastSpotLatLng
    usedIndices availableMarkerEntries 0 None Infinity.

(** The [while] loop: [remaining] is [numToSelect] minus the number of
    distances suggested so far; the result is what the loop appends. *)
Fixpoint greedyWalk (course : LineString) (profile : TravelProfile)
    (runnerSecondsPerMeter : Q) (availableMarkerEntries : list entry)
    (remaining : nat) (lastSpotDistance : Q) (lastSpotLatLng : LatLng)
    (usedIndices : list nat) : list Q :=
  match remaining with
  | O => []
  | S remaining' =>
      match bestNextSpot course profile runnerSecondsPerMeter lastSpotDistance lastSpotLatLng
              usedIndices availableMarkerEntries with
      | Some bestNextSpotIndex =>
          let '(nextDist, nextLatLng) := nth bestNextSpotIndex availableMarkerEntries noEntry in
          nextDist :: greedyWalk course profile runnerSecondsPerMeter availableMarkerEntries
                        remaining' nextDist nextLatLng (bestNextSpotIndex :: usedIndices)
      | None => []
      end
  end.

Definition minTravelDistances (course : LineString) (profile : TravelProfile)
    (runnerSecondsPerMeter : Q) (availableMarkerEntries : list entry) (numToSelect : Z)
  : list Q :=
  match availableMarkerEntries with
  | [] => []
  | firstMarkerEntry :: _ =>
      fst firstMarkerEntry ::
      greedyWalk course profile runnerSecondsPerMeter availableMarkerEntries
        (Z.to_nat (numToSelect - 1)) (fst firstMarkerEntry) (snd firstMarkerEntry) [0%nat]
  end.

(** ** The suggestion callback *)

Definition paceAlert : string := "Please enter a valid runner pace...".

Definition suggestSpots (st : AppState) : Suggestion :=
  let availableMarkerEntries := potentiallyAvailableMarkers (markerPositions st) (skipFirstKm st) in
  match gpxCourseLine st with
  | None => Cleared
  | Some course =>
      if ((length availableMarkerEntries =? 0)%nat || (numSpotsToSuggest st <=? 0)%Z)%bool
      then Cleared
      else
        let numToSelect := Z.min (numSpotsToSuggest st) (Z.of_nat (length availableMarkerEntries)) in
        match suggestionStrategy st with
        | maxSpread => Suggested (maxSpreadDistances availableMarkerEntries numToSelect)
        | minTravel =>
            match parsePaceToSecondsPerMeter (runnerPace st) with
            | None => Alerted paceAlert
            | Some runnerSecondsPerMeter =>
                if (length availableMarkerEntries =? 0)%nat then Returned
                else Suggested (minTravelDistances course (travelProfile st) runnerSecondsPerMeter
                                  availableMarkerEntries numToSelect)
            end
        end
  end.

Definition withSelectedSpots (st : AppState) (spots : list Q) : AppState :=
  mkAppState (runnerPace st) spots (markerPositions st) (travelProfile st)
    (gpxCourseLine st) (numSpotsToSuggest st) (suggestionStrategy st) (skipFirstKm st).

(** The callback as a state transformer; the second component lists the
    alerts shown. *)
Definition handleSuggestSpots (st : AppState) : AppState * list string :=
  match suggestSpots st with
  | Cleared => (withSelectedSpots st [], [])
  | Alerted message => (st, [message])
  | Returned => (st, [])
  | Suggested suggestedDistances => (withSelectedSpots st (newSet suggestedDistances), [])
  end.

(** The list of distances a run yields, when it yields one. *)
Definition suggestedDistancesOf (st : AppState) : option (list Q) :=
  match suggestSpots st with
  | Cleared => Some []
  | Suggested suggestedDistances => Some suggestedDistances
  | Alerted _ | Returned => None
  end.

End MinTravel.

End App.

(* ================================================================== *)
(** * The computations whose result depends on the rounding *)
(* ================================================================== *)

(** The definitions above compute on exact rationals.  Where the result
    of an arithmetic operation decides which index or which segment is
    taken, the rounding counts: here the same code is written with the
    rounding [fl] of every operation that rounds. *)

Module Rounded.

Import MapComponent App.

Section Arithmetic.

Variable fl : Q -> Q.

(** ** maxSpread

    The two subtractions are exact, on integers; the division and the
    product round. *)
Definition maxSpreadDistances (availableMarkerEntries : list entry) (numToSelect : Z) : list Q :=
  let len := Z.of_nat (length availableMarkerEntries) in
  if ((numToSelect =? 1)%Z && (0 <? len)%Z)%bool then
    [fst (nth (Z.to_nat (len - 1)) availableMarkerEntries noEntry)]
  else if ((1 <? numToSelect)%Z && (1 <? len)%Z)%bool then
    let step := fl (inject_Z (len - 1) / inject_Z (numToSelect - 1)) in
    map (fun i : nat =>
           let index := Math_round (fl (inject_Z (Z.of_nat i) * step)) in
           let safeIndex := Z.max 0 (Z.min index (len - 1)) in
           fst (nth (Z.to_nat safeIndex) availableMarkerEntries noEntry))
        (seq 0 (Z.to_nat numToSelect))
  else [].

(** ** findNearestPointOnTrail

    Every subtraction, product, sum and division of the loop body rounds;
    Math.max and Math.min do not, and the literal 1e-12 is the double
    nearest to it.  The distances are Leaflet's. *)

Variable distanceTo : LatLng -> LatLng -> Q.

Definition projectOnSegment (latlng p1 p2 : LatLng) : Q * LatLng :=
  let vx := fl (lng p2 - lng p1) in
  let vy := fl (lat p2 - lat p1) in
  let wx := fl (lng latlng - lng p1) in
  let wy := fl (lat latlng - lat p1) in
  let dot_wv := fl (fl (wx * vx) + fl (wy * vy)) in
  let dot_vv := fl (fl (vx * vx) + fl (vy * vy)) in
  let t := if Qlt_bool dot_vv (fl COORD_EPS) then 0 else fl (dot_wv / dot_vv) in
  let ratio := Qmax 0 (Qmin 1 t) in
  let pointOnSegment :=
    mkLatLng (fl (lat p1 + fl (ratio * vy))) (fl (lng p1 + fl (ratio * vx))) in
  (ratio, pointOnSegment).

Fixpoint nearestLoop (latlng : LatLng) (i : nat) (p1 : LatLng) (rest : list LatLng)
    (best : Nearest) : Nearest :=
  match rest with
  | [] => best
  | p2 :: rest' =>
      let segmentLength := distanceTo p1 p2 in
      if Qeq_bool segmentLength 0 then nearestLoop latlng (S i) p2 rest' best
      else
        let '(ratio, pointOnSegment) := projectOnSegment latlng p1 p2 in
        let distance' := distanceTo latlng pointOnSegment in
        if xlt (Fin distance') (distance best)
        then nearestLoop latlng (S i) p2 rest'
               (mkNearest (Fin distance') (Some pointOnSegment) i ratio)
        else nearestLoop latlng (S i) p2 rest' best
  end.

Definition findNearestPointOnTrail (latlng : LatLng) (trailPoints : list LatLng) : Nearest :=
  let start := mkNearest Infinity (nth_error trailPoints 0) 0 0 in
  match trailPoints with
  | [] => start
  | p0 :: rest => nearestLoop latlng 0 p0 rest start
  end.

End Arithmetic.

End Rounded.

(* ================================================================== *)
(** * utils.ts: the formatters *)
(* ================================================================== *)

Module Format.

(** String(n) for an integer that is not negative. *)
Definition numberToString (n : Z) : string :=
  NilZero.string_of_uint (Nat.to_uint (Z.to_nat n)).

(** s.padStart(2, '0') *)
Definition padStart2 (s : string) : string :=
  match String.length s with
  | 0%nat => "00"
  | 1%nat => String "0"%char s
  | _ => s
  end.

(** Math.trunc *)
Definition Math_trunc (x : Q) : Z :=
  if Qlt_bool x 0 then (- Qfloor (- x))%Z else Qfloor x.

(** The remainder operator: the result has the sign of the dividend. *)
Definition jsRem (a n : Q) : Q := a - n * inject_Z (Math_trunc (a / n)).

(** A NaN argument, which the formatters reject first, is not a value of
    the model. *)
Definition formatSecondsToHMS (totalSeconds : Q) : string :=
  if Qlt_bool totalSeconds 0 then "--:--:--"
  else
    let hours := Qfloor (totalSeconds / 3600) in
    let minutes := Qfloor (jsRem totalSeconds 3600 / 60) in
    let seconds := Qfloor (jsRem totalSeconds 60) in
    let paddedHours := padStart2 (numberToString hours) in
    let paddedMinutes := padStart2 (numberToString minutes) in
    let paddedSeconds := padStart2 (numberToString seconds) in
    (paddedHours ++ ":" ++ paddedMinutes ++ ":" ++ paddedSeconds)%string.

Definition formatSecondsToHoursMinutes (totalSeconds : Q) : string :=
  if Qlt_bool totalSeconds 0 then "-:--"
  else if Qeq_bool totalSeconds 0 then "0m"
  else
    let hours := Qfloor (totalSeconds / 3600) in
    let minutes := Qfloor (jsRem totalSeconds 3600 / 60) in
    if (0 <? hours)%Z then
      if (0 <? minutes)%Z
      then (numberToString hours ++ "h" ++ " " ++ numberToString minutes ++ "m")%string
      else (numberToString hours ++ "h")%string
    else if (0 <? minutes)%Z then (numberToString minutes ++ "m")%string
    else "< 1m".

(** x.toFixed(1) for a double x that is not negative: the tenths nearest
    to the value of x, the larger one at a tie. *)
Definition toFixed1 (x : Q) : string :=
  let n := Qfloor (x * 10 + (1 # 2)) in
  (numberToString (n / 10) ++ "." ++ numberToString (n mod 10))%string.

(** The division gives a double: [fl] is its rounding.  So 1150 m is
    1.149999999999999911 km for toFixed, and not 1.15 km. *)
Definition formatDistanceString (fl : Q -> Q) (distanceInMeters : Q) : string :=
  if Qlt_bool distanceInMeters 0 then "Invalid distance"
  else if Qlt_bool distanceInMeters 1000 then
    (numberToString (App.Math_round distanceInMeters) ++ "m")%string
  else
    let km := fl (distanceInMeters / 1000) in
    (toFixed1 km ++ "km")%string.

End Format.

(* ================================================================== *)
(** * The PlannerSidebar component: the two number inputs *)
(* ================================================================== *)

Module Sidebar.

(** The number handed to onNumSpotsChange for the text of the input. *)
Definition handleNumSpotsInputChange (value : string) (maxAvailableSpots : Z) : Z :=
  let num := match Utils.parseInt value with Some n => n | None => 1%Z end in
  let num := if (num <? 1)%Z then 1%Z else num in
  if ((0 <? maxAvailableSpots)%Z && (maxAvailableSpots <? num)%Z)%bool
  then maxAvailableSpots else num.

(** The number handed to onSkipFirstKmChange. *)
Definition handleSkipKmInputChange (value : string) : Z :=
  match Utils.parseInt value with
  | Some n => if (n <? 0)%Z then 0%Z else n
  | None => 0%Z
  end.

End Sidebar.

(* ================================================================== *)
(** * The App component: toggling, way points and loading a track *)
(* ================================================================== *)

Module Planner.

Import App.

(** Set<number>: the numbers in insertion order, each once. *)
Definition setHas (d : Q) (spots : list Q) : bool := existsb (Qeq_bool d) spots.

Definition setDelete (d : Q) (spots : list Q) : list Q :=
  filter (fun x => negb (Qeq_bool d x)) spots.

Definition setAdd (d : Q) (spots : list Q) : list Q :=
  if setHas d spots then spots else spots ++ [d].

(** handleSpotToggle, on the set of selected spots. *)
Definition toggleSpot (distance : Q) (prevSpots : list Q) : list Q :=
  if setHas distance prevSpots then setDelete distance prevSpots
  else setAdd distance prevSpots.

Definition handleSpotToggle (distance : Q) (st : AppState) : AppState :=
  withSelectedSpots st (toggleSpot distance (selectedSpots st)).

(** Array.prototype.sort with the comparator [a - b]. *)
Fixpoint insertNumber (x : Q) (l : list Q) : list Q :=
  match l with
  | [] => [x]
  | y :: l' => if Qlt_bool y x then y :: insertNumber x l' else x :: y :: l'
  end.

Fixpoint sortNumbers (l : list Q) : list Q :=
  match l with
  | [] => []
  | x :: l' => insertNumber x (sortNumbers l')
  end.

(** The way points for routing: the positions of the selected spots in
    ascending order of distance, spots without a position left out. *)
Fixpoint definedOnly (l : list (option LatLng)) : list LatLng :=
  match l with
  | [] => []
  | Some p :: l' => p :: definedOnly l'
  | None :: l' => definedOnly l'
  end.

Definition waypoints (st : AppState) : list LatLng :=
  let sortedSpots := sortNumbers (selectedSpots st) in
  definedOnly (map (fun distance => map_get distance (markerPositions st)) sortedSpots).

(** A parsed GPX file: its tracks, each the list of its points. *)
Record GpxPoint := mkGpxPoint { gpx_lat : Q; gpx_lon : Q }.
Definition GpxData := list (list GpxPoint).

(** The course line that handleGpxParsed stores: the first track as
    [lon, lat] positions when it has two points or more. *)
Definition courseLineOf (data : GpxData) : option LineString :=
  match data with
  | track :: _ =>
      let coords := map (fun p => (gpx_lon p, gpx_lat p)) track in
      if (2 <=? length coords)%nat then Some coords else None
  | [] => None
  end.

(** handleGpxParsed on the fields of the state that the model keeps. *)
Definition handleGpxParsed (data : GpxData) (st : AppState) : AppState :=
  mkAppState (runnerPace st) [] [] (travelProfile st) (courseLineOf data)
    (numSpotsToSuggest st) (suggestionStrategy st) (skipFirstKm st).

(** The Map that the drawing effect of MapComponent reports for the
    loaded data; [current] is the Map of the state when the effect reports
    nothing. *)
Definition reportedMarkers (distanceTo : LatLng -> LatLng -> Q) (fuel : nat)
    (data : GpxData) (current : NumMap) : outcome NumMap :=
  match data with
  | track :: _ =>
      let points := map (fun p => mkLatLng (gpx_lat p) (gpx_lon p)) track in
      if (1 <? length points)%nat then
        match MapComponent.calculateSpotPositions distanceTo
                MapComponent.POTENTIAL_SPOT_INTERVAL fuel points with
        | Done index => Done (MapComponent.markerPositions index)
        | DivByZero => DivByZero
        | OutOfFuel => OutOfFuel
        end
      else Done current
  | [] => Done []
  end.

(** Loading a file: handleGpxParsed, then the report of the effect. *)
Definition loadGpx (distanceTo : LatLng -> LatLng -> Q) (fuel : nat)
    (data : GpxData) (st : AppState) : outcome AppState :=
  let st1 := handleGpxParsed data st in
  match reportedMarkers distanceTo fuel data (markerPositions st1) with
  | Done markers =>
      Done (mkAppState (runnerPace st1) (selectedSpots st1) markers (travelProfile st1)
              (gpxCourseLine st1) (numSpotsToSuggest st1) (suggestionStrategy st1)
              (skipFirstKm st1))
  | DivByZero => DivByZero
  | OutOfFuel => OutOfFuel
  end.

(** The key that the drawing effect marks as the start marker: the key
    nearest to 1000 m, the first one of several, and Infinity for a Map
    without keys. *)
Definition distanceFromFirstKm (x : xnum) : xnum :=
  match x with
  | Fin q => Fin (Qabs (q - 1000))
  | Infinity => Infinity
  end.

Definition firstKmKey (markers : NumMap) : xnum :=
  fold_left (fun prev curr =>
               if xlt (distanceFromFirstKm (Fin curr)) (distanceFromFirstKm prev)
               then Fin curr else prev)
            (map_keys markers) Infinity.

End Planner.

(* ================================================================== *)
(** * Concrete collaborators, used to run the code on examples *)
(* ================================================================== *)

Module Sample.

(** A stand-in for [distanceTo]: the taxicab distance, 100 km to the
    degree.  It is zero exactly between equal points. *)
Definition gridDistance (p q : LatLng) : Q :=
  100000 * (Qabs (lat p - lat q) + Qabs (lng p - lng q)).

(** A course that no spectator path meets. *)
Definition noIntersect (_ _ : App.LineString) : list App.Position := [].

Definition gridPosDistance (p q : App.Position) : Q :=
  100000 * (Qabs (fst p - fst q) + Qabs (snd p - snd q)).

Definition pointA : LatLng := mkLatLng 0 0.
Definition pointB : LatLng := mkLatLng (1 # 1000) 0.
Definition pointC : LatLng := mkLatLng (1 # 1000) (1 # 1000).

(** Out to B and back to the start. *)
Definition outAndBack : list LatLng := [pointA; pointB; pointA].

(** A course with a corner at B. *)
Definition corner : list LatLng := [pointA; pointB; pointC].

(** A point whose coordinates are doubles, as those of A are. *)
Definition pointD : LatLng := mkLatLng (1 # 1024) 0.

(** Out to D and back to the start. *)
Definition thereAndBack : list LatLng := [pointA; pointD; pointA].

(** To D, where the course ends on a repeated point. *)
Definition stopAtD : list LatLng := [pointA; pointD; pointD].

(** A corner at (0.9, 0), reached from (0.2, 0): the coordinates are the
    doubles nearest to these decimals. *)
Definition decimalCorner : list LatLng :=
  [ mkLatLng (Number.binary64 (2 # 10)) 0;
    mkLatLng (Number.binary64 (9 # 10)) 0;
    mkLatLng (Number.binary64 (9 # 10)) (Number.binary64 (1 # 10)) ].

(** A course that stands still before it leaves for B. *)
Definition slowStart : list LatLng := [pointA; pointA; pointB].

(** Ten points in a line, 500 m from one to the next. *)
Definition tenPoints : list LatLng :=
  map (fun i : nat => mkLatLng (inject_Z (Z.of_nat i) * (5 # 1000)) 0) (seq 0 10).

Definition sampleMarkers : NumMap :=
  [ (3000, mkLatLng (3 # 100) 0);
    (1000, mkLatLng (1 # 100) 0);
    (5000, mkLatLng (1 # 100) (1 # 100000));
    (9000, mkLatLng (1 # 100) (2 # 100000)) ].

(** Thirty-five markers in a line, 50 m from one to the next. *)
Definition markersEvery50 : list App.entry :=
  map (fun i : nat =>
         (inject_Z (Z.of_nat (S i)) * 50, mkLatLng (inject_Z (Z.of_nat (S i)) * (5 # 10000)) 0))
      (seq 0 35).

Definition sampleCourse : App.LineString := [(0, 0); (0, 3 # 100)].

(** The file of the course with a corner: one track of three points. *)
Definition cornerGpx : Planner.GpxData :=
  [ [ Planner.mkGpxPoint 0 0;
      Planner.mkGpxPoint (1 # 1000) 0;
      Planner.mkGpxPoint (1 # 1000) (1 # 1000) ] ].

Definition sampleState (pace : string) (profile : Utils.TravelProfile)
    (strategy : Utils.SuggestionStrategy) (numSpots : Z) : App.AppState :=
  App.mkAppState pace [3000] sampleMarkers profile (Some sampleCourse) numSpots strategy 0.

End Sample.

(* ================================================================== *)
(** * Vocabulary of the statements *)
(* ================================================================== *)

Module Spec.

(** A subsequence: the first list is the second with elements left out. *)
Inductive Subseq {A : Type} : list A -> list A -> Prop :=
| Subseq_nil l : Subseq [] l
| Subseq_skip x l1 l2 : Subseq l1 l2 -> Subseq l1 (x :: l2)
| Subseq_take x l1 l2 : Subseq l1 l2 -> Subseq (x :: l1) (x :: l2).

(** Entries in ascending order of distance. *)
Definition keyLe (a b : Q * LatLng) : Prop := fst a <= fst b.

(** The GeoJSON position of a point. *)
Definition positionOf (p : LatLng) : App.Position := (lng p, lat p).

(** The number [q] is a key of the Map. *)
Definition keyIn (q : Q) (m : NumMap) : Prop := exists k, In k (map_keys m) /\ k == q.

(** The distances I, 2I, ..., kI. *)
Definition marks (interval : Q) (k : nat) : list Q :=
  map (fun j : nat => inject_Z (Z.of_nat j) * interval) (seq 1 k).

(** The finish key meets the last mark when the length of the course is
    a multiple of the interval, and not zero. *)
Definition finishCoincides (interval total : Q) : bool :=
  let k := Z.to_nat (Qfloor (total / interval)) in
  ((1 <=? k)%nat && Qeq_bool total (inject_Z (Z.of_nat k) * interval))%bool.

(** The keys of the candidate Map of a course of length [total]: the marks
    up to floor(total / interval), then the finish key unless it meets the
    last mark. *)
Definition expectedKeys (interval total : Q) : list Q :=
  let k := Z.to_nat (Qfloor (total / interval)) in
  marks interval k ++ (if finishCoincides interval total then [] else [total]).

(** Two points with the same coordinates. *)
Definition SamePoint (p q : LatLng) : Prop := lat p == lat q /\ lng p == lng q.

Section Vertex.

Variable fl : Q -> Q.
Variable distanceTo : LatLng -> LatLng -> Q.
Variable points : list LatLng.
Variable latlng : LatLng.

(** The squared length of the segment [j] in coordinate space, as the
    projector computes it. *)
Definition coordinateNormSquared (j : nat) : Q :=
  let p1 := nth j points (mkLatLng 0 0) in
  let p2 := nth (S j) points (mkLatLng 0 0) in
  let vx := fl (lng p2 - lng p1) in
  let vy := fl (lat p2 - lat p1) in
  fl (fl (vx * vx) + fl (vy * vy)).

(** The ratio and the nearest point that the projector computes for
    [latlng] on the segment [j]. *)
Definition nearestOn (j : nat) : Q * LatLng :=
  Rounded.projectOnSegment fl latlng
    (nth j points (mkLatLng 0 0)) (nth (S j) points (mkLatLng 0 0)).

Definition segmentLengthAt (j : nat) : Q :=
  distanceTo (nth j points (mkLatLng 0 0)) (nth (S j) points (mkLatLng 0 0)).

(** The end of the segment [j] as the projector computes it at the
    ratio 1: p1 + 1 * (p2 - p1), with the rounding of each operation. *)
Definition computedEnd (j : nat) : LatLng :=
  let p1 := nth j points (mkLatLng 0 0) in
  let p2 := nth (S j) points (mkLatLng 0 0) in
  mkLatLng (fl (lat p1 + fl (1 * fl (lat p2 - lat p1))))
           (fl (lng p1 + fl (1 * fl (lng p2 - lng p1)))).

(** The segment [j] has a length that is not zero, and the nearest point
    computed on it is at distance 0 from [latlng]. *)
Definition Hit (j : nat) : Prop :=
  (S j < length points)%nat
  /\ ~ segmentLengthAt j == 0
  /\ distanceTo latlng (snd (nearestOn j)) == 0.

(** The segment [j] is the first such segment. *)
Definition FirstHit (j : nat) : Prop :=
  Hit j
  /\ forall i, (i < j)%nat ->
       segmentLengthAt i == 0 \/ 0 < distanceTo latlng (snd (nearestOn i)).

End Vertex.

End Spec.

(* ================================================================== *)
(** * Properties of the rounding to the nearest double *)
(* ================================================================== *)

Module NumberFacts.

Import Number.

Lemma inject_Z_succ (n : Z) : inject_Z (n + 1) == inject_Z n + 1.
Proof. rewrite inject_Z_plus. reflexivity. Qed.

Lemma roundHalfEven_cases (y : Q) :
  roundHalfEven y = Qfloor y \/ roundHalfEven y = (Qfloor y + 1)%Z.
Proof.
  unfold roundHalfEven. destruct (Qcompare _ _); auto. destruct (Z.even _); auto.
Qed.

Lemma roundHalfEven_error (y : Q) : Qabs (inject_Z (roundHalfEven y) - y) <= 1 # 2.
Proof.
  pose proof (Qfloor_le y) as Hlow. pose proof (Qlt_floor y) as Hhigh.
  rewrite inject_Z_succ in Hhigh.
  apply Qabs_Qle_condition. unfold roundHalfEven.
  destruct (Qcompare_spec (y - inject_Z (Qfloor y)) (1 # 2)) as [H|H|H];
    [destruct (Z.even (Qfloor y))| |]; rewrite ?inject_Z_succ; split; lra.
Qed.

Lemma roundHalfEven_le (y1 y2 : Q) :
  y1 <= y2 -> (roundHalfEven y1 <= roundHalfEven y2)%Z.
Proof.
  intros Hle. pose proof (Qfloor_resp_le _ _ Hle) as Hfloor.
  destruct (Z.eq_dec (Qfloor y1) (Qfloor y2)) as [E|Hne].
  - unfold roundHalfEven. rewrite <- E.
    destruct (Qcompare_spec (y1 - inject_Z (Qfloor y1)) (1 # 2)) as [H1|H1|H1];
      destruct (Qcompare_spec (y2 - inject_Z (Qfloor y1)) (1 # 2)) as [H2|H2|H2];
      try destruct (Z.even (Qfloor y1)); try lia; exfalso; lra.
  - destruct (roundHalfEven_cases y1) as [-> | ->];
      destruct (roundHalfEven_cases y2) as [-> | ->]; lia.
Qed.

Lemma roundHalfEven_integer (y : Q) (n : Z) : y == inject_Z n -> roundHalfEven y = n.
Proof.
  intros H. unfold roundHalfEven. rewrite (Qfloor_comp _ _ H), Qfloor_Z.
  destruct (Qcompare_spec (y - inject_Z n) (1 # 2)) as [H1|H1|H1];
    [exfalso; lra | reflexivity | exfalso; lra].
Qed.

Lemma two_power_pos (k : Z) : 0 < 2 ^ k.
Proof. apply Qpower_0_lt. reflexivity. Qed.

Lemma two_power_plus (n m : Z) : 2 ^ (n + m) == 2 ^ n * 2 ^ m.
Proof. apply Qpower_plus. discriminate. Qed.

Lemma two_power_Z (n : Z) : (0 <= n)%Z -> 2 ^ n == inject_Z (2 ^ n).
Proof. intros H. rewrite Zpower_Qpower by exact H. reflexivity. Qed.

Lemma two_power_le (n m : Z) : (n <= m)%Z -> 2 ^ n <= 2 ^ m.
Proof. intros H. apply Qpower_le_compat_l; [exact H | discriminate]. Qed.

Lemma two_power_lt_inv (n m : Z) : 2 ^ n < 2 ^ m -> (n < m)%Z.
Proof. intros H. apply (Qpower_lt_compat_l_inv 2); [exact H | reflexivity]. Qed.

Lemma floorLog2_spec (a : Q) :
  0 < a -> 2 ^ floorLog2 a <= a /\ a < 2 ^ (floorLog2 a + 1).
Proof.
  intros Hpos. destruct a as [n d].
  assert (Hn : (0 < n)%Z) by (unfold Qlt in Hpos; simpl in Hpos; lia).
  unfold floorLog2. cbn [Qnum Qden].
  set (ln := Z.log2 n). set (ld := Z.log2 (Zpos d)).
  destruct (Z.log2_spec n Hn) as [Hn1 Hn2]. fold ln in Hn1, Hn2.
  destruct (Z.log2_spec (Zpos d) eq_refl) as [Hd1 Hd2]. fold ld in Hd1, Hd2.
  assert (Hln : (0 <= ln)%Z) by apply Z.log2_nonneg.
  assert (Hld : (0 <= ld)%Z) by apply Z.log2_nonneg.
  assert (Hd : 0 < inject_Z (Zpos d)) by reflexivity.
  assert (Ha : n # d == inject_Z n / inject_Z (Zpos d)) by apply Qmake_Qdiv.
  assert (Qn1 : 2 ^ ln <= inject_Z n) by (rewrite two_power_Z by lia; now rewrite <- Zle_Qle).
  assert (Qn2 : inject_Z n < 2 ^ (ln + 1))
    by (rewrite two_power_Z by lia; now rewrite <- Zlt_Qlt).
  assert (Qd1 : 2 ^ ld <= inject_Z (Zpos d))
    by (rewrite two_power_Z by lia; now rewrite <- Zle_Qle).
  assert (Qd2 : inject_Z (Zpos d) < 2 ^ (ld + 1))
    by (rewrite two_power_Z by lia; now rewrite <- Zlt_Qlt).
  assert (Hlow : 2 ^ (ln - ld - 1) < n # d).
  { rewrite Ha. apply Qlt_shift_div_l; [exact Hd|].
    apply Qlt_le_trans with (2 ^ (ln - ld - 1) * 2 ^ (ld + 1)).
    - apply Qmult_lt_l; [apply two_power_pos | exact Qd2].
    - rewrite <- two_power_plus. replace (ln - ld - 1 + (ld + 1))%Z with ln by lia.
      exact Qn1. }
  assert (Hhigh : n # d < 2 ^ (ln - ld + 1)).
  { rewrite Ha. apply Qlt_shift_div_r; [exact Hd|].
    apply Qlt_le_trans with (2 ^ (ln - ld + 1) * 2 ^ ld).
    - rewrite <- two_power_plus. replace (ln - ld + 1 + ld)%Z with (ln + 1)%Z by lia.
      exact Qn2.
    - apply Qmult_le_l; [apply two_power_pos | exact Qd1]. }
  destruct (Qle_bool (2 ^ (ln - ld)) (n # d)) eqn:E.
  - apply Qle_bool_iff in E. split; assumption.
  - assert (Hlt : n # d < 2 ^ (ln - ld)).
    { apply Qnot_le_lt. intros H. apply Qle_bool_iff in H. congruence. }
    replace (ln - ld - 1 + 1)%Z with (ln - ld)%Z by lia.
    split; [apply Qlt_le_weak; exact Hlow | exact Hlt].
Qed.


(** ** Rounding a positive number *)

Lemma ulp_pos (a : Q) : 0 < ulp a.
Proof. apply two_power_pos. Qed.

Lemma scaled_upper (a : Q) : 0 < a -> a / ulp a < inject_Z (2 ^ 53).
Proof.
  intros Hpos. destruct (floorLog2_spec a Hpos) as [_ Hhigh].
  apply Qlt_shift_div_r; [apply ulp_pos|]. unfold ulp.
  rewrite <- (two_power_Z 53) by lia. rewrite <- two_power_plus.
  apply Qlt_le_trans with (1 := Hhigh). apply two_power_le. lia.
Qed.

Lemma scaled_lower (a : Q) :
  0 < a -> (EMIN <= floorLog2 a)%Z -> inject_Z (2 ^ 52) <= a / ulp a.
Proof.
  intros Hpos Hnormal. destruct (floorLog2_spec a Hpos) as [Hlow _].
  apply Qle_shift_div_l; [apply ulp_pos|]. unfold ulp.
  rewrite <- (two_power_Z 52) by lia. rewrite <- two_power_plus.
  apply Qle_trans with (2 := Hlow). apply two_power_le. lia.
Qed.

Lemma roundPositive_nonneg (a : Q) : 0 < a -> 0 <= roundPositive a.
Proof.
  intros Hpos. unfold roundPositive. apply Qmult_le_0_compat; [|apply Qlt_le_weak, ulp_pos].
  change 0 with (inject_Z 0). rewrite <- Zle_Qle.
  assert (H : (0 <= Qfloor (a / ulp a))%Z).
  { change 0%Z with (Qfloor 0). apply Qfloor_resp_le.
    apply Qle_shift_div_l; [apply ulp_pos | lra]. }
  destruct (roundHalfEven_cases (a / ulp a)) as [-> | ->]; lia.
Qed.

Lemma roundPositive_upper (a : Q) :
  0 < a -> roundPositive a <= 2 ^ (Z.max (floorLog2 a) EMIN + 1).
Proof.
  intros Hpos. unfold roundPositive.
  assert (H : (roundHalfEven (a / ulp a) <= 2 ^ 53)%Z).
  { pose proof (roundHalfEven_le _ _ (Qlt_le_weak _ _ (scaled_upper a Hpos))) as H.
    now rewrite (roundHalfEven_integer (inject_Z (2 ^ 53)) (2 ^ 53)) in H by reflexivity. }
  apply Qle_trans with (inject_Z (2 ^ 53) * ulp a).
  - apply Qmult_le_compat_r; [now rewrite <- Zle_Qle | apply Qlt_le_weak, ulp_pos].
  - unfold ulp. rewrite <- (two_power_Z 53) by lia. rewrite <- two_power_plus.
    apply two_power_le. lia.
Qed.

Lemma roundPositive_lower (a : Q) :
  0 < a -> (EMIN <= floorLog2 a)%Z -> 2 ^ floorLog2 a <= roundPositive a.
Proof.
  intros Hpos Hnormal. unfold roundPositive.
  assert (H : (2 ^ 52 <= roundHalfEven (a / ulp a))%Z).
  { pose proof (roundHalfEven_le _ _ (scaled_lower a Hpos Hnormal)) as H.
    now rewrite (roundHalfEven_integer (inject_Z (2 ^ 52)) (2 ^ 52)) in H by reflexivity. }
  apply Qle_trans with (inject_Z (2 ^ 52) * ulp a).
  - unfold ulp. rewrite <- (two_power_Z 52) by lia. rewrite <- two_power_plus.
    apply two_power_le. lia.
  - apply Qmult_le_compat_r; [now rewrite <- Zle_Qle | apply Qlt_le_weak, ulp_pos].
Qed.

Lemma floorLog2_le (a b : Q) : 0 < a -> a <= b -> (floorLog2 a <= floorLog2 b)%Z.
Proof.
  intros Hpos Hle.
  destruct (floorLog2_spec a Hpos) as [Ha _].
  destruct (floorLog2_spec b) as [_ Hb]; [lra|].
  assert (H : 2 ^ floorLog2 a < 2 ^ (floorLog2 b + 1)) by lra.
  apply two_power_lt_inv in H. lia.
Qed.

Lemma roundPositive_le (a b : Q) : 0 < a -> a <= b -> roundPositive a <= roundPositive b.
Proof.
  intros Hpos Hle. assert (Hb : 0 < b) by lra.
  pose proof (floorLog2_le a b Hpos Hle) as Hexp.
  destruct (Z.eq_dec (Z.max (floorLog2 a) EMIN) (Z.max (floorLog2 b) EMIN)) as [E|Hne].
  - unfold roundPositive. assert (Hulp : ulp a = ulp b) by (unfold ulp; now rewrite E).
    rewrite Hulp. apply Qmult_le_compat_r; [|apply Qlt_le_weak, ulp_pos].
    rewrite <- Zle_Qle. apply roundHalfEven_le.
    apply Qmult_le_compat_r; [exact Hle|]. apply Qlt_le_weak, Qinv_lt_0_compat, ulp_pos.
  - apply Qle_trans with (1 := roundPositive_upper a Hpos).
    apply Qle_trans with (2 ^ floorLog2 b).
    + apply two_power_le. lia.
    + apply roundPositive_lower; [exact Hb | lia].
Qed.

Lemma roundPositive_error (a : Q) :
  0 < a -> (EMIN <= floorLog2 a)%Z ->
  Qabs (roundPositive a - a) <= a * 2 ^ (-53).
Proof.
  intros Hpos Hnormal. destruct (floorLog2_spec a Hpos) as [Hlow _].
  pose proof (roundHalfEven_error (a / ulp a)) as Herr.
  pose proof (ulp_pos a) as Hulp.
  assert (E : roundPositive a - a == (inject_Z (roundHalfEven (a / ulp a)) - a / ulp a) * ulp a)
    by (unfold roundPositive; field; lra).
  rewrite E, Qabs_Qmult, (Qabs_pos (ulp a)) by lra.
  apply Qle_trans with ((1 # 2) * ulp a).
  - apply Qmult_le_compat_r; [exact Herr | lra].
  - apply Qle_trans with (2 ^ floorLog2 a * 2 ^ (-53)).
    + unfold ulp. rewrite Z.max_l by lia.
      replace (floorLog2 a - 52)%Z with (floorLog2 a + -52)%Z by lia.
      rewrite two_power_plus.
      setoid_replace ((1 # 2) * (2 ^ floorLog2 a * 2 ^ (-52)))
        with (2 ^ floorLog2 a * ((1 # 2) * 2 ^ (-52))) by ring.
      apply Qmult_le_l; [apply two_power_pos|]. apply Qle_lteq. right. reflexivity.
    + apply Qmult_le_compat_r; [exact Hlow | apply Qlt_le_weak, two_power_pos].
Qed.

Lemma roundPositive_integer (a : Q) (n : Z) :
  a == inject_Z n -> (0 < n < 2 ^ 53)%Z -> roundPositive a == inject_Z n.
Proof.
  intros Ha Hn.
  assert (Hn0 : 0 < inject_Z n) by (change 0 with (inject_Z 0); rewrite <- Zlt_Qlt; lia).
  assert (Hpos : 0 < a) by lra.
  destruct (floorLog2_spec _ Hpos) as [Hlow Hhigh].
  set (e := floorLog2 a) in *.
  assert (He0 : (0 <= e)%Z).
  { assert (H : 2 ^ 0 < 2 ^ (e + 1)).
    { apply Qle_lt_trans with (2 := Hhigh). rewrite Ha. change (2 ^ 0) with (inject_Z 1).
      rewrite <- Zle_Qle. lia. }
    apply two_power_lt_inv in H. lia. }
  assert (He52 : (e <= 52)%Z).
  { assert (H : 2 ^ e < 2 ^ 53).
    { apply Qle_lt_trans with (1 := Hlow). rewrite Ha, (two_power_Z 53) by lia.
      rewrite <- Zlt_Qlt. lia. }
    apply two_power_lt_inv in H. lia. }
  unfold roundPositive, ulp. fold e. rewrite Z.max_l by (unfold EMIN; lia).
  assert (Hscaled : a / 2 ^ (e - 52) == inject_Z (n * 2 ^ (52 - e))).
  { rewrite Ha, inject_Z_mult, <- (two_power_Z (52 - e)) by lia.
    replace (e - 52)%Z with (- (52 - e))%Z by lia. rewrite Qpower_opp.
    field. pose proof (two_power_pos (52 - e)). lra. }
  rewrite (roundHalfEven_integer _ _ Hscaled).
  rewrite inject_Z_mult, <- (two_power_Z (52 - e)) by lia.
  rewrite <- Qmult_assoc, <- two_power_plus.
  replace (52 - e + (e - 52))%Z with 0%Z by lia. change (2 ^ 0) with 1. ring.
Qed.

(** ** binary64 *)

Lemma binary64_pos (x : Q) : 0 < x -> binary64 x = roundPositive (Qred x).
Proof.
  intros H. unfold binary64. destruct (Qcompare_spec x 0) as [E|E|E]; [lra | lra | reflexivity].
Qed.

Lemma binary64_neg (x : Q) : x < 0 -> binary64 x = - roundPositive (Qred (- x)).
Proof.
  intros H. unfold binary64. destruct (Qcompare_spec x 0) as [E|E|E]; [lra | reflexivity | lra].
Qed.

Lemma binary64_zero (x : Q) : x == 0 -> binary64 x = 0.
Proof.
  intros H. unfold binary64. destruct (Qcompare_spec x 0) as [E|E|E]; [reflexivity | lra | lra].
Qed.

Lemma binary64_compat (x y : Q) : x == y -> binary64 x == binary64 y.
Proof.
  intros H. destruct (Qcompare_spec x 0) as [E|E|E].
  - rewrite (binary64_zero x), (binary64_zero y) by lra. reflexivity.
  - rewrite (binary64_neg x), (binary64_neg y) by lra.
    assert (Hopp : - x == - y) by lra. rewrite (Qred_complete _ _ Hopp). reflexivity.
  - rewrite (binary64_pos x), (binary64_pos y) by lra.
    rewrite (Qred_complete _ _ H). reflexivity.
Qed.

Lemma binary64_nonneg (x : Q) : 0 <= x -> 0 <= binary64 x.
Proof.
  intros H. destruct (Qcompare_spec x 0) as [E|E|E]; [|lra|].
  - rewrite binary64_zero by exact E. lra.
  - rewrite binary64_pos by exact E. apply roundPositive_nonneg. now rewrite Qred_correct.
Qed.

Lemma binary64_nonpos (x : Q) : x <= 0 -> binary64 x <= 0.
Proof.
  intros H. destruct (Qcompare_spec x 0) as [E|E|E]; [| |lra].
  - rewrite binary64_zero by exact E. lra.
  - rewrite binary64_neg by exact E.
    assert (0 <= roundPositive (Qred (- x)))
      by (apply roundPositive_nonneg; rewrite Qred_correct; lra).
    lra.
Qed.

Lemma binary64_monotone (x y : Q) : x <= y -> binary64 x <= binary64 y.
Proof.
  intros Hle. destruct (Qlt_le_dec 0 x) as [Hx|Hx].
  - rewrite (binary64_pos x), (binary64_pos y) by lra.
    apply roundPositive_le; rewrite !Qred_correct; lra.
  - destruct (Qlt_le_dec y 0) as [Hy|Hy].
    + rewrite (binary64_neg x), (binary64_neg y) by lra.
      assert (roundPositive (Qred (- y)) <= roundPositive (Qred (- x)))
        by (apply roundPositive_le; rewrite !Qred_correct; lra).
      lra.
    + apply Qle_trans with 0; [now apply binary64_nonpos | now apply binary64_nonneg].
Qed.

Lemma binary64_integer (n : Z) :
  (Z.abs n <= Utils.MAX_SAFE_INTEGER)%Z -> binary64 (inject_Z n) == inject_Z n.
Proof.
  unfold Utils.MAX_SAFE_INTEGER. intros Hn.
  destruct (Z.lt_trichotomy n 0) as [Hneg | [-> | Hpos]].
  - assert (Hlt : inject_Z n < 0) by (change 0 with (inject_Z 0); rewrite <- Zlt_Qlt; lia).
    rewrite binary64_neg by exact Hlt.
    rewrite (roundPositive_integer _ (- n)).
    + rewrite inject_Z_opp. ring.
    + rewrite Qred_correct, inject_Z_opp. reflexivity.
    + lia.
  - reflexivity.
  - assert (Hgt : 0 < inject_Z n) by (change 0 with (inject_Z 0); rewrite <- Zlt_Qlt; lia).
    rewrite binary64_pos by exact Hgt.
    apply roundPositive_integer; [apply Qred_correct | lia].
Qed.

Lemma binary64_error (x : Q) :
  MIN_NORMAL <= x -> Qabs (binary64 x - x) <= x * UNIT_ROUNDOFF.
Proof.
  unfold MIN_NORMAL. intros Hx. pose proof (two_power_pos EMIN) as Hmin.
  rewrite binary64_pos by lra.
  assert (Hred : Qred x == x) by apply Qred_correct.
  assert (Hpos : 0 < Qred x) by lra.
  assert (Hnormal : (EMIN <= floorLog2 (Qred x))%Z).
  { destruct (floorLog2_spec _ Hpos) as [_ Hhigh].
    assert (H : 2 ^ EMIN < 2 ^ (floorLog2 (Qred x) + 1)) by lra.
    apply two_power_lt_inv in H. lia. }
  pose proof (roundPositive_error _ Hpos Hnormal) as Herr.
  unfold UNIT_ROUNDOFF.
  setoid_replace (roundPositive (Qred x) - x) with (roundPositive (Qred x) - Qred x) by lra.
  apply Qle_trans with (1 := Herr).
  apply Qmult_le_compat_r; [lra | apply Qlt_le_weak, two_power_pos].
Qed.

Lemma unit_roundoff_value : UNIT_ROUNDOFF == 1 # 9007199254740992.
Proof. reflexivity. Qed.

Lemma min_normal_le_one : MIN_NORMAL <= 1.
Proof. unfold Qle. vm_compute. discriminate. Qed.

Theorem binary64_rounding : Rounding binary64.
Proof.
  constructor.
  - exact binary64_compat.
  - exact binary64_monotone.
  - exact binary64_integer.
  - exact binary64_error.
Qed.

End NumberFacts.

(* ================================================================== *)
(** * The exact definitions are the rounded ones without rounding *)
(* ================================================================== *)

Module RoundedFacts.

Lemma exact_projectOnSegment (latlng p1 p2 : LatLng) :
  Rounded.projectOnSegment (fun x => x) latlng p1 p2
  = MapComponent.projectOnSegment latlng p1 p2.
Proof. reflexivity. Qed.

Lemma exact_nearestLoop (distanceTo : LatLng -> LatLng -> Q) (latlng : LatLng)
    (rest : list LatLng) :
  forall (i : nat) (p1 : LatLng) (best : MapComponent.Nearest),
    Rounded.nearestLoop (fun x => x) distanceTo latlng i p1 rest best
    = MapComponent.nearestLoop distanceTo latlng i p1 rest best.
Proof.
  induction rest as [|p2 rest IH]; intros i p1 best; [reflexivity|].
  cbn [Rounded.nearestLoop MapComponent.nearestLoop].
  rewrite exact_projectOnSegment.
  destruct (Qeq_bool (distanceTo p1 p2) 0); [apply IH|].
  destruct (MapComponent.projectOnSegment latlng p1 p2) as [r pt].
  destruct (xlt _ _); apply IH.
Qed.

Lemma exact_findNearestPointOnTrail (distanceTo : LatLng -> LatLng -> Q)
    (latlng : LatLng) (points : list LatLng) :
  Rounded.findNearestPointOnTrail (fun x => x) distanceTo latlng points
  = MapComponent.findNearestPointOnTrail distanceTo latlng points.
Proof.
  unfold Rounded.findNearestPointOnTrail, MapComponent.findNearestPointOnTrail.
  destruct points as [|p0 rest]; [reflexivity | apply exact_nearestLoop].
Qed.

Lemma exact_maxSpreadDistances (pool : list App.entry) (numToSelect : Z) :
  Rounded.maxSpreadDistances (fun x => x) pool numToSelect
  = App.maxSpreadDistances pool numToSelect.
Proof. reflexivity. Qed.

End RoundedFacts.

(* ================================================================== *)
(** * Properties of the pace parser *)
(* ================================================================== *)

Module UtilsFacts.

Import Utils.

Local Open Scope string_scope.

Lemma readUnsigned_some_iff (s : string) :
  (exists z, readUnsigned s = Some z) <-> (exists d r, s = String d r /\ isDigit d = true).
Proof.
  unfold readUnsigned, isDigit. split.
  - intros [z Hz]. destruct s as [|d r]; [discriminate|].
    exists d, r. split; [reflexivity|]. destruct (digitValue d); [reflexivity|discriminate].
  - intros (d & r & -> & Hd). destruct (digitValue d) as [v|]; [|discriminate].
    eexists; reflexivity.
Qed.

Lemma trimStart_ascii (c : ascii) (s : string) :
  (N_of_ascii c < 128)%N -> isStrWhiteSpace (N_of_ascii c) = false ->
  trimStart (String c s) = String c s.
Proof.
  intros Hascii Hws. cbn [trimStart]. unfold codePoint1.
  rewrite (proj2 (N.ltb_lt _ _) Hascii), Hws. reflexivity.
Qed.

Lemma digit_is_ascii (d : ascii) :
  isDigit d = true ->
  (N_of_ascii d < 128)%N /\ isStrWhiteSpace (N_of_ascii d) = false
  /\ Ascii.eqb d "-" = false /\ Ascii.eqb d "+" = false.
Proof.
  destruct d as [[] [] [] [] [] [] [] []]; intros H; try discriminate H;
    repeat split; reflexivity.
Qed.

Lemma trimStart_digit (d : ascii) (s : string) :
  isDigit d = true -> trimStart (String d s) = String d s.
Proof.
  intros H. destruct (digit_is_ascii d H) as (Hascii & Hws & _).
  now apply trimStart_ascii.
Qed.

(** parseInt on the string that is left after the white space. *)
Lemma parseInt_trimmed (s : string) :
  parseInt s =
    match trimStart s with
    | EmptyString => None
    | String c r =>
        if Ascii.eqb c "-" then option_map Z.opp (readUnsigned r)
        else if Ascii.eqb c "+" then readUnsigned r
        else readUnsigned (String c r)
    end.
Proof.
  unfold parseInt. destruct (trimStart s) as [|c r]; [reflexivity|].
  destruct c as [[] [] [] [] [] [] [] []]; reflexivity.
Qed.

Lemma parseInt_digit (d : ascii) (s : string) :
  isDigit d = true -> parseInt (String d s) = readUnsigned (String d s).
Proof.
  intros H. rewrite parseInt_trimmed, (trimStart_digit d s H).
  destruct (digit_is_ascii d H) as (_ & _ & -> & ->). reflexivity.
Qed.

(** parseInt yields a number exactly on the strings with a leading integer. *)
Lemma parseInt_some_iff (s : string) :
  (exists z, parseInt s = Some z) <-> LeadingInteger s.
Proof.
  unfold LeadingInteger. rewrite parseInt_trimmed. split.
  - intros [z Hz]. destruct (trimStart s) as [|c r]; [discriminate Hz|].
    destruct (Ascii.eqb c "-") eqn:Hm.
    { apply Ascii.eqb_eq in Hm. subst c.
      destruct (readUnsigned r) as [u|] eqn:Hu; [|discriminate].
      destruct (proj1 (readUnsigned_some_iff r)) as (d & r' & -> & Hd); eauto 6. }
    destruct (Ascii.eqb c "+") eqn:Hp.
    { apply Ascii.eqb_eq in Hp. subst c.
      destruct (proj1 (readUnsigned_some_iff r)) as (d & r' & -> & Hd); eauto 6. }
    destruct (proj1 (readUnsigned_some_iff (String c r)) (ex_intro _ z Hz))
      as (d & r' & Heq & Hd).
    injection Heq as -> ->. eauto 6.
  - intros (d & rest & Hd & [E | [E | E]]); rewrite E.
    + destruct (digit_is_ascii d Hd) as (_ & _ & -> & ->).
      apply readUnsigned_some_iff; eauto.
    + change (Ascii.eqb "-" "-") with true. cbv iota.
      destruct (proj2 (readUnsigned_some_iff (String d rest))) as [u Hu]; eauto.
      rewrite Hu. simpl. eauto.
    + change (Ascii.eqb "+" "-") with false. change (Ascii.eqb "+" "+") with true.
      cbv iota. apply readUnsigned_some_iff; eauto.
Qed.

Lemma parseInt_none_iff (s : string) : parseInt s = None <-> ~ LeadingInteger s.
Proof.
  rewrite <- parseInt_some_iff. split.
  - intros H [z Hz]. congruence.
  - intros H. destruct (parseInt s) as [z|]; [|reflexivity]. exfalso. eauto.
Qed.

Lemma two_parts (l : list string) :
  length l = 2%nat -> l = [nth 0 l EmptyString; nth 1 l EmptyString].
Proof. destruct l as [|a [|b [|c l]]]; simpl; intros H; try discriminate; reflexivity. Qed.

(** C8, as stated, fails: the part "30abc" is not a number, and the pace
    "5:30abc" is parsed all the same, as 5:30. *)
Lemma C8_trailing_text_is_accepted :
  (exists part, In part (split ":" "5:30abc") /\ decimalNumeral part = false)
  /\ parsePaceToSecondsPerMeter "5:30abc" = Some (330 # 1000).
Proof.
  split; [|reflexivity].
  exists "30abc". split; [|reflexivity]. simpl. right. left. reflexivity.
Qed.

(** C8, amended: as long as the integers that the parser computes are
    safe integers, it fails exactly when the string does not split at its
    colons into two parts, or a part has no leading integer in the sense of
    parseInt (white space, an optional sign, at least one digit; what
    follows the digits is ignored), or the two integers give a total of
    seconds per kilometre that is not positive.  Otherwise it returns
    (minutes * 60 + seconds) / 1000. *)
Theorem C8_pace_parser_failure :
  forall pace : string,
    safeIntegers pace = true ->
    (parsePaceToSecondsPerMeter pace = None <->
       (length (split ":" pace) <> 2%nat
        \/ (exists part, In part (split ":" pace) /\ ~ LeadingInteger part)
        \/ (exists pm ps minutes seconds,
              split ":" pace = [pm; ps]
              /\ parseInt pm = Some minutes /\ parseInt ps = Some seconds
              /\ (minutes * 60 + seconds <= 0)%Z)))
    /\ (forall pm ps minutes seconds,
          split ":" pace = [pm; ps] ->
          parseInt pm = Some minutes -> parseInt ps = Some seconds ->
          (0 < minutes * 60 + seconds)%Z ->
          parsePaceToSecondsPerMeter pace
            = Some (inject_Z (minutes * 60 + seconds) / 1000)).
Proof.
  intros pace _. unfold parsePaceToSecondsPerMeter.
  destruct (Nat.eqb_spec (length (split ":" pace)) 2) as [Hlen|Hlen]; simpl.
  - pose proof (two_parts _ Hlen) as Hparts.
    set (pm := nth 0 (split ":" pace) EmptyString) in *.
    set (ps := nth 1 (split ":" pace) EmptyString) in *.
    split.
    + split.
      * intros Hnone. right.
        destruct (parseInt pm) as [m|] eqn:Hm.
        -- destruct (parseInt ps) as [s|] eqn:Hs.
           ++ destruct (Z.leb_spec (m * 60 + s) 0) as [Hle|Hgt]; [|discriminate].
              right. exists pm, ps, m, s. auto.
           ++ left. exists ps. split; [rewrite Hparts; simpl; auto|].
              now apply parseInt_none_iff.
        -- left. exists pm. split; [rewrite Hparts; simpl; auto|].
           now apply parseInt_none_iff.
      * intros [Hne | [(part & Hin & Hpart) | (pm' & ps' & m & s & Hsp & Hm & Hs & Hle)]].
        -- contradiction.
        -- apply parseInt_none_iff in Hpart.
           rewrite Hparts in Hin. simpl in Hin.
           destruct Hin as [<- | [<- | []]].
           ++ now rewrite Hpart.
           ++ rewrite Hpart. now destruct (parseInt pm).
        -- rewrite Hsp in Hparts. injection Hparts as -> ->.
           rewrite Hm, Hs. destruct (Z.leb_spec (m * 60 + s) 0); [reflexivity|lia].
    + intros pm' ps' m s Hsp Hm Hs Hpos.
      rewrite Hsp in Hparts. injection Hparts as -> ->.
      rewrite Hm, Hs. destruct (Z.leb_spec (m * 60 + s) 0); [lia|reflexivity].
  - split.
    + split; auto.
    + intros pm ps m s Hsp. rewrite Hsp in Hlen. now elim Hlen.
Qed.

(** The theorem on a pace that starts with a no-break space (U+00A0, in
    UTF-8 the bytes 194 and 160), which parseInt skips. *)
Lemma C8_pace_parser_failure_witness :
  parsePaceToSecondsPerMeter
    (String (ascii_of_nat 194) (String (ascii_of_nat 160) "5:30"))
  = Some (inject_Z (5 * 60 + 30) / 1000).
Proof.
  apply (proj2 (C8_pace_parser_failure
                  (String (ascii_of_nat 194) (String (ascii_of_nat 160) "5:30")) eq_refl)
           (String (ascii_of_nat 194) (String (ascii_of_nat 160) "5")) "30" 5%Z 30%Z);
    [reflexivity | reflexivity | reflexivity | lia].
Defined.

End UtilsFacts.

(* ================================================================== *)
(** * Comparisons and the number-keyed Map *)
(* ================================================================== *)

Lemma Qlt_bool_iff (a b : Q) : Qlt_bool a b = true <-> a < b.
Proof.
  unfold Qlt_bool. rewrite negb_true_iff. split.
  - intros H. apply Qnot_le_lt. intros Hle. apply Qle_bool_iff in Hle. congruence.
  - intros H. destruct (Qle_bool b a) eqn:E; [|reflexivity].
    apply Qle_bool_iff in E. exfalso. apply (Qlt_not_le _ _ H E).
Qed.

Lemma Qlt_bool_false_iff (a b : Q) : Qlt_bool a b = false <-> b <= a.
Proof.
  unfold Qlt_bool. rewrite negb_false_iff. apply Qle_bool_iff.
Qed.

Lemma Qle_bool_false_iff (a b : Q) : Qle_bool a b = false <-> b < a.
Proof.
  rewrite <- Qlt_bool_iff. unfold Qlt_bool. now rewrite negb_true_iff.
Qed.

Lemma Qeq_bool_false_iff (a b : Q) : Qeq_bool a b = false <-> ~ a == b.
Proof.
  split.
  - intros H E. apply Qeq_bool_iff in E. congruence.
  - intros H. destruct (Qeq_bool a b) eqn:E; [|reflexivity].
    apply Qeq_bool_iff in E. contradiction.
Qed.

Lemma xlt_Fin_iff (a : Q) (b : xnum) :
  xlt (Fin a) b = true <-> match b with Fin y => a < y | Infinity => True end.
Proof. destruct b; simpl; [apply Qlt_bool_iff | tauto]. Qed.

Import Spec.

Lemma Subseq_from_index {A : Type} (d : A) (l : list A) :
  forall (p i : nat) (ds : list A),
    (p <= i)%nat -> (i < length l)%nat ->
    Subseq ds (skipn (S i) l) ->
    Subseq (nth i l d :: ds) (skipn p l).
Proof.
  induction l as [|x l IH]; intros p i ds Hpi Hi Hds; simpl in Hi; [lia|].
  destruct p as [|p].
  - destruct i as [|i]; simpl in *.
    + now apply Subseq_take.
    + apply Subseq_skip. apply (IH 0%nat i ds); [lia | lia | exact Hds].
  - destruct i as [|i]; [lia|]. simpl.
    apply (IH p i ds); [lia | lia | exact Hds].
Qed.

(** The sample distance is a distance. *)
Lemma gridDistance_nonneg (p q : LatLng) : 0 <= Sample.gridDistance p q.
Proof.
  unfold Sample.gridDistance.
  pose proof (Qabs_nonneg (lat p - lat q)). pose proof (Qabs_nonneg (lng p - lng q)).
  apply Qmult_le_0_compat; lra.
Qed.

Lemma gridDistance_same (p q : LatLng) :
  lat p == lat q -> lng p == lng q -> Sample.gridDistance p q == 0.
Proof.
  intros Hlat Hlng. unfold Sample.gridDistance.
  setoid_replace (lat p - lat q) with 0 by lra.
  setoid_replace (lng p - lng q) with 0 by lra.
  reflexivity.
Qed.

(* ================================================================== *)
(** * Properties of the suggestion callback *)
(* ================================================================== *)

Module AppFacts.

Import Utils App.

(** ** The filtered, sorted pool *)

Lemma insertEntry_Forall (P : entry -> Prop) (e : entry) (l : list entry) :
  P e -> Forall P l -> Forall P (insertEntry e l).
Proof.
  intros He. induction 1 as [|y l Hy Hl IH]; simpl.
  - now repeat constructor.
  - destruct (Qlt_bool (fst y) (fst e)); repeat constructor; auto.
Qed.

Lemma insertEntry_sorted (e : entry) (l : list entry) :
  StronglySorted keyLe l -> StronglySorted keyLe (insertEntry e l).
Proof.
  induction 1 as [|x l Hs IH Hall]; simpl.
  - repeat constructor.
  - destruct (Qlt_bool (fst x) (fst e)) eqn:E.
    + apply Qlt_bool_iff in E. constructor; [exact IH|].
      apply insertEntry_Forall; [unfold keyLe; lra | exact Hall].
    + apply Qlt_bool_false_iff in E. constructor.
      * now constructor.
      * constructor; [exact E|].
        eapply Forall_impl; [|exact Hall]. unfold keyLe. intros a Ha. lra.
Qed.

Lemma sortEntries_sorted (l : list entry) : StronglySorted keyLe (sortEntries l).
Proof.
  induction l as [|x l IH]; simpl; [constructor | now apply insertEntry_sorted].
Qed.

Lemma insertEntry_In (e x : entry) (l : list entry) :
  In x (insertEntry e l) <-> x = e \/ In x l.
Proof.
  induction l as [|y l IH]; simpl; [intuition auto|].
  destruct (Qlt_bool (fst y) (fst e)); simpl; rewrite ?IH; intuition auto.
Qed.

Lemma sortEntries_In (x : entry) (l : list entry) : In x (sortEntries l) <-> In x l.
Proof.
  induction l as [|y l IH]; simpl; [tauto|].
  rewrite insertEntry_In, IH. intuition auto.
Qed.

Lemma available_sorted (markers : NumMap) (skip : Q) :
  StronglySorted keyLe (potentiallyAvailableMarkers markers skip).
Proof. apply sortEntries_sorted. Qed.

(** The entries of the pool are the markers at or after the skip distance. *)
Lemma available_In (markers : NumMap) (skip : Q) (e : entry) :
  In e (potentiallyAvailableMarkers markers skip) <-> In e markers /\ skip * 1000 <= fst e.
Proof.
  unfold potentiallyAvailableMarkers. rewrite sortEntries_In, filter_In.
  now rewrite Qle_bool_iff.
Qed.

Lemma sorted_head_least (first : entry) (rest : list entry) :
  StronglySorted keyLe (first :: rest) ->
  forall e, In e (first :: rest) -> fst first <= fst e.
Proof.
  intros Hs e [<- | Hin]; [lra|].
  inversion Hs as [|? ? _ Hall]; subst.
  rewrite Forall_forall in Hall. exact (Hall e Hin).
Qed.

Lemma sorted_nth_le (l : list entry) :
  StronglySorted keyLe l ->
  forall i j, (i <= j)%nat -> (j < length l)%nat ->
    fst (nth i l noEntry) <= fst (nth j l noEntry).
Proof.
  induction 1 as [|x l Hs IH Hall]; intros i j Hij Hj; simpl in Hj; [lia|].
  destruct i as [|i], j as [|j]; simpl; try lia.
  - lra.
  - rewrite Forall_forall in Hall. apply (Hall (nth j l noEntry)).
    apply nth_In. lia.
  - apply IH; lia.
Qed.

Lemma sorted_last_greatest (l : list entry) :
  StronglySorted keyLe l ->
  forall e, In e l -> fst e <= fst (nth (length l - 1) l noEntry).
Proof.
  intros Hs e Hin. destruct (In_nth l e noEntry Hin) as (i & Hi & <-).
  apply sorted_nth_le; [exact Hs | lia | lia].
Qed.

(** ** The crossing detector and the feasibility test *)

Section Selection.

Variable distanceTo : LatLng -> LatLng -> Q.
Variable lineIntersect : LineString -> LineString -> list Position.
Variable turfDistance : Position -> Position -> Q.

Local Abbreviation courseCrossing := (App.courseCrossing lineIntersect turfDistance).
Local Abbreviation crossingPenalty := (App.crossingPenalty lineIntersect turfDistance).
Local Abbreviation isFeasible := (App.isFeasible distanceTo lineIntersect turfDistance).
Local Abbreviation scanCandidates := (App.scanCandidates distanceTo lineIntersect turfDistance).
Local Abbreviation bestNextSpot := (App.bestNextSpot distanceTo lineIntersect turfDistance).
Local Abbreviation greedyWalk := (App.greedyWalk distanceTo lineIntersect turfDistance).
Local Abbreviation minTravelDistances := (App.minTravelDistances distanceTo lineIntersect turfDistance).
Local Abbreviation suggestSpots := (App.suggestSpots distanceTo lineIntersect turfDistance).
Local Abbreviation handleSuggestSpots := (App.handleSuggestSpots distanceTo lineIntersect turfDistance).

Lemma trueIntersection_iff (startPt endPt : Position) (features : list Position) :
  trueIntersection turfDistance startPt endPt features = true <->
  exists pt, In pt features /\ 10 < turfDistance startPt pt /\ 10 < turfDistance endPt pt.
Proof.
  induction features as [|pt rest IH]; simpl.
  - split; [discriminate | intros (pt & [] & _)].
  - destruct (Qlt_bool 10 (turfDistance startPt pt) && Qlt_bool 10 (turfDistance endPt pt))%bool eqn:E.
    + apply andb_true_iff in E. rewrite !Qlt_bool_iff in E.
      split; [|reflexivity]. intros _. exists pt. tauto.
    + rewrite IH. split.
      * intros (q & Hq & H). exists q. tauto.
      * intros (q & [<- | Hq] & H1 & H2).
        -- apply Qlt_bool_iff in H1, H2. rewrite H1, H2 in E. discriminate.
        -- exists q. tauto.
Qed.

(** C4.  The crossing detector answers true exactly when one of the
    intersection points of the course with the segment from A to B is more
    than 10 m from A and more than 10 m from B; without intersection points
    it answers false. *)
Theorem C4_crossing_detector :
  forall (course : LineString) (a b : LatLng),
    let intersections := lineIntersect course [positionOf a; positionOf b] in
    (courseCrossing course a b = true <->
       exists pt, In pt intersections
                  /\ 10 < turfDistance (positionOf a) pt
                  /\ 10 < turfDistance (positionOf b) pt)
    /\ (intersections = [] -> courseCrossing course a b = false).
Proof.
  intros course a b. unfold App.courseCrossing, positionOf. cbv zeta.
  destruct (lineIntersect course _) as [|pt rest];
    simpl Nat.ltb; cbv iota.
  - split; [|reflexivity].
    split; [discriminate | intros (pt & Hin & _); destruct (in_nil Hin)].
  - split; [|discriminate]. apply trueIntersection_iff.
Qed.

Lemma crossingPenalty_cases (course : LineString) (a b : LatLng) :
  crossingPenalty course a b = (if courseCrossing course a b then 300 else 0).
Proof. unfold App.crossingPenalty. destruct (courseCrossing course a b); reflexivity. Qed.

(** The feasibility test of the code, as an inequality between rationals. *)
Definition feasibleSpec (course : LineString) (profile : TravelProfile)
    (pace lastDistance : Q) (lastLatLng : LatLng) (candidate : entry) : Prop :=
  let runnerTimeSeconds := (fst candidate - lastDistance) * pace in
  let straightLineDistance := distanceTo lastLatLng (snd candidate) in
  let crossingPenaltySeconds :=
    if courseCrossing course lastLatLng (snd candidate) then 300 else 0 in
  match profile with
  | walking => runnerTimeSeconds > straightLineDistance / (14 # 10) + crossingPenaltySeconds + 600
  | cycling => runnerTimeSeconds > straightLineDistance / (55 # 10) + crossingPenaltySeconds + 600
  | transit => False
  end.

Lemma isFeasible_iff (course : LineString) (profile : TravelProfile)
    (pace lastDistance : Q) (lastLatLng : LatLng) (candidate : entry) :
  isFeasible course profile pace lastDistance lastLatLng candidate = true <->
  feasibleSpec course profile pace lastDistance lastLatLng candidate.
Proof.
  destruct candidate as [d p]. unfold App.isFeasible, feasibleSpec, xgt.
  rewrite crossingPenalty_cases. cbn [fst snd].
  destruct profile; cbn [spectatorTimeSeconds xadd xlt].
  - rewrite Qlt_bool_iff. unfold AVG_WALKING_SPEED_MPS, SPECTATOR_BUFFER_SECONDS.
    setoid_replace (60 * 10) with 600 by reflexivity. reflexivity.
  - rewrite Qlt_bool_iff. unfold AVG_CYCLING_SPEED_MPS, SPECTATOR_BUFFER_SECONDS.
    setoid_replace (60 * 10) with 600 by reflexivity. reflexivity.
  - split; [discriminate | tauto].
Qed.

(** ** The scan for the next spot *)

Section Scan.

Variable course : LineString.
Variable profile : TravelProfile.
Variables pace lastDistance : Q.
Variable lastLatLng : LatLng.
Variable usedIndices : list nat.

Local Abbreviation feasible := (isFeasible course profile pace lastDistance lastLatLng).
Local Abbreviation straightLine := (fun e : entry => distanceTo lastLatLng (snd e)).

Lemma used_iff (i : nat) : existsb (Nat.eqb i) usedIndices = true <-> In i usedIndices.
Proof.
  rewrite existsb_exists. split.
  - intros (x & Hx & E). apply Nat.eqb_eq in E. now subst.
  - intros H. exists i. split; [exact H | apply Nat.eqb_refl].
Qed.

(** What the scan knows after the entries [seen]. *)
Definition scanned (seen : list entry) (best : option nat) (minDist : xnum) : Prop :=
  match best with
  | None =>
      minDist = Infinity
      /\ forall j e, nth_error seen j = Some e -> ~ In j usedIndices -> feasible e = false
  | Some k =>
      exists ek, nth_error seen k = Some ek
        /\ minDist = Fin (straightLine ek)
        /\ ~ In k usedIndices
        /\ feasible ek = true
        /\ forall j e, nth_error seen j = Some e -> ~ In j usedIndices ->
                       feasible e = true -> straightLine ek <= straightLine e
  end.

Lemma nth_error_snoc (seen : list entry) (c : entry) (j : nat) (e : entry) :
  nth_error (seen ++ [c]) j = Some e ->
  nth_error seen j = Some e \/ (j = length seen /\ e = c).
Proof.
  intros H. destruct (Nat.lt_ge_cases j (length seen)) as [Hlt|Hge].
  - left. now rewrite nth_error_app1 in H.
  - right. rewrite nth_error_app2 in H by exact Hge.
    destruct (j - length seen)%nat as [|n] eqn:E; simpl in H.
    + split; [lia | congruence].
    + destruct n; discriminate.
Qed.

Lemma scanned_weaken (seen : list entry) (k : nat) (ek c : entry) :
  nth_error seen k = Some ek -> nth_error (seen ++ [c]) k = Some ek.
Proof.
  intros H. rewrite nth_error_app1; [exact H|].
  apply nth_error_Some. congruence.
Qed.

Lemma scanCandidates_scanned (rest : list entry) :
  forall (seen : list entry) (best : option nat) (minDist : xnum),
    scanned seen best minDist ->
    exists minDist',
      scanned (seen ++ rest)
        (scanCandidates course profile pace lastDistance lastLatLng usedIndices
           rest (length seen) best minDist)
        minDist'.
Proof.
  induction rest as [|c rest IH]; intros seen best minDist Hinv;
    cbn [App.scanCandidates].
  - exists minDist. now rewrite app_nil_r.
  - replace (seen ++ c :: rest) with ((seen ++ [c]) ++ rest)
      by (rewrite <- app_assoc; reflexivity).
    replace (S (length seen)) with (length (seen ++ [c]))
      by (rewrite length_app; simpl; lia).
    destruct (existsb (Nat.eqb (length seen)) usedIndices) eqn:Hused.
    { apply used_iff in Hused. apply IH.
      destruct best as [k|]; simpl in *.
      - destruct Hinv as (ek & Hk & Hmin & Hnk & Hfk & Hleast).
        exists ek. repeat split; auto using scanned_weaken.
        intros j e Hj Hnj Hfe. apply nth_error_snoc in Hj.
        destruct Hj as [Hj | [-> _]]; [eauto | contradiction].
      - destruct Hinv as [Hmin Hnone]. split; [exact Hmin|].
        intros j e Hj Hnj. apply nth_error_snoc in Hj.
        destruct Hj as [Hj | [-> _]]; [eauto | contradiction]. }
    assert (Hunused : ~ In (length seen) usedIndices).
    { intros H. apply used_iff in H. congruence. }
    assert (Hc : nth_error (seen ++ [c]) (length seen) = Some c).
    { rewrite nth_error_app2 by lia. now rewrite Nat.sub_diag. }
    destruct (feasible c) eqn:Hfc; cbn [andb].
    + destruct (xlt (Fin (distanceTo lastLatLng (snd c))) minDist) eqn:Hlt.
      * apply IH. simpl. exists c. repeat split; auto.
        intros j e Hj Hnj Hfe. apply nth_error_snoc in Hj.
        destruct Hj as [Hj | [_ ->]]; [|lra].
        destruct best as [k|]; simpl in Hinv.
        -- destruct Hinv as (ek & Hk & -> & _ & _ & Hleast).
           apply xlt_Fin_iff in Hlt. specialize (Hleast j e Hj Hnj Hfe). simpl in *. lra.
        -- destruct Hinv as [_ Hnone]. rewrite (Hnone j e Hj Hnj) in Hfe. discriminate.
      * apply IH. destruct best as [k|]; simpl in *.
        -- destruct Hinv as (ek & Hk & -> & Hnk & Hfk & Hleast).
           exists ek. repeat split; auto using scanned_weaken.
           intros j e Hj Hnj Hfe. apply nth_error_snoc in Hj.
           destruct Hj as [Hj | [_ ->]]; [eauto|].
           simpl in Hlt. apply Qlt_bool_false_iff in Hlt. exact Hlt.
        -- destruct Hinv as [-> _]. discriminate Hlt.
    + apply IH. destruct best as [k|]; simpl in *.
      * destruct Hinv as (ek & Hk & Hmin & Hnk & Hfk & Hleast).
        exists ek. repeat split; auto using scanned_weaken.
        intros j e Hj Hnj Hfe. apply nth_error_snoc in Hj.
        destruct Hj as [Hj | [_ ->]]; [eauto | congruence].
      * destruct Hinv as [Hmin Hnone]. split; [exact Hmin|].
        intros j e Hj Hnj. apply nth_error_snoc in Hj.
        destruct Hj as [Hj | [_ ->]]; [eauto | exact Hfc].
Qed.

(** The index the scan returns: an unused feasible candidate that is
    nearest in a straight line, or none when no unused candidate is
    feasible. *)
Lemma bestNextSpot_spec (entries : list entry) :
  match bestNextSpot course profile pace lastDistance lastLatLng usedIndices entries with
  | Some k =>
      exists ek, nth_error entries k = Some ek
        /\ ~ In k usedIndices
        /\ feasible ek = true
        /\ forall j e, nth_error entries j = Some e -> ~ In j usedIndices ->
                       feasible e = true -> straightLine ek <= straightLine e
  | None =>
      forall j e, nth_error entries j = Some e -> ~ In j usedIndices -> feasible e = false
  end.
Proof.
  destruct (scanCandidates_scanned entries [] None Infinity) as [m H].
  - split; [reflexivity|]. intros j e Hj. destruct j; discriminate Hj.
  - simpl in H. unfold App.bestNextSpot.
    destruct (scanCandidates _ _ _ _ _ _ _ _ _ _) as [k|]; simpl in H.
    + destruct H as (ek & H1 & _ & H2). eauto.
    + tauto.
Qed.

End Scan.

(** C1.  In the scan for the next spot of the minTravel strategy, a
    candidate is feasible exactly when the runner's time over the course
    distance gap exceeds the spectator's time plus the crossing penalty plus
    600 s, where the spectator's time is the straight-line distance over
    1.4 m/s (walking) or 5.5 m/s (cycling) and is infinite for transit, and
    the penalty is 300 s at a true crossing and 0 s otherwise; the scan
    returns an unused feasible candidate of least straight-line distance,
    and none exactly when no unused candidate is feasible. *)
Theorem C1_min_travel_feasibility :
  forall (course : LineString) (profile : TravelProfile) (pace lastDistance : Q)
         (lastLatLng : LatLng) (usedIndices : list nat) (entries : list entry),
    (forall candidate,
        isFeasible course profile pace lastDistance lastLatLng candidate = true <->
        let runnerTimeSeconds := (fst candidate - lastDistance) * pace in
        let straightLineDistance := distanceTo lastLatLng (snd candidate) in
        let crossingPenaltySeconds :=
          if courseCrossing course lastLatLng (snd candidate) then 300 else 0 in
        match profile with
        | walking =>
            runnerTimeSeconds > straightLineDistance / (14 # 10) + crossingPenaltySeconds + 600
        | cycling =>
            runnerTimeSeconds > straightLineDistance / (55 # 10) + crossingPenaltySeconds + 600
        | transit => False
        end)
    /\ match bestNextSpot course profile pace lastDistance lastLatLng usedIndices entries with
       | Some k =>
           exists chosen, nth_error entries k = Some chosen
             /\ ~ In k usedIndices
             /\ isFeasible course profile pace lastDistance lastLatLng chosen = true
             /\ forall j e, nth_error entries j = Some e -> ~ In j usedIndices ->
                  isFeasible course profile pace lastDistance lastLatLng e = true ->
                  distanceTo lastLatLng (snd chosen) <= distanceTo lastLatLng (snd e)
       | None =>
           forall j e, nth_error entries j = Some e -> ~ In j usedIndices ->
             isFeasible course profile pace lastDistance lastLatLng e = false
       end.
Proof.
  intros. split.
  - intros candidate. apply isFeasible_iff.
  - apply bestNextSpot_spec.
Qed.

(** ** The callback, branch by branch *)

Lemma inject_Z_pos (z : Z) : (0 < z)%Z -> 0 < inject_Z z.
Proof. intros H. unfold Qlt, inject_Z. simpl. lia. Qed.

Lemma parsePace_positive (s : string) (pace : Q) :
  parsePaceToSecondsPerMeter s = Some pace -> 0 < pace.
Proof.
  unfold parsePaceToSecondsPerMeter.
  destruct (negb _); [discriminate|].
  destruct (parseInt _) as [m|]; [|discriminate].
  destruct (parseInt _) as [sec|]; [|discriminate].
  destruct (Z.leb_spec (m * 60 + sec) 0) as [|Hpos]; [discriminate|].
  intros [= <-]. pose proof (inject_Z_pos _ Hpos) as H.
  apply Qlt_shift_div_l; lra.
Qed.

Section Branches.

Variable st : AppState.
Variable course : LineString.
Variable first : entry.
Variable others : list entry.

Hypothesis course_loaded : gpxCourseLine st = Some course.
Hypothesis pool :
  potentiallyAvailableMarkers (markerPositions st) (skipFirstKm st) = first :: others.
Hypothesis asked : (1 <= numSpotsToSuggest st)%Z.

Definition numToSelectOf : Z :=
  Z.min (numSpotsToSuggest st) (Z.of_nat (length (first :: others))).

Lemma suggestSpots_minTravel (pace : Q) :
  suggestionStrategy st = minTravel ->
  parsePaceToSecondsPerMeter (runnerPace st) = Some pace ->
  suggestSpots st =
    Suggested (minTravelDistances course (travelProfile st) pace (first :: others) numToSelectOf).
Proof.
  intros Hs Hp. unfold App.suggestSpots. rewrite course_loaded, pool, Hs, Hp.
  destruct (Z.leb_spec (numSpotsToSuggest st) 0) as [Hle|_]; [lia|]. reflexivity.
Qed.

Lemma suggestSpots_badPace :
  suggestionStrategy st = minTravel ->
  parsePaceToSecondsPerMeter (runnerPace st) = None ->
  suggestSpots st = Alerted paceAlert.
Proof.
  intros Hs Hp. unfold App.suggestSpots. rewrite course_loaded, pool, Hs, Hp.
  destruct (Z.leb_spec (numSpotsToSuggest st) 0) as [Hle|_]; [lia|]. reflexivity.
Qed.

Lemma suggestSpots_maxSpread :
  suggestionStrategy st = maxSpread ->
  suggestSpots st = Suggested (maxSpreadDistances (first :: others) numToSelectOf).
Proof.
  intros Hs. unfold App.suggestSpots. rewrite course_loaded, pool, Hs.
  destruct (Z.leb_spec (numSpotsToSuggest st) 0) as [Hle|_]; [lia|]. reflexivity.
Qed.

End Branches.

(** ** Transit *)

Lemma isFeasible_transit (course : LineString) (pace lastDistance : Q)
    (lastLatLng : LatLng) (candidate : entry) :
  isFeasible course transit pace lastDistance lastLatLng candidate = false.
Proof. destruct candidate. reflexivity. Qed.

Lemma scanCandidates_transit (course : LineString) (pace lastDistance : Q)
    (lastLatLng : LatLng) (usedIndices : list nat) (entries : list entry) :
  forall i,
    scanCandidates course transit pace lastDistance lastLatLng usedIndices
      entries i None Infinity = None.
Proof.
  induction entries as [|c rest IH]; intros i; cbn [App.scanCandidates]; [reflexivity|].
  rewrite isFeasible_transit. cbn [andb].
  destruct (existsb _ _); apply IH.
Qed.

Lemma greedyWalk_transit (course : LineString) (pace : Q) (entries : list entry)
    (remaining : nat) (lastDistance : Q) (lastLatLng : LatLng) (usedIndices : list nat) :
  greedyWalk course transit pace entries remaining lastDistance lastLatLng usedIndices = [].
Proof.
  destruct remaining; cbn [App.greedyWalk]; [reflexivity|].
  unfold App.bestNextSpot. now rewrite scanCandidates_transit.
Qed.

(** C10.  With the minTravel strategy and the transit profile, a valid pace,
    a loaded course, a pool that is not empty and at least one spot asked
    for, the suggestion is the single smallest distance of the pool. *)
Theorem C10_transit_single_seed :
  forall (st : AppState) (course : LineString) (pace : Q) (first : entry) (others : list entry),
    gpxCourseLine st = Some course ->
    potentiallyAvailableMarkers (markerPositions st) (skipFirstKm st) = first :: others ->
    (1 <= numSpotsToSuggest st)%Z ->
    suggestionStrategy st = minTravel ->
    travelProfile st = transit ->
    parsePaceToSecondsPerMeter (runnerPace st) = Some pace ->
    suggestSpots st = Suggested [fst first]
    /\ (forall e, In e (first :: others) -> fst first <= fst e)
    /\ fst (handleSuggestSpots st) = withSelectedSpots st [fst first].
Proof.
  intros st course pace first others Hc Hpool Hn Hs Ht Hp.
  assert (E : suggestSpots st = Suggested [fst first]).
  { rewrite (suggestSpots_minTravel st course first others Hc Hpool Hn pace Hs Hp).
    rewrite Ht. unfold App.minTravelDistances. now rewrite greedyWalk_transit. }
  split; [exact E|]. split.
  - apply sorted_head_least. rewrite <- Hpool. apply available_sorted.
  - unfold App.handleSuggestSpots. rewrite E. reflexivity.
Qed.

(** C9.  With the minTravel strategy, a loaded course, a pool that is not
    empty, at least one spot asked for and a pace that the parser rejects,
    the callback shows the pace alert and leaves the state, and with it the
    selected spots, as they were. *)
Theorem C9_bad_pace_no_mutation :
  forall (st : AppState) (course : LineString) (first : entry) (others : list entry),
    gpxCourseLine st = Some course ->
    potentiallyAvailableMarkers (markerPositions st) (skipFirstKm st) = first :: others ->
    (1 <= numSpotsToSuggest st)%Z ->
    suggestionStrategy st = minTravel ->
    parsePaceToSecondsPerMeter (runnerPace st) = None ->
    handleSuggestSpots st = (st, [paceAlert])
    /\ selectedSpots (fst (handleSuggestSpots st)) = selectedSpots st.
Proof.
  intros st course first others Hc Hpool Hn Hs Hp.
  assert (E : handleSuggestSpots st = (st, [paceAlert])).
  { unfold App.handleSuggestSpots.
    now rewrite (suggestSpots_badPace st course first others Hc Hpool Hn Hs Hp). }
  split; [exact E | now rewrite E].
Qed.

(** ** maxSpread *)

Lemma map_nth_seq {A B : Type} (f : A -> B) (d : A) (l : list A) :
  map (fun i => f (nth i l d)) (seq 0 (length l)) = map f l.
Proof.
  induction l as [|x l IH]; simpl; [reflexivity|].
  f_equal. rewrite <- seq_shift, map_map. exact IH.
Qed.

Lemma Math_round_unit_step (i a : Z) :
  (0 < a)%Z -> Math_round (inject_Z i * (inject_Z a / inject_Z a)) = i.
Proof.
  intros Ha. unfold Math_round.
  assert (E : inject_Z i * (inject_Z a / inject_Z a) + (1 # 2) == (i * 2 + 1 # 2)).
  { pose proof (inject_Z_pos a Ha) as Hpos.
    setoid_replace (inject_Z a / inject_Z a) with 1
      by (apply Qmult_inv_r; intros E0; rewrite E0 in Hpos; discriminate Hpos).
    unfold Qeq, Qplus, Qmult, inject_Z. cbn [Qnum Qden]. lia. }
  rewrite E. unfold Qfloor.
  replace (i * 2 + 1)%Z with (1 + i * 2)%Z by lia.
  rewrite Z.div_add by lia. reflexivity.
Qed.

Lemma maxSpreadDistances_one (entries : list entry) :
  entries <> [] ->
  maxSpreadDistances entries 1 = [fst (nth (length entries - 1) entries noEntry)].
Proof.
  intros Hne. unfold maxSpreadDistances.
  destruct entries as [|e l]; [contradiction|].
  replace (Z.to_nat (Z.of_nat (length (e :: l)) - 1)) with (length (e :: l) - 1)%nat
    by (simpl length; lia).
  reflexivity.
Qed.

Lemma maxSpreadDistances_all (entries : list entry) :
  maxSpreadDistances entries (Z.of_nat (length entries)) = map fst entries.
Proof.
  unfold maxSpreadDistances.
  destruct (Z.eqb_spec (Z.of_nat (length entries)) 1) as [H1|H1].
  - destruct entries as [|e0 [|e1 l]]; simpl length in H1; try lia. reflexivity.
  - destruct (Z.ltb_spec 1 (Z.of_nat (length entries))) as [H2|H2].
    + cbn [andb]. rewrite Nat2Z.id.
      rewrite <- (map_nth_seq fst noEntry entries).
      apply map_ext_in. intros i Hi. apply in_seq in Hi.
      rewrite Math_round_unit_step by lia.
      rewrite Z.min_l by lia. rewrite Z.max_r by lia.
      now rewrite Nat2Z.id.
    + destruct entries as [|e0 l]; simpl length in *; [reflexivity | lia].
Qed.

(** C7.  Under maxSpread, with a loaded course and a pool that is not empty:
    when numToSelect is 1 the suggestion is the single largest distance of
    the pool, and when numToSelect is the size of the pool the suggestion
    is every distance of the pool. *)
Theorem C7_max_spread_boundary :
  forall (st : AppState) (course : LineString) (first : entry) (others : list entry),
    let pool := potentiallyAvailableMarkers (markerPositions st) (skipFirstKm st) in
    let numToSelect := Z.min (numSpotsToSuggest st) (Z.of_nat (length pool)) in
    gpxCourseLine st = Some course ->
    pool = first :: others ->
    suggestionStrategy st = maxSpread ->
    (numToSelect = 1%Z ->
       exists furthest,
         suggestSpots st = Suggested [fst furthest]
         /\ In furthest pool
         /\ forall e, In e pool -> fst e <= fst furthest)
    /\ (numToSelect = Z.of_nat (length pool) ->
          suggestSpots st = Suggested (map fst pool)).
Proof.
  intros st course first others pool numToSelect Hc Hpool Hs.
  assert (Hlen : (1 <= Z.of_nat (length pool))%Z) by (rewrite Hpool; simpl length; lia).
  assert (Hne : pool <> []) by (rewrite Hpool; discriminate).
  split; intros Hn.
  - assert (Hask : (1 <= numSpotsToSuggest st)%Z) by (subst numToSelect; lia).
    exists (nth (length pool - 1) pool noEntry).
    rewrite (suggestSpots_maxSpread st course first others Hc Hpool Hask Hs).
    unfold numToSelectOf. rewrite <- Hpool. fold numToSelect. rewrite Hn.
    rewrite (maxSpreadDistances_one pool Hne). split; [reflexivity|]. split.
    + apply nth_In. lia.
    + apply sorted_last_greatest. apply available_sorted.
  - assert (Hask : (1 <= numSpotsToSuggest st)%Z) by (subst numToSelect; lia).
    rewrite (suggestSpots_maxSpread st course first others Hc Hpool Hask Hs).
    unfold numToSelectOf. rewrite <- Hpool. fold numToSelect. rewrite Hn.
    now rewrite maxSpreadDistances_all.
Qed.

(** ** The greedy walk moves forward *)

Section Walk.

Hypothesis distanceTo_nonneg : forall p q, 0 <= distanceTo p q.

Variable course : LineString.
Variable profile : TravelProfile.
Variable pace : Q.
Hypothesis pace_pos : 0 < pace.

Lemma feasible_is_further (lastDistance : Q) (lastLatLng : LatLng) (candidate : entry) :
  isFeasible course profile pace lastDistance lastLatLng candidate = true ->
  lastDistance < fst candidate.
Proof.
  intros H. apply isFeasible_iff in H. unfold feasibleSpec in H.
  pose proof (distanceTo_nonneg lastLatLng (snd candidate)) as Hd.
  set (d := distanceTo lastLatLng (snd candidate)) in *.
  set (pen := if courseCrossing course lastLatLng (snd candidate) then 300 else 0) in *.
  assert (Hpen : 0 <= pen) by (subst pen; destruct (courseCrossing _ _ _); lra).
  assert (Hrun : 0 < (fst candidate - lastDistance) * pace).
  { destruct profile; cbv zeta in H; [| |contradiction].
    - assert (0 <= d / (14 # 10)) by (apply Qle_shift_div_l; lra). lra.
    - assert (0 <= d / (55 # 10)) by (apply Qle_shift_div_l; lra). lra. }
  destruct (Qlt_le_dec lastDistance (fst candidate)) as [Hlt|Hge]; [exact Hlt|].
  exfalso.
  assert (Hneg : 0 <= (lastDistance - fst candidate) * pace)
    by (apply Qmult_le_0_compat; lra).
  lra.
Qed.

Variable pool : list entry.
Hypothesis pool_sorted : StronglySorted keyLe pool.

Lemma greedyWalk_forward (remaining : nat) :
  forall (p : nat) (usedIndices : list nat),
    (p < length pool)%nat ->
    let last := nth p pool noEntry in
    let suggested :=
      greedyWalk course profile pace pool remaining (fst last) (snd last) usedIndices in
    StronglySorted Qlt (fst last :: suggested)
    /\ Subseq suggested (skipn (S p) (map fst pool)).
Proof.
  induction remaining as [|remaining IH]; intros p used Hp last suggested;
    subst suggested; cbn [App.greedyWalk].
  - split; [repeat constructor | constructor].
  - pose proof (bestNextSpot_spec course profile pace (fst last) (snd last) used pool) as Hbest.
    destruct (bestNextSpot course profile pace (fst last) (snd last) used pool) as [k|].
    2: { split; [repeat constructor | constructor]. }
    destruct Hbest as (ek & Hk & _ & Hfeas & _).
    assert (Hklen : (k < length pool)%nat) by (apply nth_error_Some; congruence).
    assert (Hnth : nth k pool noEntry = ek) by (now apply nth_error_nth).
    pose proof (feasible_is_further _ _ _ Hfeas) as Hfar.
    assert (Hpk : (p < k)%nat).
    { destruct (Nat.lt_ge_cases p k) as [|Hge]; [assumption|]. exfalso.
      pose proof (sorted_nth_le pool pool_sorted k p Hge Hp) as Hle.
      rewrite Hnth in Hle. fold last in Hle. lra. }
    rewrite Hnth. destruct ek as [nextDist nextLatLng] eqn:Eek.
    destruct (IH k (k :: used) Hklen) as [Hsorted Hsub].
    rewrite Hnth in Hsorted, Hsub. cbn [fst snd] in *.
    split.
    + constructor; [exact Hsorted|].
      constructor; [exact Hfar|].
      inversion Hsorted as [|? ? _ Hall]; subst.
      eapply Forall_impl; [|exact Hall]. intros a Ha. simpl in Ha. lra.
    + assert (E : nth k (map fst pool) (fst noEntry) = nextDist)
        by (rewrite map_nth, Hnth; reflexivity).
      rewrite <- (length_map fst) in Hklen.
      pose proof (Subseq_from_index (fst noEntry) (map fst pool) (S p) k _
                    Hpk Hklen Hsub) as H.
      now rewrite E in H.
Qed.

End Walk.

(** C2.  With the minTravel strategy, a valid pace, a loaded course, a pool
    that is not empty and at least one spot asked for, the suggested
    distances are strictly increasing, a subsequence of the distances of the
    ascending pool, and start with the smallest distance of the pool.
    Distances between points are not negative. *)
Theorem C2_min_travel_monotonic :
  forall (st : AppState) (course : LineString) (pace : Q) (first : entry) (others : list entry),
    (forall p q, 0 <= distanceTo p q) ->
    gpxCourseLine st = Some course ->
    potentiallyAvailableMarkers (markerPositions st) (skipFirstKm st) = first :: others ->
    (1 <= numSpotsToSuggest st)%Z ->
    suggestionStrategy st = minTravel ->
    parsePaceToSecondsPerMeter (runnerPace st) = Some pace ->
    exists rest,
      suggestSpots st = Suggested (fst first :: rest)
      /\ StronglySorted Qlt (fst first :: rest)
      /\ Subseq (fst first :: rest) (map fst (first :: others))
      /\ StronglySorted keyLe (first :: others)
      /\ (forall e, In e (first :: others) -> fst first <= fst e).
Proof.
  intros st course pace first others Hnonneg Hc Hpool Hn Hs Hp.
  assert (Hsorted : StronglySorted keyLe (first :: others))
    by (rewrite <- Hpool; apply available_sorted).
  rewrite (suggestSpots_minTravel st course first others Hc Hpool Hn pace Hs Hp).
  unfold App.minTravelDistances.
  destruct (greedyWalk_forward Hnonneg course (travelProfile st) pace
              (parsePace_positive _ _ Hp) (first :: others) Hsorted
              (Z.to_nat (numToSelectOf st first others - 1)) 0%nat [0%nat])
    as [Hinc Hsub]; [simpl; lia|].
  cbn [nth] in Hinc, Hsub.
  eexists. split; [reflexivity|]. split; [exact Hinc|]. split.
  - cbn [map]. apply Subseq_take. exact Hsub.
  - split; [exact Hsorted | now apply sorted_head_least].
Qed.

End Selection.

(** ** The theorems on a sample state *)

Local Open Scope string_scope.

Lemma C2_min_travel_monotonic_witness :
  exists rest,
    suggestSpots Sample.gridDistance Sample.noIntersect Sample.gridPosDistance
      (Sample.sampleState "5:00" walking minTravel 3) = Suggested (1000 :: rest)
    /\ StronglySorted Qlt (1000 :: rest).
Proof.
  destruct (C2_min_travel_monotonic Sample.gridDistance Sample.noIntersect
              Sample.gridPosDistance (Sample.sampleState "5:00" walking minTravel 3)
              Sample.sampleCourse (300 # 1000)
              (1000, mkLatLng (1 # 100) 0)
              [ (3000, mkLatLng (3 # 100) 0);
                (5000, mkLatLng (1 # 100) (1 # 100000));
                (9000, mkLatLng (1 # 100) (2 # 100000)) ])
    as (rest & Hrun & Hinc & _).
  - exact gridDistance_nonneg.
  - reflexivity.
  - reflexivity.
  - simpl. lia.
  - reflexivity.
  - reflexivity.
  - exists rest. split; assumption.
Defined.

Lemma C7_max_spread_boundary_witness :
  exists furthest : entry,
    suggestSpots Sample.gridDistance Sample.noIntersect Sample.gridPosDistance
      (Sample.sampleState "" walking maxSpread 1) = Suggested [fst furthest].
Proof.
  destruct (C7_max_spread_boundary Sample.gridDistance Sample.noIntersect
              Sample.gridPosDistance (Sample.sampleState "" walking maxSpread 1)
              Sample.sampleCourse
              (1000, mkLatLng (1 # 100) 0)
              [ (3000, mkLatLng (3 # 100) 0);
                (5000, mkLatLng (1 # 100) (1 # 100000));
                (9000, mkLatLng (1 # 100) (2 # 100000)) ])
    as [Hone _].
  - reflexivity.
  - reflexivity.
  - reflexivity.
  - destruct Hone as (furthest & Hrun & _); [reflexivity|].
    exists furthest. exact Hrun.
Defined.

Lemma C9_bad_pace_no_mutation_witness :
  handleSuggestSpots Sample.gridDistance Sample.noIntersect Sample.gridPosDistance
    (Sample.sampleState "abc" walking minTravel 3)
  = (Sample.sampleState "abc" walking minTravel 3, [paceAlert]).
Proof.
  apply (C9_bad_pace_no_mutation Sample.gridDistance Sample.noIntersect
           Sample.gridPosDistance (Sample.sampleState "abc" walking minTravel 3)
           Sample.sampleCourse
           (1000, mkLatLng (1 # 100) 0)
           [ (3000, mkLatLng (3 # 100) 0);
             (5000, mkLatLng (1 # 100) (1 # 100000));
             (9000, mkLatLng (1 # 100) (2 # 100000)) ]).
  - reflexivity.
  - reflexivity.
  - simpl. lia.
  - reflexivity.
  - reflexivity.
Defined.

Lemma C10_transit_single_seed_witness :
  suggestSpots Sample.gridDistance Sample.noIntersect Sample.gridPosDistance
    (Sample.sampleState "5:00" transit minTravel 3) = Suggested [1000].
Proof.
  apply (C10_transit_single_seed Sample.gridDistance Sample.noIntersect
           Sample.gridPosDistance (Sample.sampleState "5:00" transit minTravel 3)
           Sample.sampleCourse (300 # 1000)
           (1000, mkLatLng (1 # 100) 0)
           [ (3000, mkLatLng (3 # 100) 0);
             (5000, mkLatLng (1 # 100) (1 # 100000));
             (9000, mkLatLng (1 # 100) (2 # 100000)) ]).
  - reflexivity.
  - reflexivity.
  - simpl. lia.
  - reflexivity.
  - reflexivity.
  - reflexivity.
Defined.

End AppFacts.

(* ================================================================== *)
(** * Properties of the course indexer and of the trail projector *)
(* ================================================================== *)

Module MapFacts.

Import MapComponent.

(** ** The Map *)

Lemma map_keys_app (m1 m2 : NumMap) : map_keys (m1 ++ m2) = map_keys m1 ++ map_keys m2.
Proof. apply map_app. Qed.

Lemma map_set_fresh (q : Q) (v : LatLng) (m : NumMap) :
  ~ keyIn q m -> map_set q v m = m ++ [(q, v)].
Proof.
  induction m as [|[k w] m IH]; intros Hfresh; simpl; [reflexivity|].
  destruct (Qeq_bool k q) eqn:E.
  - exfalso. apply Hfresh. exists k. split; [now left | now apply Qeq_bool_iff].
  - f_equal. apply IH. intros (k' & Hin & Hk'). apply Hfresh.
    exists k'. split; [now right | exact Hk'].
Qed.

Lemma map_set_present_keys (q : Q) (v : LatLng) (m : NumMap) :
  keyIn q m -> map_keys (map_set q v m) = map_keys m.
Proof.
  induction m as [|[k w] m IH]; intros (k' & Hin & Hk').
  - destruct Hin.
  - simpl. destruct (Qeq_bool k q) eqn:E; [reflexivity|].
    simpl. f_equal. apply IH. destruct Hin as [<- | Hin].
    + apply Qeq_bool_false_iff in E. contradiction.
    + exists k'. auto.
Qed.

Lemma map_get_set_same (q : Q) (v : LatLng) (m : NumMap) :
  map_get q (map_set q v m) = Some v.
Proof.
  induction m as [|[k w] m IH]; simpl.
  - now rewrite (proj2 (Qeq_bool_iff q q) (Qeq_refl q)).
  - destruct (Qeq_bool k q) eqn:E; simpl; rewrite E; [reflexivity | exact IH].
Qed.

Lemma Forall2_In_left {A B : Type} (R : A -> B -> Prop) (l1 : list A) (l2 : list B) (a : A) :
  Forall2 R l1 l2 -> In a l1 -> exists b, In b l2 /\ R a b.
Proof.
  induction 1 as [|x y l1 l2 Hxy _ IH]; intros Hin; [destruct Hin|].
  destruct Hin as [<- | Hin].
  - exists y. split; [now left | exact Hxy].
  - destruct (IH Hin) as (b & Hb & Hab). exists b. split; [now right | exact Hab].
Qed.

Lemma Forall2_In_right {A B : Type} (R : A -> B -> Prop) (l1 : list A) (l2 : list B) (b : B) :
  Forall2 R l1 l2 -> In b l2 -> exists a, In a l1 /\ R a b.
Proof.
  induction 1 as [|x y l1 l2 Hxy _ IH]; intros Hin; [destruct Hin|].
  destruct Hin as [<- | Hin].
  - exists x. split; [now left | exact Hxy].
  - destruct (IH Hin) as (a & Ha & Hab). exists a. split; [now right | exact Hab].
Qed.

(** ** Marks along the course *)

Lemma marks_S (interval : Q) (k : nat) :
  marks interval (S k) = marks interval k ++ [inject_Z (Z.of_nat (S k)) * interval].
Proof. unfold marks. rewrite seq_S, map_app. reflexivity. Qed.

Lemma inject_Z_S (k : nat) : inject_Z (Z.of_nat (S k)) == inject_Z (Z.of_nat k) + 1.
Proof. rewrite Nat2Z.inj_succ. unfold Z.succ. rewrite inject_Z_plus. reflexivity. Qed.

Lemma inject_Z_nat_le (j k : nat) : (j <= k)%nat -> inject_Z (Z.of_nat j) <= inject_Z (Z.of_nat k).
Proof. intros H. rewrite <- Zle_Qle. lia. Qed.

Lemma marks_In (interval : Q) (k : nat) (q : Q) :
  In q (marks interval k) ->
  exists j, (1 <= j <= k)%nat /\ q = inject_Z (Z.of_nat j) * interval.
Proof.
  unfold marks. rewrite in_map_iff. intros (j & <- & Hj). apply in_seq in Hj.
  exists j. split; [lia | reflexivity].
Qed.

(** A key list that is, number by number, the list of the first marks. *)
Lemma keys_below (interval : Q) (k : nat) (m : NumMap) (q : Q) :
  0 < interval ->
  Forall2 Qeq (map_keys m) (marks interval k) ->
  keyIn q m ->
  exists j, (1 <= j <= k)%nat /\ q == inject_Z (Z.of_nat j) * interval.
Proof.
  intros HI HF (key & Hin & Hkey).
  destruct (Forall2_In_left _ _ _ _ HF Hin) as (mark & Hmark & Heq).
  destruct (marks_In _ _ _ Hmark) as (j & Hj & ->).
  exists j. split; [exact Hj|]. now rewrite <- Hkey.
Qed.

Lemma archimedes (interval y : Q) :
  0 < interval -> exists n : nat, y < inject_Z (Z.of_nat n) * interval.
Proof.
  intros HI. set (x := y / interval).
  assert (Hx : y == x * interval) by (unfold x; field; lra).
  destruct (Qlt_le_dec x 0) as [Hneg|Hpos].
  - exists 0%nat. change (inject_Z (Z.of_nat 0)) with 0. rewrite Hx.
    assert (0 < (- x) * interval) by (apply Qmult_lt_0_compat; lra). lra.
  - exists (Z.to_nat (Qfloor x + 1)).
    assert (Hfl : (0 <= Qfloor x)%Z).
    { change 0%Z with (Qfloor 0). now apply Qfloor_resp_le. }
    rewrite Z2Nat.id by lia. pose proof (Qlt_floor x) as Hlt.
    rewrite Hx. apply Qmult_lt_compat_r; assumption.
Qed.

Section Indexer.

Variable distanceTo : LatLng -> LatLng -> Q.
Variable interval : Q.
Hypothesis interval_pos : 0 < interval.

Local Abbreviation finishCoincides := (Spec.finishCoincides interval).
Local Abbreviation expectedKeys := (Spec.expectedKeys interval).

(** The state of one mark loop between two segments: [k] marks are
    stored, the next one is the mark [k + 1], and the distance walked lies
    between the two. *)
Definition MarkInv (step total next : Q) (m : NumMap) (k : nat) : Prop :=
  next == inject_Z (Z.of_nat (S k)) * step
  /\ Forall2 Qeq (map_keys m) (marks step k)
  /\ inject_Z (Z.of_nat k) * step <= total
  /\ total < next.

Lemma markLoop_run (step : Q) (prevPoint currentPoint : LatLng) (seg total : Q) :
  0 < step ->
  forall (n k : nat) (next : Q) (m : NumMap),
    next == inject_Z (Z.of_nat (S k)) * step ->
    Forall2 Qeq (map_keys m) (marks step k) ->
    inject_Z (Z.of_nat k) * step <= total + seg ->
    total < next ->
    total + seg < next + inject_Z (Z.of_nat n) * step ->
    exists k' next' m',
      (forall fuel, (n <= fuel)%nat ->
         markLoop fuel prevPoint currentPoint seg total step next m = Done (next', m'))
      /\ MarkInv step (total + seg) next' m' k'.
Proof.
  intros Hstep. induction n as [|n IH]; intros k next m Hnext Hkeys Hlow Htot Hbound.
  - change (inject_Z (Z.of_nat 0)) with 0 in Hbound.
    exists k, next, m. split.
    + intros fuel _. destruct fuel; cbn [markLoop];
        rewrite (proj2 (Qle_bool_false_iff _ _)); try reflexivity; lra.
    + repeat split; auto. lra.
  - destruct (Qle_bool next (total + seg)) eqn:Etest.
    2: { exists k, next, m. apply Qle_bool_false_iff in Etest. split.
         - intros fuel _. destruct fuel; cbn [markLoop];
             rewrite (proj2 (Qle_bool_false_iff _ _)); try reflexivity; lra.
         - repeat split; auto. }
    pose proof Etest as Hreach. apply Qle_bool_iff in Hreach.
    assert (Hseg : Qeq_bool seg 0 = false) by (apply Qeq_bool_false_iff; lra).
    set (spot := mkLatLng
                   (lat prevPoint + (lat currentPoint - lat prevPoint) * ((next - total) / seg))
                   (lng prevPoint + (lng currentPoint - lng prevPoint) * ((next - total) / seg))).
    assert (Hfresh : map_set next spot m = m ++ [(next, spot)]).
    { apply map_set_fresh. intros Hin.
      destruct (keys_below step k m next Hstep Hkeys Hin) as (j & Hj & Hq).
      pose proof (inject_Z_nat_le j k (proj2 Hj)) as Hjk.
      rewrite inject_Z_S in Hnext.
      assert (inject_Z (Z.of_nat j) * step <= inject_Z (Z.of_nat k) * step)
        by (apply Qmult_le_compat_r; lra).
      lra. }
    destruct (IH (S k) (next + step) (m ++ [(next, spot)])) as (k' & next' & m' & Hrun & Hinv).
    + rewrite (inject_Z_S (S k)). lra.
    + rewrite map_keys_app, marks_S. apply Forall2_app; [exact Hkeys|].
      constructor; [exact Hnext | constructor].
    + lra.
    + lra.
    + rewrite inject_Z_S in Hbound. lra.
    + exists k', next', m'. split; [|exact Hinv].
      intros fuel Hfuel. destruct fuel as [|fuel]; [lia|].
      cbn [markLoop]. rewrite Etest. unfold jsdiv. rewrite Hseg.
      fold spot. rewrite Hfresh. apply Hrun. lia.
Qed.

Lemma markLoop_segment (step : Q) (prevPoint currentPoint : LatLng) (seg total next : Q)
    (m : NumMap) (k : nat) :
  0 < step -> 0 <= seg ->
  MarkInv step total next m k ->
  exists n0 k' next' m',
    (forall fuel, (n0 <= fuel)%nat ->
       markLoop fuel prevPoint currentPoint seg total step next m = Done (next', m'))
    /\ MarkInv step (total + seg) next' m' k'.
Proof.
  intros Hstep Hseg (Hnext & Hkeys & Hlow & Htot).
  destruct (archimedes step (total + seg - next) Hstep) as [n Hn].
  destruct (markLoop_run step prevPoint currentPoint seg total Hstep n k next m)
    as (k' & next' & m' & Hrun & Hinv); try assumption; try lra.
  exists n, k', next', m'. auto.
Qed.

Definition StateInv (st : IndexState) (ks kf : nat) : Prop :=
  MarkInv interval (totalDistance st) (nextPotentialSpotDist st) (newMarkerPositions st) ks
  /\ MarkInv FIVE_KM (totalDistance st) (nextFiveKmMark st) (fiveKmMarkerPositions st) kf.

Lemma last_cons_default {A : Type} (x d : A) (l : list A) : last (x :: l) d = last l x.
Proof.
  revert x d. induction l as [|y l IH]; intros x d; [reflexivity|].
  change (last (x :: y :: l) d) with (last (y :: l) d).
  now rewrite (IH y d), (IH y x).
Qed.

Hypothesis distanceTo_nonneg : forall p q, 0 <= distanceTo p q.

Lemma segmentLoop_run (rest : list LatLng) :
  forall (prevPoint : LatLng) (st : IndexState) (ks kf : nat),
    StateInv st ks kf ->
    exists n0 st' ks' kf',
      (forall fuel, (n0 <= fuel)%nat ->
         segmentLoop distanceTo fuel interval prevPoint rest st = Done st')
      /\ StateInv st' ks' kf'
      /\ totalDistance st' =
           last (cumulativeFrom distanceTo prevPoint (totalDistance st) rest) (totalDistance st).
Proof.
  induction rest as [|cur rest IH]; intros prev st ks kf [Hs Hf].
  - exists 0%nat, st, ks, kf.
    split; [reflexivity | split; [split; assumption | reflexivity]].
  - set (seg := distanceTo prev cur).
    assert (Hseg : 0 <= seg) by apply distanceTo_nonneg.
    destruct (markLoop_segment interval prev cur seg _ _ _ _ interval_pos Hseg Hs)
      as (n1 & k1 & next1 & m1 & Hrun1 & Hinv1).
    destruct (markLoop_segment FIVE_KM prev cur seg _ _ _ _ eq_refl Hseg Hf)
      as (n5 & k5 & next5 & m5 & Hrun5 & Hinv5).
    destruct (IH cur (mkIndexState (totalDistance st + seg) next1 next5 m1 m5) k1 k5)
      as (n0 & st' & ks' & kf' & Hrun & Hinv & Htotal); [split; assumption|].
    exists (Nat.max n1 (Nat.max n5 n0)), st', ks', kf'. repeat split; try apply Hinv.
    + intros fuel Hfuel. cbn [segmentLoop]. fold seg.
      rewrite Hrun1 by lia. rewrite Hrun5 by lia. apply Hrun. lia.
    + rewrite Htotal. cbn [totalDistance cumulativeFrom]. fold seg.
      now rewrite last_cons_default.
Qed.

Lemma MarkInv_initial (step : Q) : 0 < step -> MarkInv step 0 step [] 0.
Proof.
  intros Hstep. unfold MarkInv.
  change (inject_Z (Z.of_nat 1)) with 1. change (inject_Z (Z.of_nat 0)) with 0.
  split; [lra|]. split; [constructor|]. split; lra.
Qed.

Lemma initial_state_inv : StateInv (mkIndexState 0 interval FIVE_KM [] []) 0 0.
Proof.
  split; cbn [totalDistance nextPotentialSpotDist nextFiveKmMark
              newMarkerPositions fiveKmMarkerPositions];
    apply MarkInv_initial; [exact interval_pos | reflexivity].
Qed.

(** The spot pass of a track of two points or more runs to its end. *)
Lemma calculateSpotPositions_run (p0 p1 : LatLng) (rest : list LatLng) :
  exists n0 st k kf,
    (forall fuel, (n0 <= fuel)%nat ->
       calculateSpotPositions distanceTo interval fuel (p0 :: p1 :: rest)
       = Done (mkTrackIndex (totalDistance st)
                 (map_set (totalDistance st) (last (p0 :: p1 :: rest) p0) (newMarkerPositions st))
                 (fiveKmMarkerPositions st)))
    /\ StateInv st k kf
    /\ totalDistance st = last (cumulativeDistances distanceTo (p0 :: p1 :: rest)) 0.
Proof.
  destruct (segmentLoop_run (p1 :: rest) p0 _ 0%nat 0%nat initial_state_inv)
    as (n0 & st & k & kf & Hrun & Hinv & Htotal).
  exists n0, st, k, kf. repeat split; try apply Hinv.
  - intros fuel Hfuel. unfold calculateSpotPositions. now rewrite Hrun.
  - rewrite Htotal. unfold cumulativeDistances. cbn [totalDistance].
    now rewrite last_cons_default.
Qed.

(** ** The keys of the finished Map *)

Lemma MarkInv_floor (total next : Q) (m : NumMap) (k : nat) :
  MarkInv interval total next m k -> Qfloor (total / interval) = Z.of_nat k.
Proof.
  intros (Hnext & _ & Hlow & Htot).
  assert (H1 : inject_Z (Z.of_nat k) <= total / interval)
    by (apply Qle_shift_div_l; assumption).
  assert (H2 : total / interval < inject_Z (Z.of_nat (S k)))
    by (apply Qlt_shift_div_r; [assumption | lra]).
  pose proof (Qfloor_le (total / interval)) as H3.
  pose proof (Qlt_floor (total / interval)) as H4.
  assert (H5 : (Z.of_nat k < Qfloor (total / interval) + 1)%Z) by (rewrite Zlt_Qlt; lra).
  assert (H6 : (Qfloor (total / interval) < Z.of_nat (S k))%Z) by (rewrite Zlt_Qlt; lra).
  lia.
Qed.

Lemma marks_length (step : Q) (k : nat) : length (marks step k) = k.
Proof. unfold marks. now rewrite length_map, length_seq. Qed.

Lemma finish_keys (total next : Q) (m : NumMap) (k : nat) (v : LatLng) :
  MarkInv interval total next m k ->
  Forall2 Qeq (map_keys (map_set total v m)) (expectedKeys total).
Proof.
  intros Hinv. pose proof (MarkInv_floor _ _ _ _ Hinv) as Hfloor.
  destruct Hinv as (Hnext & Hkeys & Hlow & Htot).
  unfold Spec.expectedKeys, Spec.finishCoincides. rewrite Hfloor, Nat2Z.id.
  destruct ((1 <=? k)%nat && Qeq_bool total (inject_Z (Z.of_nat k) * interval))%bool eqn:E.
  - apply andb_true_iff in E. destruct E as [Hk Heq].
    apply Nat.leb_le in Hk. apply Qeq_bool_iff in Heq.
    rewrite app_nil_r. rewrite map_set_present_keys; [exact Hkeys|].
    assert (Hin : In (inject_Z (Z.of_nat k) * interval) (marks interval k)).
    { unfold marks. apply in_map_iff. exists k. split; [reflexivity|]. apply in_seq. lia. }
    destruct (Forall2_In_right _ _ _ _ Hkeys Hin) as (key & Hkey & Hkq).
    exists key. split; [exact Hkey|]. now rewrite Hkq.
  - rewrite map_set_fresh.
    + rewrite map_keys_app. apply Forall2_app; [exact Hkeys|]. repeat constructor.
    + intros Hin. destruct (keys_below interval k m total interval_pos Hkeys Hin)
        as (j & Hj & Hq).
      apply andb_false_iff in E. destruct E as [Hk | Hne].
      * apply Nat.leb_gt in Hk. lia.
      * apply Qeq_bool_false_iff in Hne. apply Hne.
        pose proof (inject_Z_nat_le j k (proj2 Hj)) as Hjk.
        assert (inject_Z (Z.of_nat j) * interval <= inject_Z (Z.of_nat k) * interval)
          by (apply Qmult_le_compat_r; lra).
        lra.
Qed.

Lemma expectedKeys_member (total q : Q) :
  (exists mark, In mark (expectedKeys total) /\ mark == q) <->
  (exists j : nat, (1 <= j <= Z.to_nat (Qfloor (total / interval)))%nat
                   /\ q == inject_Z (Z.of_nat j) * interval)
  \/ q == total.
Proof.
  unfold Spec.expectedKeys. set (k := Z.to_nat (Qfloor (total / interval))).
  split.
  - intros (mark & Hin & Hq). apply in_app_or in Hin. destruct Hin as [Hin | Hin].
    + left. destruct (marks_In _ _ _ Hin) as (j & Hj & ->). exists j. split; [exact Hj|].
      now symmetry.
    + right. destruct (finishCoincides total); [destruct Hin|].
      destruct Hin as [<- | []]. now symmetry.
  - intros [(j & Hj & Hq) | Hq].
    + exists (inject_Z (Z.of_nat j) * interval). split; [|now symmetry].
      apply in_or_app. left. unfold marks. apply in_map_iff.
      exists j. split; [reflexivity|]. apply in_seq. lia.
    + destruct (finishCoincides total) eqn:E.
      * unfold Spec.finishCoincides in E. fold k in E. apply andb_true_iff in E.
        destruct E as [Hk Heq]. apply Nat.leb_le in Hk. apply Qeq_bool_iff in Heq.
        exists (inject_Z (Z.of_nat k) * interval). split; [|now rewrite Hq, Heq].
        apply in_or_app. left. unfold marks. apply in_map_iff.
        exists k. split; [reflexivity|]. apply in_seq. lia.
      * exists total. split; [|now symmetry]. apply in_or_app. right. now left.
Qed.

Lemma keyIn_Forall2 (m : NumMap) (expected : list Q) (q : Q) :
  Forall2 Qeq (map_keys m) expected ->
  keyIn q m <-> exists mark, In mark expected /\ mark == q.
Proof.
  intros HF. split.
  - intros (key & Hin & Hq). destruct (Forall2_In_left _ _ _ _ HF Hin) as (mark & Hm & Hkm).
    exists mark. split; [exact Hm|]. now rewrite <- Hkm.
  - intros (mark & Hin & Hq). destruct (Forall2_In_right _ _ _ _ HF Hin) as (key & Hk & Hkm).
    exists key. split; [exact Hk|]. now rewrite Hkm.
Qed.

(** ** No division by zero, whatever the fuel *)

Lemma markLoop_never_divides (step : Q) (prevPoint currentPoint : LatLng) (seg total : Q) :
  0 < step ->
  forall (fuel : nat) (next : Q) (m : NumMap),
    total < next ->
    match markLoop fuel prevPoint currentPoint seg total step next m with
    | Done (next', _) => total + seg < next'
    | DivByZero => False
    | OutOfFuel => True
    end.
Proof.
  intros Hstep. induction fuel as [|fuel IH]; intros next m Htot; cbn [markLoop];
    destruct (Qle_bool next (total + seg)) eqn:E;
    try (apply Qle_bool_false_iff in E; exact E); [exact I|].
  apply Qle_bool_iff in E.
  assert (Hseg : Qeq_bool seg 0 = false) by (apply Qeq_bool_false_iff; lra).
  unfold jsdiv. rewrite Hseg. apply IH. lra.
Qed.

Lemma segmentLoop_never_divides (fuel : nat) (rest : list LatLng) :
  forall (prevPoint : LatLng) (st : IndexState),
    totalDistance st < nextPotentialSpotDist st ->
    totalDistance st < nextFiveKmMark st ->
    segmentLoop distanceTo fuel interval prevPoint rest st <> DivByZero.
Proof.
  induction rest as [|cur rest IH]; intros prev st Hs Hf; cbn [segmentLoop];
    [discriminate|].
  pose proof (markLoop_never_divides interval prev cur (distanceTo prev cur)
                (totalDistance st) interval_pos fuel _ (newMarkerPositions st) Hs) as H1.
  destruct (markLoop fuel prev cur (distanceTo prev cur) (totalDistance st) interval
              (nextPotentialSpotDist st) (newMarkerPositions st)) as [[next1 m1]| |];
    [|contradiction|discriminate].
  pose proof (markLoop_never_divides FIVE_KM prev cur (distanceTo prev cur)
                (totalDistance st) eq_refl fuel _ (fiveKmMarkerPositions st) Hf) as H5.
  destruct (markLoop fuel prev cur (distanceTo prev cur) (totalDistance st) FIVE_KM
              (nextFiveKmMark st) (fiveKmMarkerPositions st)) as [[next5 m5]| |];
    [|contradiction|discriminate].
  apply IH; assumption.
Qed.

Lemma calculateSpotPositions_never_divides (fuel : nat) (points : list LatLng) :
  calculateSpotPositions distanceTo interval fuel points <> DivByZero.
Proof.
  unfold calculateSpotPositions.
  destruct points as [|p0 [|p1 rest]]; try discriminate.
  pose proof (segmentLoop_never_divides fuel (p1 :: rest) p0
                (mkIndexState 0 interval FIVE_KM [] []) interval_pos eq_refl) as H.
  destruct (segmentLoop distanceTo fuel interval p0 (p1 :: rest) _);
    [discriminate | contradiction | discriminate].
Qed.

Lemma markLoop_zero_segment (fuel : nat) (prevPoint currentPoint : LatLng)
    (seg total step next : Q) (m : NumMap) :
  seg == 0 -> total < next ->
  markLoop fuel prevPoint currentPoint seg total step next m = Done (next, m).
Proof.
  intros Hseg Htot.
  destruct fuel; cbn [markLoop]; rewrite (proj2 (Qle_bool_false_iff _ _));
    try reflexivity; lra.
Qed.

(** C5.  For a track of two points or more, repeated points included, the
    spot pass runs to its end and never divides by zero: with enough fuel
    the result is [Done], and with no fuel is it [DivByZero], so every
    stored position has rational coordinates.  A segment of length zero
    does not enter the mark loops, whose state it leaves as it is. *)
Theorem C5_indexing_is_safe :
  forall points : list LatLng,
    (2 <= length points)%nat ->
    (exists n0 index,
        forall fuel, (n0 <= fuel)%nat ->
          calculateSpotPositions distanceTo interval fuel points = Done index)
    /\ (forall fuel, calculateSpotPositions distanceTo interval fuel points <> DivByZero)
    /\ (forall fuel prevPoint currentPoint total step next m,
          distanceTo prevPoint currentPoint == 0 -> total < next ->
          markLoop fuel prevPoint currentPoint (distanceTo prevPoint currentPoint)
            total step next m = Done (next, m)).
Proof.
  intros points Hlen. split.
  - destruct points as [|p0 [|p1 rest]]; simpl in Hlen; try lia.
    destruct (calculateSpotPositions_run p0 p1 rest) as (n0 & st & k & kf & Hrun & _).
    eauto.
  - split.
    + intros fuel. apply calculateSpotPositions_never_divides.
    + intros. now apply markLoop_zero_segment.
Qed.

(** C3.  For a track of two points or more, of length L, and an interval
    I, the keys of the Map that the spot pass builds are the marks I, 2I,
    ..., floor(L/I) I and the finish key L, whose point is the last point of
    the track; the finish key is the last mark when L is a multiple of I
    and not zero.  For ten points 500 m apart and I = 50 the Map has 90
    keys. *)
Theorem C3_candidate_coverage :
  forall points : list LatLng,
    (2 <= length points)%nat ->
    exists n0 index,
      (forall fuel, (n0 <= fuel)%nat ->
         calculateSpotPositions distanceTo interval fuel points = Done index)
      /\ let L := totalTrackDistance index in
         let m := markerPositions index in
         let k := Z.to_nat (Qfloor (L / interval)) in
         L = last (cumulativeDistances distanceTo points) 0
         /\ (forall q,
               keyIn q m <->
               (exists j : nat, (1 <= j <= k)%nat /\ q == inject_Z (Z.of_nat j) * interval)
               \/ q == L)
         /\ Forall2 Qeq (map_keys m) (expectedKeys L)
         /\ map_get L m = Some (last points (mkLatLng 0 0))
         /\ length m = (if finishCoincides L then k else S k)
         /\ (interval == 50 ->
             length points = 10%nat ->
             (forall i, (i < 9)%nat ->
                distanceTo (nth i points (mkLatLng 0 0)) (nth (S i) points (mkLatLng 0 0)) == 500) ->
             length m = 90%nat).
Proof.
  intros points Hlen.
  destruct points as [|p0 [|p1 rest]]; simpl in Hlen; try lia.
  destruct (calculateSpotPositions_run p0 p1 rest) as (n0 & st & k & kf & Hrun & [Hinv _] & Htotal).
  eexists n0, _. split; [exact Hrun|].
  cbn [totalTrackDistance markerPositions]. cbv zeta.
  set (L := totalDistance st) in *.
  set (m := map_set L (last (p0 :: p1 :: rest) p0) (newMarkerPositions st)).
  pose proof (finish_keys L _ _ k (last (p0 :: p1 :: rest) p0) Hinv) as Hkeys. fold m in Hkeys.
  assert (Hcount : length m = if finishCoincides L then Z.to_nat (Qfloor (L / interval))
                              else S (Z.to_nat (Qfloor (L / interval)))).
  { rewrite <- (length_map fst m). change (map fst m) with (map_keys m).
    rewrite (Forall2_length Hkeys). unfold Spec.expectedKeys.
    rewrite length_app, marks_length. destruct (finishCoincides L); simpl; lia. }
  split; [exact Htotal|]. split.
  { intros q. rewrite (keyIn_Forall2 m _ q Hkeys). apply expectedKeys_member. }
  split; [exact Hkeys|]. split.
  { unfold m. rewrite map_get_set_same. f_equal.
    now rewrite !(last_cons_default p0). }
  split; [exact Hcount|].
  intros HI H10 Hdist. rewrite Hcount.
  assert (HL : L == 4500).
  { rewrite Htotal. clear - H10 Hdist.
    destruct rest as [|p2 [|p3 [|p4 [|p5 [|p6 [|p7 [|p8 [|p9 [|p10 rest]]]]]]]]];
      simpl in H10; try lia.
    pose proof (Hdist 0%nat ltac:(lia)) as H0. pose proof (Hdist 1%nat ltac:(lia)) as H1.
    pose proof (Hdist 2%nat ltac:(lia)) as H2. pose proof (Hdist 3%nat ltac:(lia)) as H3.
    pose proof (Hdist 4%nat ltac:(lia)) as H4. pose proof (Hdist 5%nat ltac:(lia)) as H5.
    pose proof (Hdist 6%nat ltac:(lia)) as H6. pose proof (Hdist 7%nat ltac:(lia)) as H7.
    pose proof (Hdist 8%nat ltac:(lia)) as H8.
    cbn [nth] in *. cbn [cumulativeDistances cumulativeFrom last]. lra. }
  assert (Hq : L / interval == 90) by (rewrite HL, HI; reflexivity).
  assert (Hfloor : Qfloor (L / interval) = 90%Z) by (rewrite Hq; reflexivity).
  unfold Spec.finishCoincides. rewrite Hfloor.
  replace (Qeq_bool L (inject_Z (Z.of_nat (Z.to_nat 90)) * interval)) with true.
  - reflexivity.
  - symmetry. apply Qeq_bool_iff. rewrite HL, HI. reflexivity.
Qed.

End Indexer.

(** ** The trail projector *)

Lemma skipn_cons_nth {A : Type} (d : A) (l : list A) :
  forall (n : nat) (x : A) (l' : list A),
    skipn n l = x :: l' -> nth n l d = x /\ skipn (S n) l = l'.
Proof.
  induction l as [|y l IH]; intros n x l' H.
  - destruct n; discriminate H.
  - destruct n as [|n].
    + simpl in H. injection H as -> ->. split; reflexivity.
    + apply (IH n x l'). exact H.
Qed.

Lemma skipn_nil_length {A : Type} (l : list A) (n : nat) :
  skipn n l = [] -> (length l <= n)%nat.
Proof.
  revert n. induction l as [|y l IH]; intros n H; simpl; [lia|].
  destruct n as [|n]; [discriminate H|]. simpl in H. apply IH in H. lia.
Qed.

Section Projector.

Variable distanceTo : LatLng -> LatLng -> Q.
Hypothesis distanceTo_nonneg : forall p q, 0 <= distanceTo p q.
Hypothesis distanceTo_same :
  forall p q, lat p == lat q -> lng p == lng q -> distanceTo p q == 0.

Local Abbreviation origin := (mkLatLng 0 0).

Lemma cumulativeFrom_nth (rest : list LatLng) :
  forall (prev : LatLng) (total : Q) (j : nat),
    (j < length rest)%nat ->
    nth (S j) (total :: cumulativeFrom distanceTo prev total rest) 0
    = nth j (total :: cumulativeFrom distanceTo prev total rest) 0
      + distanceTo (nth j (prev :: rest) origin) (nth (S j) (prev :: rest) origin).
Proof.
  induction rest as [|p rest IH]; intros prev total j Hj; simpl in Hj; [lia|].
  destruct j as [|j]; [reflexivity|].
  cbn [cumulativeFrom].
  change (nth (S (S j)) (total :: ?l) 0) with (nth (S j) l 0).
  change (nth (S j) (total :: ?l) 0) with (nth j l 0).
  change (nth (S j) (prev :: ?l) origin) with (nth j l origin).
  change (nth (S (S j)) (prev :: ?l) origin) with (nth (S j) l origin).
  apply IH. lia.
Qed.

Lemma cumulativeDistances_step (points : list LatLng) (j : nat) :
  (S j < length points)%nat ->
  nth (S j) (cumulativeDistances distanceTo points) 0
  = nth j (cumulativeDistances distanceTo points) 0
    + distanceTo (nth j points origin) (nth (S j) points origin).
Proof.
  intros Hj. destruct points as [|p0 [|p1 rest]]; simpl in Hj; try lia.
  unfold cumulativeDistances. apply cumulativeFrom_nth. simpl. lia.
Qed.

Lemma cumulativeFrom_length (rest : list LatLng) (prev : LatLng) (total : Q) :
  length (cumulativeFrom distanceTo prev total rest) = length rest.
Proof.
  revert prev total. induction rest as [|p rest IH]; intros; simpl; [reflexivity|].
  now rewrite IH.
Qed.

Lemma cumulativeDistances_length (points : list LatLng) :
  (2 <= length points)%nat ->
  length (cumulativeDistances distanceTo points) = length points.
Proof.
  intros H. destruct points as [|p0 [|p1 rest]]; simpl in H; try lia.
  unfold cumulativeDistances. cbn [length]. now rewrite cumulativeFrom_length.
Qed.

End Projector.

Lemma coord_eps_normal : Number.MIN_NORMAL <= COORD_EPS.
Proof. unfold Qle. vm_compute. discriminate. Qed.

Section VertexProjection.

Variable fl : Q -> Q.
Hypothesis rounding : Number.Rounding fl.

Variable distanceTo : LatLng -> LatLng -> Q.
Hypothesis distanceTo_nonneg : forall p q, 0 <= distanceTo p q.
Hypothesis distanceTo_same :
  forall p q, lat p == lat q -> lng p == lng q -> distanceTo p q == 0.

Variable points : list LatLng.
Hypothesis doubles :
  forall p, In p points -> fl (lat p) == lat p /\ fl (lng p) == lng p.

Variable v : nat.

Local Abbreviation origin := (mkLatLng 0 0).
Local Abbreviation latlng := (nth v points origin).
Local Abbreviation table := (cumulativeDistances distanceTo points).
Local Abbreviation segmentLengthAt := (Spec.segmentLengthAt distanceTo points).
Local Abbreviation nearestOn := (Spec.nearestOn fl points latlng).
Local Abbreviation norm := (Spec.coordinateNormSquared fl points).
Local Abbreviation Hit := (Spec.Hit fl distanceTo points latlng).
Local Abbreviation FirstHit := (Spec.FirstHit fl distanceTo points latlng).

#[local] Instance fl_proper : Proper (Qeq ==> Qeq) fl.
Proof. intros x y H. now apply (Number.fl_compat fl rounding). Qed.

Lemma fl_zero : fl 0 == 0.
Proof. apply (Number.fl_integer fl rounding 0). discriminate. Qed.

Lemma fl_one : fl 1 == 1.
Proof. apply (Number.fl_integer fl rounding 1). discriminate. Qed.

Lemma fl_eps_pos : 0 < fl COORD_EPS.
Proof.
  pose proof (Number.fl_error fl rounding COORD_EPS coord_eps_normal) as H.
  apply Qabs_Qle_condition in H. rewrite NumberFacts.unit_roundoff_value in H.
  assert (0 < COORD_EPS) by reflexivity.
  assert (COORD_EPS * (1 # 9007199254740992) <= COORD_EPS * (1 # 2))
    by (apply Qmult_le_l; [assumption | unfold Qle; simpl; lia]).
  lra.
Qed.

(** On the segment that starts where [latlng] is, the nearest point is
    computed at the ratio 0 and is the start of the segment: no operation
    rounds. *)
Lemma start_vertex_hit (j : nat) :
  (S j < length points)%nat -> ~ segmentLengthAt j == 0 ->
  SamePoint (nth j points origin) latlng ->
  Hit j /\ fst (nearestOn j) == 0.
Proof.
  intros Hj Hlen [Hlat Hlng].
  assert (Hin : In (nth j points origin) points) by (apply nth_In; lia).
  destruct (doubles _ Hin) as [Dlat Dlng].
  unfold Spec.Hit, Spec.nearestOn, Rounded.projectOnSegment.
  set (p1 := nth j points origin) in *. set (p2 := nth (S j) points origin) in *.
  set (vx := fl (lng p2 - lng p1)). set (vy := fl (lat p2 - lat p1)).
  assert (Ewx : fl (lng latlng - lng p1) == 0).
  { setoid_replace (lng latlng - lng p1) with 0 by lra. apply fl_zero. }
  assert (Ewy : fl (lat latlng - lat p1) == 0).
  { setoid_replace (lat latlng - lat p1) with 0 by lra. apply fl_zero. }
  assert (Edot : fl (fl (fl (lng latlng - lng p1) * vx) + fl (fl (lat latlng - lat p1) * vy))
                 == 0).
  { rewrite Ewx, Ewy.
    setoid_replace (0 * vx) with 0 by ring. setoid_replace (0 * vy) with 0 by ring.
    rewrite fl_zero. setoid_replace (0 + 0) with 0 by ring. apply fl_zero. }
  set (dot_vv := fl (fl (vx * vx) + fl (vy * vy))).
  set (t := if Qlt_bool dot_vv (fl COORD_EPS) then 0
            else fl (fl (fl (fl (lng latlng - lng p1) * vx)
                         + fl (fl (lat latlng - lat p1) * vy)) / dot_vv)).
  assert (Et : t == 0).
  { unfold t. destruct (Qlt_bool dot_vv (fl COORD_EPS)); [reflexivity|].
    rewrite Edot. setoid_replace (0 / dot_vv) with 0 by (unfold Qdiv; ring). apply fl_zero. }
  assert (Er : Qmax 0 (Qmin 1 t) == 0).
  { rewrite Et. rewrite Q.min_r by lra. now rewrite Q.max_l by lra. }
  cbn [fst snd]. split; [|exact Er].
  split; [exact Hj|]. split; [exact Hlen|].
  apply distanceTo_same; cbn [lat lng]; rewrite Er.
  - setoid_replace (0 * vy) with 0 by ring. rewrite fl_zero.
    setoid_replace (lat p1 + 0) with (lat p1) by ring. rewrite Dlat. lra.
  - setoid_replace (0 * vx) with 0 by ring. rewrite fl_zero.
    setoid_replace (lng p1 + 0) with (lng p1) by ring. rewrite Dlng. lra.
Qed.

(** On a segment that ends where [latlng] is, and is not too short in
    coordinate space, the nearest point is computed at the ratio 1. *)
Lemma end_vertex_ratio (j : nat) :
  SamePoint (nth (S j) points origin) latlng ->
  fl COORD_EPS <= norm j ->
  fst (nearestOn j) == 1.
Proof.
  intros [Hlat Hlng] Hnorm. pose proof fl_eps_pos as Heps.
  unfold Spec.coordinateNormSquared in Hnorm. cbv zeta in Hnorm.
  unfold Spec.nearestOn, Rounded.projectOnSegment.
  set (p1 := nth j points origin) in *. set (p2 := nth (S j) points origin) in *.
  set (vx := fl (lng p2 - lng p1)) in *. set (vy := fl (lat p2 - lat p1)) in *.
  set (dot_vv := fl (fl (vx * vx) + fl (vy * vy))) in *.
  assert (Ewx : fl (lng latlng - lng p1) == vx).
  { unfold vx. apply fl_proper. lra. }
  assert (Ewy : fl (lat latlng - lat p1) == vy).
  { unfold vy. apply fl_proper. lra. }
  cbn [fst].
  rewrite (proj2 (Qlt_bool_false_iff dot_vv (fl COORD_EPS)) Hnorm).
  assert (Et : fl (fl (fl (fl (lng latlng - lng p1) * vx) + fl (fl (lat latlng - lat p1) * vy))
                   / dot_vv) == 1).
  { rewrite Ewx, Ewy. fold dot_vv.
    setoid_replace (dot_vv / dot_vv) with 1 by (field; lra). apply fl_one. }
  rewrite Et. rewrite Q.min_l by lra. now rewrite Q.max_r by lra.
Qed.

(** On such a segment the vertex is found at distance 0 when the end
    computed at the ratio 1 is the vertex itself. *)
Lemma end_vertex_hit (j : nat) :
  (S j < length points)%nat -> ~ segmentLengthAt j == 0 ->
  SamePoint (nth (S j) points origin) latlng ->
  fl COORD_EPS <= norm j ->
  SamePoint (Spec.computedEnd fl points j) latlng ->
  Hit j /\ fst (nearestOn j) == 1.
Proof.
  intros Hj Hlen Hsame Hnorm [Hlat Hlng].
  pose proof (end_vertex_ratio j Hsame Hnorm) as Hratio.
  split; [|exact Hratio]. split; [exact Hj|]. split; [exact Hlen|].
  unfold Spec.computedEnd in Hlat, Hlng. cbv zeta in Hlat, Hlng. cbn [lat lng] in Hlat, Hlng.
  unfold Spec.nearestOn, Rounded.projectOnSegment in *. cbv zeta in *. cbn [fst snd] in *.
  apply distanceTo_same; cbn [lat lng]; rewrite Hratio; lra.
Qed.

(** ** The loop keeps the first segment at distance 0 *)

Section FirstHitFound.

Variable j : nat.
Hypothesis first_hit : FirstHit j.

Definition PosDist (best : Nearest) : Prop :=
  match distance best with
  | Infinity => True
  | Fin d => 0 < d
  end.

Definition Found (best : Nearest) : Prop :=
  exists d, distance best = Fin d /\ d == 0
            /\ segmentIndex best = j /\ ratio best = fst (nearestOn j)
            /\ point best = Some (snd (nearestOn j)).

(** The loop, from the segment [i] on: up to the segment [j] the best
    distance is positive or infinite, from it on it is zero and stays at
    the segment [j]. *)
Lemma nearestLoop_phases (rest : list LatLng) :
  forall (i : nat) (p1 : LatLng) (best : Nearest),
    p1 = nth i points origin ->
    rest = skipn (S i) points ->
    (if (i <=? j)%nat then PosDist best else Found best) ->
    Found (Rounded.nearestLoop fl distanceTo latlng i p1 rest best).
Proof.
  destruct first_hit as [(Hj & Hlength & Hzero) Hearlier].
  induction rest as [|p2 rest IH]; intros i p1 best Hp1 Hrest Hphase.
  - cbn [Rounded.nearestLoop]. symmetry in Hrest. apply skipn_nil_length in Hrest.
    destruct (Nat.leb_spec i j); [lia | exact Hphase].
  - symmetry in Hrest. destruct (skipn_cons_nth origin _ _ _ _ Hrest) as [Hp2 Hrest'].
    cbn [Rounded.nearestLoop]. subst p1. rewrite <- Hp2.
    destruct (Nat.leb_spec i j) as [Hle|Hgt].
    + destruct (Nat.eq_dec i j) as [->|Hne].
      * (* the segment j *)
        unfold Spec.segmentLengthAt in Hlength.
        rewrite (proj2 (Qeq_bool_false_iff _ _) Hlength).
        destruct (Rounded.projectOnSegment fl latlng (nth j points origin)
                    (nth (S j) points origin)) as [r pt] eqn:Eproj.
        assert (Hnearest : nearestOn j = (r, pt)) by exact Eproj.
        rewrite Hnearest in Hzero. cbn [snd] in Hzero.
        replace (xlt (Fin (distanceTo latlng pt)) (distance best)) with true.
        -- apply IH; [reflexivity | now symmetry |].
           destruct (Nat.leb_spec (S j) j); [lia|].
           exists (distanceTo latlng pt). rewrite Hnearest. repeat split; auto.
        -- symmetry. apply xlt_Fin_iff. unfold PosDist in Hphase.
           destruct (distance best); [lra | exact I].
      * (* an earlier segment *)
        assert (Hlt : (i < j)%nat) by lia.
        destruct (Qeq_bool (distanceTo (nth i points origin) (nth (S i) points origin)) 0)
          eqn:Elen.
        { apply IH; [reflexivity | now symmetry |].
          destruct (Nat.leb_spec (S i) j); [exact Hphase | lia]. }
        destruct (Hearlier i Hlt) as [Hz | Hpos];
          [apply Qeq_bool_false_iff in Elen; contradiction|].
        destruct (Rounded.projectOnSegment fl latlng (nth i points origin)
                    (nth (S i) points origin)) as [r pt] eqn:Eproj.
        assert (Hnearest : nearestOn i = (r, pt)) by exact Eproj.
        rewrite Hnearest in Hpos. cbn [snd] in Hpos.
        destruct (xlt (Fin (distanceTo latlng pt)) (distance best));
          (apply IH; [reflexivity | now symmetry |]);
          destruct (Nat.leb_spec (S i) j); try lia; [exact Hpos | exact Hphase].
    + (* a later segment *)
      assert (Hkeep : forall best', Found best' ->
                 (if (S i <=? j)%nat then PosDist best' else Found best')).
      { intros best' H. destruct (Nat.leb_spec (S i) j); [lia | exact H]. }
      destruct (Qeq_bool (distanceTo (nth i points origin) (nth (S i) points origin)) 0).
      { apply IH; [reflexivity | now symmetry | now apply Hkeep]. }
      destruct (Rounded.projectOnSegment fl latlng (nth i points origin)
                  (nth (S i) points origin)) as [r pt].
      replace (xlt (Fin (distanceTo latlng pt)) (distance best)) with false.
      * apply IH; [reflexivity | now symmetry | now apply Hkeep].
      * symmetry. destruct Hphase as (d & Hd & Hd0 & _). rewrite Hd. cbn [xlt].
        apply Qlt_bool_false_iff. pose proof (distanceTo_nonneg latlng pt). lra.
Qed.

Lemma findNearest_found : Found (Rounded.findNearestPointOnTrail fl distanceTo latlng points).
Proof.
  unfold Rounded.findNearestPointOnTrail.
  set (start := mkNearest Infinity (nth_error points 0) 0 0).
  assert (E : match points with
              | [] => start
              | p0 :: rest => Rounded.nearestLoop fl distanceTo latlng 0 p0 rest start
              end = Rounded.nearestLoop fl distanceTo latlng 0 (nth 0 points origin)
                      (skipn 1 points) start).
  { assert (H : exists p0 rest, points = p0 :: rest).
    { destruct first_hit as [(Hlen & _) _]. clear - Hlen.
      destruct points as [|p0 rest]; [simpl in Hlen; lia | eauto]. }
    destruct H as (p0 & rest & H). rewrite H. reflexivity. }
  rewrite E. apply nearestLoop_phases; [reflexivity | reflexivity | exact I].
Qed.

End FirstHitFound.

(** Below a segment at distance 0 there is a first one. *)
Lemma first_hit_exists (k : nat) :
  (k < length points)%nat ->
  (forall i, (i < k)%nat ->
     segmentLengthAt i == 0 \/ 0 < distanceTo latlng (snd (nearestOn i)))
  \/ exists j, (j < k)%nat /\ FirstHit j.
Proof.
  induction k as [|k IH]; intros Hk.
  - left. intros i Hi. lia.
  - destruct (IH ltac:(lia)) as [Hnone | (j & Hj & Hfirst)];
      [|right; exists j; split; [lia | exact Hfirst]].
    destruct (Qeq_dec (segmentLengthAt k) 0) as [Hzero | Hlen].
    { left. intros i Hi. destruct (Nat.eq_dec i k) as [->|]; [now left | apply Hnone; lia]. }
    destruct (Qlt_le_dec 0 (distanceTo latlng (snd (nearestOn k)))) as [Hpos | Hle].
    { left. intros i Hi. destruct (Nat.eq_dec i k) as [->|]; [now right | apply Hnone; lia]. }
    right. exists k. split; [lia|]. split; [|exact Hnone].
    split; [exact Hk|]. split; [exact Hlen|].
    pose proof (distanceTo_nonneg latlng (snd (nearestOn k))). lra.
Qed.

(** C6, amended.  The points of the course have doubles as coordinates,
    distances are not negative, and zero between points of equal
    coordinates; [fl] is the rounding of the arithmetic.  Let j be the
    first segment of a length that is not zero on which the nearest point
    computed for the vertex v is at distance 0 from it.  Then the
    projection of the vertex is at distance 0, on the segment j, and its
    along-course distance is the cumulative distance of the vertex when
    the segment j starts at the vertex, or ends at it and is not too
    short in coordinate space, and the cumulative distance there is that
    of v: the sum of that cumulative distance and 0 or 1 times the length
    of the segment is then the entry of the table, whatever the sums
    round to.  The segment that starts at the vertex is always such a
    segment when its length is not zero, so that every vertex that starts
    a segment of a length that is not zero is projected at distance 0.  A
    segment that ends at the vertex is such a segment when the end that
    is computed at the ratio 1, p1 + 1 * (p2 - p1), is the vertex itself. *)
Theorem C6_vertex_projection :
  let r := Rounded.findNearestPointOnTrail fl distanceTo latlng points in
  (forall j, FirstHit j ->
     (exists d, distance r = Fin d /\ d == 0)
     /\ segmentIndex r = j
     /\ ratio r = fst (nearestOn j)
     /\ ((SamePoint (nth j points origin) latlng /\ nth j table 0 == nth v table 0)
         \/ (SamePoint (nth (S j) points origin) latlng
             /\ fl COORD_EPS <= norm j
             /\ nth (S j) table 0 == nth v table 0) ->
         exists along,
           calculateDistanceAlongTrail distanceTo (segmentIndex r) (ratio r) points table
           = Some along
           /\ along == nth v table 0))
  /\ (forall j, (S j < length points)%nat -> ~ segmentLengthAt j == 0 ->
        SamePoint (nth j points origin) latlng ->
        Hit j /\ fst (nearestOn j) == 0)
  /\ ((S v < length points)%nat -> ~ segmentLengthAt v == 0 ->
      exists d, distance r = Fin d /\ d == 0)
  /\ (forall j, (S j < length points)%nat -> ~ segmentLengthAt j == 0 ->
        SamePoint (nth (S j) points origin) latlng ->
        fl COORD_EPS <= norm j ->
        SamePoint (Spec.computedEnd fl points j) latlng ->
        Hit j /\ fst (nearestOn j) == 1).
Proof.
  cbv zeta. split; [|split; [|split; [|exact end_vertex_hit]]].
  - intros j Hfirst.
    destruct (findNearest_found j Hfirst) as (d & Hd & Hd0 & Hidx & Hratio & _).
    split; [eauto|]. split; [exact Hidx|]. split; [exact Hratio|].
    intros Hwhere. destruct Hfirst as [(Hj & Hlen & _) _].
    assert (Hcum : length table = length points)
      by (apply cumulativeDistances_length; lia).
    unfold calculateDistanceAlongTrail. rewrite Hidx, Hratio.
    rewrite (nth_error_nth' _ 0 (n := j)) by lia.
    rewrite (nth_error_nth' points origin (n := j)) by lia.
    rewrite (nth_error_nth' points origin (n := S j)) by lia.
    eexists. split; [reflexivity|].
    destruct Hwhere as [(Hsame & Hcumj) | (Hsame & Hnorm & Hcumj)].
    + destruct (start_vertex_hit j Hj Hlen Hsame) as [_ Hzero].
      rewrite Hzero, <- Hcumj. ring.
    + rewrite (end_vertex_ratio j Hsame Hnorm), <- Hcumj.
      rewrite (cumulativeDistances_step distanceTo points j Hj). ring.
  - exact start_vertex_hit.
  - intros Hv Hlen.
    destruct (start_vertex_hit v Hv Hlen) as [Hhit _]; [split; reflexivity|].
    destruct (first_hit_exists (S v) Hv) as [Hnone | (j & _ & Hfirst)].
    + destruct Hhit as (_ & Hlen' & Hzero).
      destruct (Hnone v ltac:(lia)) as [H | H]; [contradiction | lra].
    + destruct (findNearest_found j Hfirst) as (d & Hd & Hd0 & _). eauto.
Qed.

End VertexProjection.

(** ** The theorems on sample courses *)

(** C6, as stated, fails.  On a course that goes out to B and comes back
    to its start, the last vertex is projected on the first segment: its
    along-course distance is 0, and its cumulative distance is 200 m.  On
    a course of two equal points no segment is looked at and the distance
    returned is infinite.  The rounding does not change this: with the
    arithmetic of doubles, on the course out to D and back, the last
    vertex is projected on the first segment too, at the ratio 0. *)
Lemma C6_revisited_vertex :
  (exists along cum,
      projectedTrailDistance Sample.gridDistance
        (nth 2 Sample.outAndBack Sample.pointA) Sample.outAndBack = Some along
      /\ nth_error (cumulativeDistances Sample.gridDistance Sample.outAndBack) 2 = Some cum
      /\ along == 0 /\ cum == 200 /\ ~ along == cum)
  /\ distance (findNearestPointOnTrail Sample.gridDistance Sample.pointA
                 [Sample.pointA; Sample.pointA]) = Infinity
  /\ (let r := Rounded.findNearestPointOnTrail Number.binary64 Sample.gridDistance
                 (nth 2 Sample.thereAndBack Sample.pointA) Sample.thereAndBack in
      exists along cum,
        calculateDistanceAlongTrail Sample.gridDistance (segmentIndex r) (ratio r)
          Sample.thereAndBack (cumulativeDistances Sample.gridDistance Sample.thereAndBack)
        = Some along
        /\ nth_error (cumulativeDistances Sample.gridDistance Sample.thereAndBack) 2 = Some cum
        /\ segmentIndex r = 0%nat /\ along == 0 /\ cum == (3125 # 16) /\ ~ along == cum).
Proof.
  split; [|split; [reflexivity|]].
  - eexists _, _. split; [vm_compute; reflexivity|]. split; [vm_compute; reflexivity|].
    split; [reflexivity|]. split; [reflexivity|]. intros H. discriminate H.
  - cbv zeta. eexists _, _. split; [vm_compute; reflexivity|].
    split; [vm_compute; reflexivity|]. split; [vm_compute; reflexivity|].
    split; [reflexivity|]. split; [reflexivity|]. intros H. discriminate H.
Qed.

(** The theorem for the rounding to the nearest double.  On the corner
    reached from (0.2, 0) the end of the first segment is computed as
    0.2 + (0.9 - 0.2), which is not 0.9: the vertex 1 is found on the
    segment 1 that starts at it.  On the course that stops at D the end
    of the first segment is computed exactly, and the last vertex is
    found on it. *)
Lemma C6_vertex_projection_witness :
  (let r := Rounded.findNearestPointOnTrail Number.binary64 Sample.gridDistance
              (nth 1 Sample.decimalCorner (mkLatLng 0 0)) Sample.decimalCorner in
   segmentIndex r = 1%nat
   /\ exists along,
        calculateDistanceAlongTrail Sample.gridDistance (segmentIndex r) (ratio r)
          Sample.decimalCorner (cumulativeDistances Sample.gridDistance Sample.decimalCorner)
        = Some along
        /\ along == nth 1 (cumulativeDistances Sample.gridDistance Sample.decimalCorner) 0)
  /\ (let r := Rounded.findNearestPointOnTrail Number.binary64 Sample.gridDistance
                 (nth 2 Sample.stopAtD (mkLatLng 0 0)) Sample.stopAtD in
      segmentIndex r = 0%nat
      /\ exists along,
           calculateDistanceAlongTrail Sample.gridDistance (segmentIndex r) (ratio r)
             Sample.stopAtD (cumulativeDistances Sample.gridDistance Sample.stopAtD)
           = Some along
           /\ along == nth 2 (cumulativeDistances Sample.gridDistance Sample.stopAtD) 0).
Proof.
  assert (Hcorner : forall p, In p Sample.decimalCorner ->
            Number.binary64 (lat p) == lat p /\ Number.binary64 (lng p) == lng p).
  { intros p [<- | [<- | [<- | []]]]; split; vm_compute; reflexivity. }
  assert (Hstop : forall p, In p Sample.stopAtD ->
            Number.binary64 (lat p) == lat p /\ Number.binary64 (lng p) == lng p).
  { intros p [<- | [<- | [<- | []]]]; split; vm_compute; reflexivity. }
  split; cbv zeta.
  - destruct (proj1 (C6_vertex_projection Number.binary64 NumberFacts.binary64_rounding
                       Sample.gridDistance gridDistance_nonneg gridDistance_same
                       Sample.decimalCorner Hcorner 1) 1%nat)
      as (_ & Hindex & _ & Halong).
    + split; [split; [simpl; lia | split]|].
      * intros H. vm_compute in H. discriminate H.
      * vm_compute. reflexivity.
      * intros i Hi. assert (i = 0%nat) as -> by lia. right. vm_compute. reflexivity.
    + split; [exact Hindex|]. apply Halong. left.
      split; [split; reflexivity | reflexivity].
  - destruct (proj1 (C6_vertex_projection Number.binary64 NumberFacts.binary64_rounding
                       Sample.gridDistance gridDistance_nonneg gridDistance_same
                       Sample.stopAtD Hstop 2) 0%nat)
      as (_ & Hindex & _ & Halong).
    + split; [split; [simpl; lia | split]|].
      * intros H. vm_compute in H. discriminate H.
      * vm_compute. reflexivity.
      * intros i Hi. lia.
    + split; [exact Hindex|]. apply Halong. right.
      split; [split; reflexivity|]. split; [unfold Qle; vm_compute; discriminate|].
      vm_compute. reflexivity.
Defined.

Lemma C5_indexing_is_safe_witness :
  exists n0 index,
    forall fuel, (n0 <= fuel)%nat ->
      calculateSpotPositions Sample.gridDistance POTENTIAL_SPOT_INTERVAL fuel Sample.slowStart
      = Done index.
Proof.
  apply (C5_indexing_is_safe Sample.gridDistance POTENTIAL_SPOT_INTERVAL).
  - reflexivity.
  - exact gridDistance_nonneg.
  - simpl. lia.
Defined.

Lemma C3_candidate_coverage_witness :
  exists n0 index,
    (forall fuel, (n0 <= fuel)%nat ->
       calculateSpotPositions Sample.gridDistance POTENTIAL_SPOT_INTERVAL fuel Sample.tenPoints
       = Done index)
    /\ length (markerPositions index) = 90%nat.
Proof.
  destruct (C3_candidate_coverage Sample.gridDistance POTENTIAL_SPOT_INTERVAL
              eq_refl gridDistance_nonneg Sample.tenPoints)
    as (n0 & index & Hrun & _ & _ & _ & _ & _ & Hninety).
  - simpl. lia.
  - exists n0, index. split; [exact Hrun|]. apply Hninety.
    + reflexivity.
    + reflexivity.
    + intros i Hi.
      destruct i as [|[|[|[|[|[|[|[|[|i]]]]]]]]]; try lia; reflexivity.
Defined.

End MapFacts.

(* ================================================================== *)
(** * Further properties of the course indexer *)
(* ================================================================== *)

Module MapExtra.

Import MapComponent MapFacts.

Lemma cumulativeFrom_above (distanceTo : LatLng -> LatLng -> Q) (rest : list LatLng) :
  (forall p q, 0 <= distanceTo p q) ->
  forall (prev : LatLng) (total : Q),
    StronglySorted Qle (total :: cumulativeFrom distanceTo prev total rest).
Proof.
  intros Hnonneg. induction rest as [|p rest IH]; intros prev total; cbn [cumulativeFrom].
  - repeat constructor.
  - specialize (IH p (total + distanceTo prev p)).
    constructor; [exact IH|].
    pose proof (Hnonneg prev p) as Hd.
    constructor; [lra|].
    inversion IH as [|? ? _ Hall]; subst.
    eapply Forall_impl; [|exact Hall]. intros a Ha. simpl in Ha. lra.
Qed.

(** The table of cumulative distances of a track of two points or more
    has one entry for each point, starts at 0, never decreases, and grows
    from one point to the next by the distance between them. *)
Theorem cumulative_table_shape :
  forall (distanceTo : LatLng -> LatLng -> Q) (points : list LatLng),
    (forall p q, 0 <= distanceTo p q) ->
    (2 <= length points)%nat ->
    let table := cumulativeDistances distanceTo points in
    length table = length points
    /\ nth_error table 0 = Some 0
    /\ StronglySorted Qle table
    /\ forall i, (S i < length points)%nat ->
         nth (S i) table 0
         = nth i table 0
           + distanceTo (nth i points (mkLatLng 0 0)) (nth (S i) points (mkLatLng 0 0)).
Proof.
  intros distanceTo points Hnonneg Hlen. cbv zeta.
  split; [now apply cumulativeDistances_length|].
  split; [|split].
  - destruct points as [|p0 [|p1 rest]]; simpl in Hlen; try lia. reflexivity.
  - destruct points as [|p0 [|p1 rest]]; simpl in Hlen; try lia.
    unfold cumulativeDistances. now apply cumulativeFrom_above.
  - intros i Hi. now apply cumulativeDistances_step.
Qed.

Lemma cumulative_table_shape_witness :
  StronglySorted Qle (cumulativeDistances Sample.gridDistance Sample.outAndBack).
Proof.
  apply (cumulative_table_shape Sample.gridDistance Sample.outAndBack gridDistance_nonneg).
  simpl. lia.
Defined.

(** ** The order and the range of the candidate keys *)

Lemma marks_increasing (interval : Q) (k : nat) :
  0 < interval -> StronglySorted Qlt (marks interval k).
Proof.
  intros HI. induction k as [|k IH]; [constructor|].
  rewrite marks_S.
  assert (Hall : Forall (fun x => x < inject_Z (Z.of_nat (S k)) * interval) (marks interval k)).
  { apply Forall_forall. intros x Hx. destruct (marks_In _ _ _ Hx) as (j & Hj & ->).
    apply Qmult_lt_compat_r; [exact HI|]. rewrite <- Zlt_Qlt. lia. }
  clear - IH Hall. induction IH as [|x l Hs IHs Hx]; simpl.
  - repeat constructor.
  - inversion Hall as [|? ? Hx' Hall']; subst. constructor; [now apply IHs|].
    apply Forall_app. split; [exact Hx | now repeat constructor].
Qed.

Lemma sorted_Forall2 (l1 l2 : list Q) :
  Forall2 Qeq l1 l2 -> StronglySorted Qlt l2 -> StronglySorted Qlt l1.
Proof.
  induction 1 as [|x y l1 l2 Hxy HF IH]; intros Hs; [constructor|].
  inversion Hs as [|? ? Hs' Hall]; subst. constructor; [now apply IH|].
  clear - Hxy HF Hall. induction HF as [|a b l1 l2 Hab _ IHF]; [constructor|].
  inversion Hall as [|? ? Hyb Hall']; subst.
  constructor; [rewrite Hxy, Hab; exact Hyb | now apply IHF].
Qed.

Lemma expectedKeys_increasing (interval total : Q) (k : nat) :
  0 < interval ->
  Qfloor (total / interval) = Z.of_nat k ->
  inject_Z (Z.of_nat k) * interval <= total ->
  StronglySorted Qlt (expectedKeys interval total).
Proof.
  intros HI Hfloor Hlow. unfold expectedKeys, finishCoincides.
  rewrite Hfloor, Nat2Z.id.
  destruct ((1 <=? k)%nat && Qeq_bool total (inject_Z (Z.of_nat k) * interval))%bool eqn:E.
  - rewrite app_nil_r. now apply marks_increasing.
  - assert (Hall : Forall (fun x => x < total) (marks interval k)).
    { apply Forall_forall. intros x Hx. destruct (marks_In _ _ _ Hx) as (j & Hj & ->).
      apply andb_false_iff in E. destruct E as [Hk | Hne]; [apply Nat.leb_gt in Hk; lia|].
      apply Qeq_bool_false_iff in Hne.
      assert (inject_Z (Z.of_nat j) * interval <= inject_Z (Z.of_nat k) * interval)
        by (apply Qmult_le_compat_r; [apply inject_Z_nat_le; lia | lra]).
      destruct (Qlt_le_dec (inject_Z (Z.of_nat k) * interval) total); [lra|].
      exfalso. apply Hne. lra. }
    pose proof (marks_increasing interval k HI) as Hs. clear - Hs Hall.
    induction Hs as [|x l Hs IHs Hx]; simpl.
    + repeat constructor.
    + inversion Hall as [|? ? Hx' Hall']; subst. constructor; [now apply IHs|].
      apply Forall_app. split; [exact Hx | now repeat constructor].
Qed.

(** The keys of the candidate Map come in strictly ascending insertion
    order and lie between 0 and the length of the course; the 5 km Map
    holds the multiples of 5000 up to that length. *)
Theorem candidate_keys_ascending_in_range :
  forall (distanceTo : LatLng -> LatLng -> Q) (interval : Q) (points : list LatLng),
    0 < interval ->
    (forall p q, 0 <= distanceTo p q) ->
    (2 <= length points)%nat ->
    exists n0 index,
      (forall fuel, (n0 <= fuel)%nat ->
         calculateSpotPositions distanceTo interval fuel points = Done index)
      /\ StronglySorted Qlt (map_keys (markerPositions index))
      /\ (forall key, In key (map_keys (markerPositions index)) ->
            0 <= key <= totalTrackDistance index)
      /\ Forall2 Qeq (map_keys (fiveKmMarkers index))
           (marks 5000 (Z.to_nat (Qfloor (totalTrackDistance index / 5000)))).
Proof.
  intros distanceTo interval points HI Hnonneg Hlen.
  destruct points as [|p0 [|p1 rest]]; simpl in Hlen; try lia.
  destruct (calculateSpotPositions_run distanceTo interval HI Hnonneg p0 p1 rest)
    as (n0 & st & k & kf & Hrun & [Hinv Hfive] & _).
  eexists n0, _. split; [exact Hrun|].
  cbn [totalTrackDistance markerPositions fiveKmMarkers].
  pose proof (finish_keys interval HI _ _ _ k (last (p0 :: p1 :: rest) p0) Hinv) as Hkeys.
  pose proof (MarkInv_floor interval HI _ _ _ _ Hinv) as Hfloor.
  pose proof Hinv as (_ & _ & Hlow & _).
  split; [|split].
  - eapply sorted_Forall2; [exact Hkeys|].
    now apply (expectedKeys_increasing interval _ k).
  - intros key Hin.
    assert (HkeyIn : keyIn key (map_set (totalDistance st) (last (p0 :: p1 :: rest) p0)
                                  (newMarkerPositions st)))
      by (exists key; split; [exact Hin | reflexivity]).
    apply (keyIn_Forall2 _ _ key Hkeys) in HkeyIn.
    apply expectedKeys_member in HkeyIn.
    assert (Hk0 : 0 <= inject_Z (Z.of_nat k)) by (rewrite <- (Zle_Qle 0); lia).
    assert (Htot : 0 <= totalDistance st)
      by (pose proof (Qmult_le_0_compat _ _ Hk0 (Qlt_le_weak _ _ HI)); lra).
    destruct HkeyIn as [(j & Hj & Hq) | Hq]; [|lra].
    rewrite Hfloor, Nat2Z.id in Hj.
    assert (Hj0 : 0 <= inject_Z (Z.of_nat j)) by (rewrite <- (Zle_Qle 0); lia).
    assert (inject_Z (Z.of_nat j) * interval <= inject_Z (Z.of_nat k) * interval)
      by (apply Qmult_le_compat_r; [apply inject_Z_nat_le; lia | lra]).
    pose proof (Qmult_le_0_compat _ _ Hj0 (Qlt_le_weak _ _ HI)). lra.
  - pose proof (MarkInv_floor FIVE_KM eq_refl _ _ _ _ Hfive) as Hfloor5.
    change FIVE_KM with 5000 in Hfloor5. rewrite Hfloor5, Nat2Z.id.
    destruct Hfive as (_ & H5 & _). exact H5.
Qed.

Lemma candidate_keys_ascending_in_range_witness :
  exists n0 index,
    (forall fuel, (n0 <= fuel)%nat ->
       calculateSpotPositions Sample.gridDistance POTENTIAL_SPOT_INTERVAL fuel Sample.corner
       = Done index)
    /\ StronglySorted Qlt (map_keys (markerPositions index)).
Proof.
  destruct (candidate_keys_ascending_in_range Sample.gridDistance POTENTIAL_SPOT_INTERVAL
              Sample.corner eq_refl gridDistance_nonneg)
    as (n0 & index & Hrun & Hsorted & _).
  - simpl. lia.
  - exists n0, index. split; assumption.
Defined.

(** ** The nearest point, for any query point *)

Lemma project_ratio_range (latlng p1 p2 : LatLng) :
  0 <= fst (projectOnSegment latlng p1 p2) <= 1.
Proof.
  unfold projectOnSegment. cbn [fst].
  match goal with |- 0 <= Qmax 0 (Qmin 1 ?t) <= 1 => generalize t end.
  intros t. split.
  - apply Q.le_max_l.
  - apply Q.max_lub; [lra | apply Q.le_min_l].
Qed.

Lemma sorted_Qle_nth (l : list Q) :
  StronglySorted Qle l ->
  forall i j, (i <= j)%nat -> (j < length l)%nat -> nth i l 0 <= nth j l 0.
Proof.
  induction 1 as [|x l Hs IH Hall]; intros i j Hij Hj; simpl in Hj; [lia|].
  destruct i as [|i], j as [|j]; simpl; try lia.
  - lra.
  - rewrite Forall_forall in Hall. apply Hall. apply nth_In. lia.
  - apply IH; lia.
Qed.

Section AnyPoint.

Variable distanceTo : LatLng -> LatLng -> Q.
Variable latlng : LatLng.
Variable points : list LatLng.

Local Abbreviation origin := (mkLatLng 0 0).
Local Abbreviation segmentLength :=
  (fun j : nat => distanceTo (nth j points origin) (nth (S j) points origin)).
Local Abbreviation projection :=
  (fun j : nat => projectOnSegment latlng (nth j points origin) (nth (S j) points origin)).
Local Abbreviation projectionDistance :=
  (fun j : nat => distanceTo latlng (snd (projection j))).

(** What the loop knows after the segments before [i]. *)
Definition Searched (i : nat) (best : Nearest) : Prop :=
  0 <= ratio best <= 1
  /\ (forall j, (j < i)%nat -> ~ segmentLength j == 0 ->
        xlt (Fin (projectionDistance j)) (distance best) = false)
  /\ match distance best with
     | Fin d =>
         exists j, (j < i)%nat /\ ~ segmentLength j == 0
                   /\ segmentIndex best = j
                   /\ d = projectionDistance j
                   /\ ratio best = fst (projection j)
                   /\ point best = Some (snd (projection j))
     | Infinity =>
         (forall j, (j < i)%nat -> segmentLength j == 0)
         /\ segmentIndex best = 0%nat /\ ratio best = 0
         /\ point best = nth_error points 0
     end.

Lemma nearestLoop_searched (rest : list LatLng) :
  forall (i : nat) (p1 : LatLng) (best : Nearest),
    p1 = nth i points origin ->
    rest = skipn (S i) points ->
    Searched i best ->
    Searched (i + length rest) (nearestLoop distanceTo latlng i p1 rest best).
Proof.
  induction rest as [|p2 rest IH]; intros i p1 best Hp1 Hrest Hinv.
  - cbn [nearestLoop length]. now rewrite Nat.add_0_r.
  - symmetry in Hrest. destruct (skipn_cons_nth origin _ _ _ _ Hrest) as [Hp2 Hrest'].
    cbn [nearestLoop length]. subst p1. rewrite <- Hp2.
    replace (i + S (length rest))%nat with (S i + length rest)%nat by lia.
    destruct Hinv as (Hratio & Hmin & Hbest).
    destruct (Qeq_bool (segmentLength i) 0) eqn:Elen.
    { apply Qeq_bool_iff in Elen.
      apply IH; [reflexivity | now symmetry |]. split; [exact Hratio|]. split.
      - intros j Hj Hnz. destruct (Nat.eq_dec j i) as [->|Hne]; [contradiction|].
        apply Hmin; [lia | exact Hnz].
      - destruct (distance best) as [d|].
        + destruct Hbest as (j & Hj & Hrest0). exists j. split; [lia | exact Hrest0].
        + destruct Hbest as (Hall & Hrest0). split; [|exact Hrest0].
          intros j Hj. destruct (Nat.eq_dec j i) as [->|Hne]; [exact Elen|].
          apply Hall. lia. }
    apply Qeq_bool_false_iff in Elen.
    pose proof (project_ratio_range latlng (nth i points origin) (nth (S i) points origin))
      as Hrange.
    destruct (projection i) as [r pt] eqn:Eproj. cbn [fst] in Hrange.
    assert (Hdist : distanceTo latlng pt = projectionDistance i) by (now rewrite Eproj).
    destruct (xlt (Fin (distanceTo latlng pt)) (distance best)) eqn:Elt.
    + apply IH; [reflexivity | now symmetry |].
      split; [exact Hrange|]. split.
      * intros j Hj Hnz. cbn [distance xlt].
        apply Qlt_bool_false_iff.
        destruct (Nat.eq_dec j i) as [->|Hne]; [rewrite Hdist; lra|].
        specialize (Hmin j ltac:(lia) Hnz).
        destruct (distance best) as [d|]; [|discriminate Hmin].
        cbn [xlt] in Hmin, Elt. apply Qlt_bool_false_iff in Hmin.
        apply Qlt_bool_iff in Elt. lra.
      * cbn [distance]. exists i. repeat split; auto; try lia.
        -- cbn [ratio]. now rewrite Eproj.
        -- cbn [point]. now rewrite Eproj.
    + apply IH; [reflexivity | now symmetry |].
      split; [exact Hratio|]. split.
      * intros j Hj Hnz. destruct (Nat.eq_dec j i) as [->|Hne].
        -- rewrite <- Hdist. exact Elt.
        -- apply Hmin; [lia | exact Hnz].
      * destruct (distance best) as [d|].
        -- destruct Hbest as (j & Hj & Hrest0). exists j. split; [lia | exact Hrest0].
        -- discriminate Elt.
Qed.

Lemma findNearest_searched :
  (2 <= length points)%nat ->
  Searched (length points - 1) (findNearestPointOnTrail distanceTo latlng points).
Proof.
  intros Hlen. unfold findNearestPointOnTrail.
  set (start := mkNearest Infinity (nth_error points 0) 0 0).
  assert (E : match points with
              | [] => start
              | p0 :: rest => nearestLoop distanceTo latlng 0 p0 rest start
              end = nearestLoop distanceTo latlng 0 (nth 0 points origin) (skipn 1 points) start).
  { clear - Hlen. destruct points as [|p0 rest]; [simpl in Hlen; lia | reflexivity]. }
  rewrite E.
  replace (length points - 1)%nat with (0 + length (skipn 1 points))%nat
    by (rewrite length_skipn; lia).
  apply nearestLoop_searched; [reflexivity | reflexivity |].
  subst start. unfold Searched. cbn [ratio distance segmentIndex point].
  split; [lra|]. split; [intros j Hj; lia|].
  repeat split. intros j Hj. lia.
Qed.

(** For any query point and a course of two points or more, the projector
    returns a ratio between 0 and 1 and the index of a segment of the
    course; when the distance it returns is finite, that segment has a
    length that is not zero and the ratio, the point and the distance are
    those of the projection of the query point on it. *)
Theorem nearest_point_is_attained :
  (2 <= length points)%nat ->
  let r := findNearestPointOnTrail distanceTo latlng points in
  0 <= ratio r <= 1
  /\ (S (segmentIndex r) < length points)%nat
  /\ forall d, distance r = Fin d ->
       ~ segmentLength (segmentIndex r) == 0
       /\ ratio r = fst (projection (segmentIndex r))
       /\ point r = Some (snd (projection (segmentIndex r)))
       /\ d = distanceTo latlng (snd (projection (segmentIndex r))).
Proof.
  intros Hlen. cbv zeta.
  destruct (findNearest_searched Hlen) as (Hratio & _ & Hbest).
  split; [exact Hratio|].
  destruct (distance (findNearestPointOnTrail distanceTo latlng points)) as [d0|].
  - destruct Hbest as (j & Hj & Hnz & Hidx & Hd & Hr & Hp).
    split; [lia|]. intros d [= <-]. rewrite Hidx. auto.
  - destruct Hbest as (_ & Hidx & _). split; [lia | discriminate].
Qed.

(** The distance returned is finite and no larger than the distance to
    the projection on any segment whose length is not zero. *)
Theorem nearest_point_is_nearest :
  (2 <= length points)%nat ->
  forall j, (S j < length points)%nat -> ~ segmentLength j == 0 ->
    exists d, distance (findNearestPointOnTrail distanceTo latlng points) = Fin d
              /\ d <= projectionDistance j.
Proof.
  intros Hlen j Hj Hnz.
  destruct (findNearest_searched Hlen) as (_ & Hmin & _).
  specialize (Hmin j ltac:(lia) Hnz).
  destruct (distance (findNearestPointOnTrail distanceTo latlng points)) as [d|];
    [|discriminate Hmin].
  exists d. split; [reflexivity|]. cbn [xlt] in Hmin. now apply Qlt_bool_false_iff in Hmin.
Qed.

(** The distance returned is Infinity exactly when every segment of the
    course has length zero. *)
Theorem no_nearest_point_iff_degenerate :
  (2 <= length points)%nat ->
  distance (findNearestPointOnTrail distanceTo latlng points) = Infinity
  <-> forall j, (S j < length points)%nat -> segmentLength j == 0.
Proof.
  intros Hlen. destruct (findNearest_searched Hlen) as (_ & _ & Hbest).
  destruct (distance (findNearestPointOnTrail distanceTo latlng points)) as [d|].
  - destruct Hbest as (j & Hj & Hnz & _). split; [discriminate|].
    intros Hall. exfalso. apply Hnz. apply Hall. lia.
  - destruct Hbest as (Hall & _). split; [|reflexivity].
    intros _ j Hj. apply Hall. lia.
Qed.

Lemma last_is_nth (l : list Q) : last l 0 = nth (length l - 1) l 0.
Proof.
  induction l as [|x l IH]; [reflexivity|].
  destruct l as [|y l]; [reflexivity|].
  change (last (x :: y :: l) 0) with (last (y :: l) 0). rewrite IH.
  simpl length. replace (S (S (length l)) - 1)%nat with (S (S (length l) - 1)) by lia.
  reflexivity.
Qed.

(** The along-course distance shown for any query point lies between the
    cumulative distances of the two ends of the segment found, and so
    between 0 and the length of the course. *)
Theorem projected_distance_in_range :
  (forall p q, 0 <= distanceTo p q) ->
  (2 <= length points)%nat ->
  let r := findNearestPointOnTrail distanceTo latlng points in
  let table := cumulativeDistances distanceTo points in
  exists d,
    projectedTrailDistance distanceTo latlng points = Some d
    /\ nth (segmentIndex r) table 0 <= d <= nth (S (segmentIndex r)) table 0
    /\ 0 <= d <= last table 0.
Proof.
  intros Hnonneg Hlen. cbv zeta. unfold projectedTrailDistance.
  destruct (findNearest_searched Hlen) as (Hratio & _ & Hbest).
  set (r := findNearestPointOnTrail distanceTo latlng points) in *.
  assert (Hidx : (S (segmentIndex r) < length points)%nat).
  { destruct (distance r); [destruct Hbest as (j & Hj & _ & -> & _) | destruct Hbest as (_ & -> & _)];
      lia. }
  set (table := cumulativeDistances distanceTo points).
  assert (Htable : length table = length points)
    by (apply cumulativeDistances_length; exact Hlen).
  assert (Hsorted : StronglySorted Qle table).
  { unfold table. clear - Hnonneg Hlen.
    destruct points as [|p0 [|p1 rest]]; simpl in Hlen; try lia.
    unfold cumulativeDistances. now apply cumulativeFrom_above. }
  assert (Hzero : nth 0 table 0 = 0).
  { unfold table. clear - Hlen.
    destruct points as [|p0 [|p1 rest]]; simpl in Hlen; try lia. reflexivity. }
  unfold calculateDistanceAlongTrail.
  rewrite (nth_error_nth' table 0 (n := segmentIndex r)) by lia.
  rewrite (nth_error_nth' points origin (n := segmentIndex r)) by lia.
  rewrite (nth_error_nth' points origin (n := S (segmentIndex r))) by lia.
  eexists. split; [reflexivity|].
  pose proof (cumulativeDistances_step distanceTo points (segmentIndex r) Hidx) as Hstep.
  fold table in Hstep.
  pose proof (Hnonneg (nth (segmentIndex r) points origin) (nth (S (segmentIndex r)) points origin))
    as Hseg.
  set (len := distanceTo (nth (segmentIndex r) points origin)
                (nth (S (segmentIndex r)) points origin)) in *.
  assert (H0 : 0 <= ratio r * len) by (apply Qmult_le_0_compat; lra).
  assert (H1 : ratio r * len <= 1 * len) by (apply Qmult_le_compat_r; lra).
  pose proof (sorted_Qle_nth table Hsorted 0 (segmentIndex r) ltac:(lia) ltac:(lia)) as Hlow.
  pose proof (sorted_Qle_nth table Hsorted (S (segmentIndex r)) (length table - 1)
                ltac:(lia) ltac:(lia)) as Hhigh.
  rewrite last_is_nth. rewrite Hzero in Hlow. rewrite Hstep in *.
  repeat split; lra.
Qed.

End AnyPoint.

Lemma nearest_point_is_attained_witness :
  0 <= ratio (findNearestPointOnTrail Sample.gridDistance Sample.pointC Sample.outAndBack) <= 1.
Proof.
  apply (nearest_point_is_attained Sample.gridDistance Sample.pointC Sample.outAndBack).
  simpl. lia.
Defined.

Lemma nearest_point_is_nearest_witness :
  exists d,
    distance (findNearestPointOnTrail Sample.gridDistance Sample.pointC Sample.outAndBack) = Fin d
    /\ d <= Sample.gridDistance Sample.pointC
              (snd (projectOnSegment Sample.pointC Sample.pointA Sample.pointB)).
Proof.
  apply (nearest_point_is_nearest Sample.gridDistance Sample.pointC Sample.outAndBack
           ltac:(simpl; lia) 0%nat).
  - simpl. lia.
  - intros H. discriminate H.
Defined.

Lemma no_nearest_point_iff_degenerate_witness :
  distance (findNearestPointOnTrail Sample.gridDistance Sample.pointC
              [Sample.pointA; Sample.pointA]) = Infinity.
Proof.
  apply (no_nearest_point_iff_degenerate Sample.gridDistance Sample.pointC
           [Sample.pointA; Sample.pointA]).
  - simpl. lia.
  - intros j Hj. simpl in Hj. assert (j = 0%nat) as -> by lia. reflexivity.
Defined.

Lemma projected_distance_in_range_witness :
  exists d,
    projectedTrailDistance Sample.gridDistance Sample.pointC Sample.corner = Some d
    /\ 0 <= d <= 200.
Proof.
  destruct (projected_distance_in_range Sample.gridDistance Sample.pointC Sample.corner
              gridDistance_nonneg ltac:(simpl; lia)) as (d & Hd & _ & Hrange).
  exists d. split; [exact Hd|].
  assert (E : last (cumulativeDistances Sample.gridDistance Sample.corner) 0 == 200)
    by reflexivity.
  rewrite E in Hrange. exact Hrange.
Defined.

(** ** Every candidate lies on the course, at its distance *)

Lemma last_nth_default {A : Type} (d d' : A) (l : list A) :
  l <> [] -> last l d = nth (length l - 1) l d'.
Proof.
  induction l as [|x l IH]; intros Hne; [contradiction|].
  destruct l as [|y l]; [reflexivity|].
  change (last (x :: y :: l) d) with (last (y :: l) d). rewrite IH by discriminate.
  simpl length. replace (S (S (length l)) - 1)%nat with (S (S (length l) - 1)) by lia.
  reflexivity.
Qed.

Lemma map_set_Forall (P : Q * LatLng -> Prop) (k : Q) (v : LatLng) (m : NumMap) :
  (forall k', k' == k -> P (k', v)) -> Forall P m -> Forall P (map_set k v m).
Proof.
  intros Hnew. induction 1 as [|[k' v'] m Hhead Htail IH]; simpl.
  - constructor; [apply Hnew; reflexivity | constructor].
  - destruct (Qeq_bool k' k) eqn:E.
    + apply Qeq_bool_iff in E. constructor; [now apply Hnew | exact Htail].
    + constructor; [exact Hhead | exact IH].
Qed.

Section OnCourse.

Variable distanceTo : LatLng -> LatLng -> Q.
Variable interval : Q.
Hypothesis interval_pos : 0 < interval.
Variable points : list LatLng.

Local Abbreviation origin := (mkLatLng 0 0).
Local Abbreviation table := (cumulativeDistances distanceTo points).
Local Abbreviation segmentLength :=
  (fun i : nat => distanceTo (nth i points origin) (nth (S i) points origin)).

(** The entry is the point of the course at the along-course distance of
    its key: it lies at the ratio [r] on the segment [i], and its key is
    the cumulative distance of the start of the segment plus that part of
    the length of the segment. *)
Definition OnCourse (e : Q * LatLng) : Prop :=
  exists (i : nat) (r : Q),
    (S i < length points)%nat /\ 0 <= r <= 1
    /\ fst e == nth i table 0 + r * segmentLength i
    /\ lat (snd e) == lat (nth i points origin)
                      + (lat (nth (S i) points origin) - lat (nth i points origin)) * r
    /\ lng (snd e) == lng (nth i points origin)
                      + (lng (nth (S i) points origin) - lng (nth i points origin)) * r.

Lemma markLoop_on_course (i : nat) (step : Q) :
  0 < step -> (S i < length points)%nat ->
  forall (fuel : nat) (next : Q) (m : NumMap) (next' : Q) (m' : NumMap),
    nth i table 0 < next ->
    Forall OnCourse m ->
    markLoop fuel (nth i points origin) (nth (S i) points origin) (segmentLength i)
      (nth i table 0) step next m = Done (next', m') ->
    Forall OnCourse m' /\ nth i table 0 + segmentLength i < next'.
Proof.
  intros Hstep Hi. induction fuel as [|fuel IH]; intros next m next' m' Htot Hm Hrun;
    cbn [markLoop] in Hrun;
    destruct (Qle_bool next (nth i table 0 + segmentLength i)) eqn:E;
    try discriminate;
    try (injection Hrun as <- <-; apply Qle_bool_false_iff in E; now split).
  apply Qle_bool_iff in E.
  assert (Hpos : 0 < segmentLength i) by lra.
  unfold jsdiv in Hrun.
  rewrite (proj2 (Qeq_bool_false_iff (segmentLength i) 0)) in Hrun by lra.
  apply IH in Hrun; [exact Hrun | lra |].
  apply map_set_Forall; [|exact Hm].
  intros k' Hk'. exists i, ((next - nth i table 0) / segmentLength i).
  split; [exact Hi|]. split; [split|].
  - apply Qle_shift_div_l; lra.
  - apply Qle_shift_div_r; lra.
  - cbn [fst snd lat lng]. split; [|split; reflexivity].
    rewrite Hk'. field. lra.
Qed.

Lemma segmentLoop_on_course (fuel : nat) (rest : list LatLng) :
  forall (i : nat) (st st' : IndexState),
    rest = skipn (S i) points ->
    totalDistance st = nth i table 0 ->
    totalDistance st < nextPotentialSpotDist st ->
    totalDistance st < nextFiveKmMark st ->
    Forall OnCourse (newMarkerPositions st) ->
    Forall OnCourse (fiveKmMarkerPositions st) ->
    segmentLoop distanceTo fuel interval (nth i points origin) rest st = Done st' ->
    Forall OnCourse (newMarkerPositions st')
    /\ Forall OnCourse (fiveKmMarkerPositions st')
    /\ totalDistance st' = nth (i + length rest) table 0.
Proof.
  induction rest as [|cur rest IH]; intros i st st' Hrest Htotal Hs Hf Hspots Hfives Hrun;
    cbn [segmentLoop] in Hrun.
  - injection Hrun as <-. cbn [length]. rewrite Nat.add_0_r. auto.
  - symmetry in Hrest. destruct (skipn_cons_nth origin _ _ _ _ Hrest) as [Hcur Hrest'].
    assert (Hi : (S i < length points)%nat).
    { destruct (Nat.lt_ge_cases (S i) (length points)) as [|Hge]; [assumption|].
      rewrite skipn_all2 in Hrest by exact Hge. discriminate. }
    rewrite <- Hcur, Htotal in Hrun.
    destruct (markLoop fuel _ _ _ _ interval _ _) as [[next1 m1]| |] eqn:E1; try discriminate.
    destruct (markLoop fuel _ _ _ _ FIVE_KM _ _) as [[next5 m5]| |] eqn:E5; try discriminate.
    rewrite Htotal in Hs, Hf.
    destruct (markLoop_on_course i interval interval_pos Hi _ _ _ _ _ Hs Hspots E1)
      as [Hm1 Hn1].
    destruct (markLoop_on_course i FIVE_KM eq_refl Hi _ _ _ _ _ Hf Hfives E5)
      as [Hm5 Hn5].
    pose proof (cumulativeDistances_step distanceTo points i Hi) as Hstep.
    apply (IH (S i)) in Hrun; cbn [totalDistance nextPotentialSpotDist nextFiveKmMark
                                    newMarkerPositions fiveKmMarkerPositions]; auto.
    cbn [length]. replace (i + S (length rest))%nat with (S i + length rest)%nat by lia.
    exact Hrun.
Qed.

(** Every entry of the candidate Map and of the 5 km Map is the point of
    the course at the along-course distance of its key: it lies on a
    segment of the track, between its two ends, at the place where the
    cumulative distance reaches the key. *)
Theorem candidates_lie_on_the_course :
  forall (fuel : nat) (index : TrackIndex),
    calculateSpotPositions distanceTo interval fuel points = Done index ->
    Forall OnCourse (markerPositions index) /\ Forall OnCourse (fiveKmMarkers index).
Proof.
  intros fuel index Hrun. unfold calculateSpotPositions in Hrun.
  destruct points as [|p0 [|p1 rest]] eqn:Epoints;
    try (injection Hrun as <-; split; constructor).
  rewrite <- Epoints in *.
  assert (Hlen : (2 <= length points)%nat) by (rewrite Epoints; simpl; lia).
  assert (Hrest : p1 :: rest = skipn 1 points) by (rewrite Epoints; reflexivity).
  assert (Hp0 : p0 = nth 0 points origin) by (rewrite Epoints; reflexivity).
  destruct (segmentLoop distanceTo fuel interval _ _ _) as [st| |] eqn:Eloop; try discriminate.
  rewrite Hp0 in Eloop.
  assert (Hstart : 0 = nth 0 table 0) by (rewrite Epoints; reflexivity).
  destruct (segmentLoop_on_course fuel (p1 :: rest) 0
              (mkIndexState 0 interval FIVE_KM [] []) st Hrest Hstart
              interval_pos eq_refl (Forall_nil _) (Forall_nil _) Eloop)
    as (Hspots & Hfives & Htotal).
  injection Hrun as <-. cbn [markerPositions fiveKmMarkers]. split; [|exact Hfives].
  apply map_set_Forall; [|exact Hspots].
  intros k' Hk'. exists (length points - 2)%nat, 1.
  assert (Hn : (0 + length (p1 :: rest))%nat = S (length points - 2))
    by (rewrite Epoints; simpl; lia).
  rewrite Hn in Htotal.
  assert (Hsi : (S (length points - 2) < length points)%nat) by lia.
  rewrite (cumulativeDistances_step distanceTo points _ Hsi) in Htotal.
  assert (Hlast : last points p0 = nth (S (length points - 2)) points origin).
  { rewrite (last_nth_default p0 origin) by (rewrite Epoints; discriminate).
    f_equal. lia. }
  split; [exact Hsi|]. split; [lra|]. cbn [fst snd]. rewrite Hlast.
  split; [rewrite Hk', Htotal; lra | split; lra].
Qed.

End OnCourse.

Lemma candidates_lie_on_the_course_witness :
  exists index,
    calculateSpotPositions Sample.gridDistance POTENTIAL_SPOT_INTERVAL 5 Sample.corner
    = Done index
    /\ map_keys (markerPositions index) = [50; 100; 150; 200]
    /\ Forall (OnCourse Sample.gridDistance Sample.corner) (markerPositions index).
Proof.
  assert (Hrun : { index | calculateSpotPositions Sample.gridDistance
                             POTENTIAL_SPOT_INTERVAL 5 Sample.corner = Done index
                           /\ map_keys (markerPositions index) = [50; 100; 150; 200] }).
  { vm_compute. eexists. split; reflexivity. }
  destruct Hrun as [index [Hrun Hkeys]]. exists index.
  split; [exact Hrun | split; [exact Hkeys|]].
  apply (candidates_lie_on_the_course Sample.gridDistance POTENTIAL_SPOT_INTERVAL eq_refl
           Sample.corner 5 index Hrun).
Defined.

End MapExtra.

(* ================================================================== *)
(** * Further properties of the suggestion callback and of the planner *)
(* ================================================================== *)

Module AppExtra.

Import Utils App Planner AppFacts.

(** ** Toggling a spot *)

Lemma setHas_iff (d : Q) (l : list Q) : setHas d l = true <-> exists x, In x l /\ d == x.
Proof.
  unfold setHas. rewrite existsb_exists. split; intros (x & Hx & E); exists x;
    (split; [exact Hx|]); now apply Qeq_bool_iff.
Qed.

Lemma setHas_delete (d x : Q) (l : list Q) :
  setHas x (setDelete d l) = (negb (Qeq_bool d x) && setHas x l)%bool.
Proof.
  unfold setDelete, setHas. induction l as [|y l IH]; simpl; [now rewrite andb_false_r|].
  destruct (Qeq_bool d y) eqn:Edy; simpl; rewrite IH.
  - destruct (Qeq_bool x y) eqn:Exy; simpl; [|reflexivity].
    apply Qeq_bool_iff in Edy, Exy.
    assert (Hdx : Qeq_bool d x = true) by (apply Qeq_bool_iff; now rewrite Edy, Exy).
    now rewrite Hdx.
  - destruct (Qeq_bool x y) eqn:Exy; simpl; [|reflexivity].
    apply Qeq_bool_iff in Exy. apply Qeq_bool_false_iff in Edy.
    assert (Hdx : Qeq_bool d x = false)
      by (apply Qeq_bool_false_iff; intros H; apply Edy; now rewrite H, Exy).
    now rewrite Hdx.
Qed.

Lemma setHas_app (x : Q) (l1 l2 : list Q) :
  setHas x (l1 ++ l2) = (setHas x l1 || setHas x l2)%bool.
Proof. unfold setHas. apply existsb_app. Qed.

Lemma Qeq_bool_sym (a b : Q) : Qeq_bool a b = Qeq_bool b a.
Proof.
  destruct (Qeq_bool a b) eqn:E1, (Qeq_bool b a) eqn:E2; try reflexivity.
  - apply Qeq_bool_iff in E1. apply Qeq_bool_false_iff in E2. exfalso. apply E2. now symmetry.
  - apply Qeq_bool_iff in E2. apply Qeq_bool_false_iff in E1. exfalso. apply E1. now symmetry.
Qed.

Lemma setHas_compat (d x : Q) (l : list Q) : d == x -> setHas d l = setHas x l.
Proof.
  intros E. unfold setHas. induction l as [|y l IH]; simpl; [reflexivity|].
  rewrite IH. f_equal.
  destruct (Qeq_bool d y) eqn:E1, (Qeq_bool x y) eqn:E2; try reflexivity.
  - apply Qeq_bool_iff in E1. apply Qeq_bool_false_iff in E2. exfalso. apply E2.
    now rewrite <- E.
  - apply Qeq_bool_iff in E2. apply Qeq_bool_false_iff in E1. exfalso. apply E1.
    now rewrite E.
Qed.

Lemma setHas_toggle (d x : Q) (l : list Q) :
  setHas x (toggleSpot d l) = if Qeq_bool d x then negb (setHas d l) else setHas x l.
Proof.
  unfold toggleSpot, setAdd. destruct (setHas d l) eqn:Hd.
  - rewrite setHas_delete. destruct (Qeq_bool d x); reflexivity.
  - rewrite setHas_app. cbn [setHas existsb]. rewrite orb_false_r.
    rewrite (Qeq_bool_sym x d).
    destruct (Qeq_bool d x) eqn:E.
    + apply Qeq_bool_iff in E. rewrite <- (setHas_compat d x l E), Hd. reflexivity.
    + now rewrite orb_false_r.
Qed.

(** Toggling a distance flips its membership in the selection and leaves
    the membership of every other distance as it is; toggling it twice
    gives the selection back, as a set. *)
Theorem toggle_flips_membership :
  forall (d x : Q) (st : AppState),
    setHas x (selectedSpots (handleSpotToggle d st))
    = (if Qeq_bool d x then negb (setHas d (selectedSpots st))
       else setHas x (selectedSpots st))
    /\ setHas x (selectedSpots (handleSpotToggle d (handleSpotToggle d st)))
       = setHas x (selectedSpots st).
Proof.
  intros d x st. unfold handleSpotToggle. cbn [selectedSpots withSelectedSpots].
  split; [apply setHas_toggle|].
  rewrite !setHas_toggle.
  rewrite (proj2 (Qeq_bool_iff d d) (Qeq_refl d)).
  destruct (Qeq_bool d x) eqn:E.
  - rewrite negb_involutive. apply Qeq_bool_iff in E. now apply setHas_compat.
  - reflexivity.
Qed.

(** ** The guard of the callback *)

Lemma filter_none {A : Type} (f : A -> bool) (l : list A) :
  (forall x, In x l -> f x = false) -> filter f l = [].
Proof.
  induction l as [|x l IH]; intros H; simpl; [reflexivity|].
  rewrite (H x (or_introl eq_refl)). apply IH. intros y Hy. apply H. now right.
Qed.

(** Without a course line, with a number of spots that is not positive,
    or with a skip distance beyond every marker, the callback empties the
    selection and shows no alert, whatever the strategy and the pace. *)
Theorem guard_clears_selection :
  forall (distanceTo : LatLng -> LatLng -> Q)
         (lineIntersect : LineString -> LineString -> list Position)
         (turfDistance : Position -> Position -> Q) (st : AppState),
    gpxCourseLine st = None
    \/ (numSpotsToSuggest st <= 0)%Z
    \/ (forall e, In e (markerPositions st) -> fst e < skipFirstKm st * 1000) ->
    handleSuggestSpots distanceTo lineIntersect turfDistance st = (withSelectedSpots st [], []).
Proof.
  intros distanceTo lineIntersect turfDistance st H.
  unfold handleSuggestSpots.
  assert (E : suggestSpots distanceTo lineIntersect turfDistance st = Cleared);
    [|now rewrite E].
  unfold suggestSpots. destruct (gpxCourseLine st) as [course|]; [|reflexivity].
  destruct H as [H | [H | H]]; [discriminate| |].
  - destruct (Z.leb_spec (numSpotsToSuggest st) 0); [|lia]. now rewrite orb_true_r.
  - unfold potentiallyAvailableMarkers. rewrite filter_none; [reflexivity|].
    intros e He. apply Qle_bool_false_iff. now apply H.
Qed.

Lemma guard_clears_selection_witness :
  handleSuggestSpots Sample.gridDistance Sample.noIntersect Sample.gridPosDistance
    (mkAppState "abc" [3000] Sample.sampleMarkers walking (Some Sample.sampleCourse)
       3 minTravel 10)
  = (withSelectedSpots
       (mkAppState "abc" [3000] Sample.sampleMarkers walking (Some Sample.sampleCourse)
          3 minTravel 10) [], []).
Proof.
  apply guard_clears_selection. right. right.
  intros e He. simpl in He.
  destruct He as [<- | [<- | [<- | [<- | []]]]]; reflexivity.
Defined.

(** ** The two number inputs of the sidebar *)

(** Whatever is typed, the number of spots handed on is 1 or more, and no
    more than the number of markers when there are markers; the skip
    distance handed on is never negative. *)
Theorem sidebar_inputs_are_clamped :
  forall (value : string) (maxAvailableSpots : Z),
    (1 <= Sidebar.handleNumSpotsInputChange value maxAvailableSpots)%Z
    /\ ((0 < maxAvailableSpots)%Z ->
        (Sidebar.handleNumSpotsInputChange value maxAvailableSpots <= maxAvailableSpots)%Z)
    /\ (0 <= Sidebar.handleSkipKmInputChange value)%Z.
Proof.
  intros value mx. unfold Sidebar.handleNumSpotsInputChange, Sidebar.handleSkipKmInputChange.
  destruct (parseInt value) as [n|].
  - destruct (Z.ltb_spec n 1), (Z.ltb_spec 0 mx); cbn [andb];
      try destruct (Z.ltb_spec mx 1); try destruct (Z.ltb_spec mx n);
      destruct (Z.ltb_spec n 0); repeat split; lia.
  - destruct (Z.ltb_spec 1 1); [lia|].
    destruct (Z.ltb_spec 0 mx); cbn [andb]; try destruct (Z.ltb_spec mx 1);
      repeat split; lia.
Qed.

(** ** What is suggested comes from the pool *)

Section Suggested.

Variable distanceTo : LatLng -> LatLng -> Q.
Variable lineIntersect : LineString -> LineString -> list Position.
Variable turfDistance : Position -> Position -> Q.

Local Abbreviation greedyWalk := (App.greedyWalk distanceTo lineIntersect turfDistance).
Local Abbreviation bestNextSpot := (App.bestNextSpot distanceTo lineIntersect turfDistance).
Local Abbreviation isFeasible := (App.isFeasible distanceTo lineIntersect turfDistance).
Local Abbreviation suggestSpots := (App.suggestSpots distanceTo lineIntersect turfDistance).
Local Abbreviation handleSuggestSpots :=
  (App.handleSuggestSpots distanceTo lineIntersect turfDistance).

Lemma greedyWalk_from_pool (course : LineString) (profile : TravelProfile) (pace : Q)
    (pool : list entry) (remaining : nat) :
  forall (lastDistance : Q) (lastLatLng : LatLng) (usedIndices : list nat) (d : Q),
    In d (greedyWalk course profile pace pool remaining lastDistance lastLatLng usedIndices) ->
    In d (map fst pool).
Proof.
  induction remaining as [|remaining IH]; intros lastD lastP used d Hin;
    cbn [App.greedyWalk] in Hin; [destruct Hin|].
  pose proof (bestNextSpot_spec distanceTo lineIntersect turfDistance course profile pace
                lastD lastP used pool) as Hbest.
  destruct (bestNextSpot course profile pace lastD lastP used pool) as [k|]; [|destruct Hin].
  destruct Hbest as (ek & Hk & _).
  rewrite (nth_error_nth pool k noEntry Hk) in Hin.
  destruct ek as [nextDist nextLatLng]. destruct Hin as [<- | Hin].
  - apply nth_error_In in Hk. now apply (in_map fst) in Hk.
  - now apply IH in Hin.
Qed.

Lemma maxSpread_from_pool (pool : list entry) (numToSelect : Z) (d : Q) :
  In d (maxSpreadDistances pool numToSelect) -> In d (map fst pool).
Proof.
  unfold maxSpreadDistances.
  destruct ((numToSelect =? 1)%Z && (0 <? Z.of_nat (length pool))%Z)%bool eqn:E1.
  - apply andb_true_iff in E1. destruct E1 as [_ Hlen]. apply Z.ltb_lt in Hlen.
    intros [<- | []]. apply in_map. apply nth_In. lia.
  - destruct ((1 <? numToSelect)%Z && (1 <? Z.of_nat (length pool))%Z)%bool eqn:E2;
      [|intros []].
    apply andb_true_iff in E2. destruct E2 as [_ Hlen]. apply Z.ltb_lt in Hlen.
    rewrite in_map_iff. intros (i & <- & _). apply in_map. apply nth_In. lia.
Qed.

(** Every distance that a run suggests is the distance of a marker and is
    at or after the skip distance. *)
Theorem suggested_is_marker_after_skip :
  forall (st : AppState) (suggested : list Q),
    suggestSpots st = Suggested suggested ->
    forall d, In d suggested ->
      skipFirstKm st * 1000 <= d
      /\ exists position, In (d, position) (markerPositions st).
Proof.
  intros st suggested Hrun d Hin.
  assert (Hpool : In d (map fst (potentiallyAvailableMarkers (markerPositions st) (skipFirstKm st)))).
  { unfold App.suggestSpots in Hrun.
    destruct (gpxCourseLine st) as [course|]; [|discriminate].
    destruct (_ || _)%bool; [discriminate|].
    destruct (suggestionStrategy st).
    - injection Hrun as <-. now apply maxSpread_from_pool in Hin.
    - destruct (parsePaceToSecondsPerMeter (runnerPace st)) as [pace|]; [|discriminate].
      destruct (length _ =? 0)%nat; [discriminate|].
      injection Hrun as <-. unfold App.minTravelDistances in Hin.
      destruct (potentiallyAvailableMarkers _ _) as [|first others] eqn:Epool; [destruct Hin|].
      destruct Hin as [<- | Hin]; [now left|].
      now apply greedyWalk_from_pool in Hin. }
  apply in_map_iff in Hpool. destruct Hpool as ([d' position] & Hd & He). cbn [fst] in Hd.
  subst d'. apply available_In in He. destruct He as [Hmarker Hskip].
  split; [exact Hskip | eauto].
Qed.

(** ** Way points after a run *)

Lemma map_get_In (d : Q) (position : LatLng) (m : NumMap) :
  In (d, position) m -> exists p, map_get d m = Some p.
Proof.
  induction m as [|[k v] m IH]; intros Hin; [destruct Hin|]. simpl.
  destruct (Qeq_bool k d) eqn:E; [eauto|].
  destruct Hin as [[= -> ->] | Hin]; [|now apply IH].
  rewrite (proj2 (Qeq_bool_iff d d) (Qeq_refl d)) in E. discriminate.
Qed.

Lemma newSet_incl (l : list Q) (x : Q) : In x (newSet l) -> In x l.
Proof.
  induction l as [|y l IH]; simpl; [tauto|].
  intros [-> | Hin]; [now left|]. right. apply IH.
  apply filter_In in Hin. tauto.
Qed.

Lemma insertNumber_In (x y : Q) (l : list Q) :
  In y (insertNumber x l) <-> y = x \/ In y l.
Proof.
  induction l as [|z l IH]; simpl; [intuition auto|].
  destruct (Qlt_bool z x); simpl; rewrite ?IH; intuition auto.
Qed.

Lemma sortNumbers_In (y : Q) (l : list Q) : In y (sortNumbers l) <-> In y l.
Proof.
  induction l as [|x l IH]; simpl; [tauto|]. rewrite insertNumber_In, IH. intuition auto.
Qed.

Lemma insertNumber_length (x : Q) (l : list Q) : length (insertNumber x l) = S (length l).
Proof.
  induction l as [|z l IH]; simpl; [reflexivity|].
  destruct (Qlt_bool z x); simpl; [now rewrite IH | reflexivity].
Qed.

Lemma sortNumbers_length (l : list Q) : length (sortNumbers l) = length l.
Proof.
  induction l as [|x l IH]; simpl; [reflexivity|]. now rewrite insertNumber_length, IH.
Qed.

Lemma insertNumber_sorted (x : Q) (l : list Q) :
  StronglySorted Qle l -> StronglySorted Qle (insertNumber x l).
Proof.
  induction 1 as [|y l Hs IH Hall]; simpl.
  - repeat constructor.
  - destruct (Qlt_bool y x) eqn:E.
    + apply Qlt_bool_iff in E. constructor; [exact IH|].
      apply Forall_forall. intros z Hz. apply insertNumber_In in Hz.
      destruct Hz as [-> | Hz]; [lra|]. rewrite Forall_forall in Hall. now apply Hall.
    + apply Qlt_bool_false_iff in E. constructor; [now constructor|].
      constructor; [exact E|]. eapply Forall_impl; [|exact Hall]. intros a Ha. simpl in Ha. lra.
Qed.

Lemma sortNumbers_sorted (l : list Q) : StronglySorted Qle (sortNumbers l).
Proof.
  induction l as [|x l IH]; simpl; [constructor | now apply insertNumber_sorted].
Qed.

Lemma definedOnly_total {A : Type} (f : A -> option LatLng) (l : list A) :
  (forall x, In x l -> exists p, f x = Some p) ->
  length (definedOnly (map f l)) = length l.
Proof.
  induction l as [|x l IH]; intros H; simpl; [reflexivity|].
  destruct (H x (or_introl eq_refl)) as [p ->]. simpl. f_equal.
  apply IH. intros y Hy. apply H. now right.
Qed.

Lemma suggestSpots_not_returned (st : AppState) : suggestSpots st <> Returned.
Proof.
  unfold App.suggestSpots.
  destruct (gpxCourseLine st) as [course|]; [|discriminate].
  destruct (length _ =? 0)%nat eqn:Elen; cbn [orb]; [discriminate|].
  destruct (_ <=? _)%Z; [discriminate|].
  destruct (suggestionStrategy st); [discriminate|].
  destruct (parsePaceToSecondsPerMeter _); discriminate.
Qed.

(** After a run that shows no alert, every selected spot has a marker
    position, so that the way points for routing are as many as the
    selected spots: none is dropped. *)
Theorem selection_has_positions :
  forall (st st' : AppState),
    handleSuggestSpots st = (st', []) ->
    (forall d, In d (selectedSpots st') ->
       exists position, map_get d (markerPositions st') = Some position)
    /\ length (waypoints st') = length (selectedSpots st').
Proof.
  intros st st' Hrun.
  assert (Hpos : forall d, In d (selectedSpots st') ->
                   exists position, map_get d (markerPositions st') = Some position).
  { unfold App.handleSuggestSpots in Hrun.
    pose proof (suggestSpots_not_returned st) as Hnot.
    destruct (suggestSpots st) as [| msg | | suggested] eqn:E; try discriminate;
      try contradiction; injection Hrun as <-; cbn [selectedSpots markerPositions withSelectedSpots].
    - intros d [].
    - intros d Hd. apply newSet_incl in Hd.
      destruct (suggested_is_marker_after_skip st suggested E d Hd) as (_ & position & Hin).
      now apply (map_get_In d position). }
  split; [exact Hpos|].
  unfold waypoints. rewrite definedOnly_total.
  - apply sortNumbers_length.
  - intros d Hd. apply (proj1 (sortNumbers_In d _)) in Hd. now apply Hpos.
Qed.

End Suggested.

Lemma suggested_is_marker_after_skip_witness :
  0 * 1000 <= 5000
  /\ exists position, In (5000, position) Sample.sampleMarkers.
Proof.
  apply (suggested_is_marker_after_skip Sample.gridDistance Sample.noIntersect
           Sample.gridPosDistance (Sample.sampleState "5:00" walking minTravel 3)
           [1000; 5000; 9000] eq_refl 5000).
  simpl. auto.
Defined.

Lemma selection_has_positions_witness :
  length (waypoints (withSelectedSpots (Sample.sampleState "5:00" walking minTravel 3)
                       [1000; 5000; 9000])) = 3%nat.
Proof.
  apply (selection_has_positions Sample.gridDistance Sample.noIntersect
           Sample.gridPosDistance (Sample.sampleState "5:00" walking minTravel 3)).
  reflexivity.
Defined.

(** ** Floors *)

Lemma Qfloor_bounds (x : Q) : inject_Z (Qfloor x) <= x /\ x < inject_Z (Qfloor x) + 1.
Proof.
  split; [apply Qfloor_le|].
  pose proof (Qlt_floor x) as H. rewrite inject_Z_plus in H. exact H.
Qed.

Lemma Qfloor_unique (z : Z) (x : Q) :
  inject_Z z <= x -> x < inject_Z z + 1 -> Qfloor x = z.
Proof.
  intros Hlow Hhigh. destruct (Qfloor_bounds x) as [H1 H2].
  assert (H3 : (z < Qfloor x + 1)%Z) by (rewrite Zlt_Qlt, inject_Z_plus; change (inject_Z 1) with 1; lra).
  assert (H4 : (Qfloor x < z + 1)%Z) by (rewrite Zlt_Qlt, inject_Z_plus; change (inject_Z 1) with 1; lra).
  lia.
Qed.

Lemma Qfloor_plus_one (x : Q) : Qfloor (x + 1) = (Qfloor x + 1)%Z.
Proof.
  destruct (Qfloor_bounds x) as [H1 H2].
  apply Qfloor_unique; rewrite inject_Z_plus; change (inject_Z 1) with 1; lra.
Qed.

(** ** The shape of a maxSpread suggestion *)

Lemma increasing_from {f : nat -> nat} (a m : nat) :
  (forall i, (a <= i)%nat -> (S i < a + m)%nat -> (f i < f (S i))%nat) ->
  forall j, (a < j)%nat -> (j < a + m)%nat -> (f a < f j)%nat.
Proof.
  intros Hstep j. induction j as [|j IH]; intros Haj Hjm; [lia|].
  destruct (Nat.eq_dec a j) as [->|Hne]; [apply Hstep; lia|].
  specialize (IH ltac:(lia) ltac:(lia)). specialize (Hstep j ltac:(lia) ltac:(lia)). lia.
Qed.

Lemma sorted_map_seq (f : nat -> nat) (m : nat) :
  forall a,
    (forall i, (a <= i)%nat -> (S i < a + m)%nat -> (f i < f (S i))%nat) ->
    StronglySorted lt (map f (seq a m)).
Proof.
  induction m as [|m IH]; intros a Hstep; simpl; [constructor|].
  constructor.
  - apply IH. intros i Hi Hlt. apply Hstep; lia.
  - apply Forall_forall. intros y Hy. apply in_map_iff in Hy.
    destruct Hy as (j & <- & Hj). apply in_seq in Hj.
    apply (increasing_from a (S m) Hstep); lia.
Qed.

Section Spread.

Variable fl : Q -> Q.
Hypothesis rounding : Number.Rounding fl.

Variable pool : list entry.
Variable numToSelect : Z.
Hypothesis at_least_two : (2 <= numToSelect)%Z.
Hypothesis within_pool : (numToSelect <= Z.of_nat (length pool))%Z.
Hypothesis pool_size : (Z.of_nat (length pool) <= 2 ^ 25)%Z.

Local Abbreviation len := (Z.of_nat (length pool)).
Local Abbreviation quotient := (inject_Z (len - 1) / inject_Z (numToSelect - 1)).
Local Abbreviation step := (fl quotient).
Local Abbreviation product := (fun i : nat => fl (inject_Z (Z.of_nat i) * step)).
Local Abbreviation u := Number.UNIT_ROUNDOFF.

(** The index that the loop of maxSpread reads at its turn [i]. *)
Definition spreadIndex (i : nat) : nat :=
  Z.to_nat (Z.max 0 (Z.min (Math_round (fl (inject_Z (Z.of_nat i) * step))) (len - 1))).

Lemma fl_small_integer (n : Z) : (0 <= n <= 2 ^ 25)%Z -> fl (inject_Z n) == inject_Z n.
Proof.
  intros Hn. apply (Number.fl_integer fl rounding). unfold MAX_SAFE_INTEGER. lia.
Qed.

Lemma quotient_at_least_one : 1 <= quotient.
Proof.
  assert (H1 : 0 < inject_Z (numToSelect - 1)) by (apply inject_Z_pos; lia).
  apply Qle_shift_div_l; [exact H1|].
  rewrite Qmult_1_l, <- Zle_Qle. lia.
Qed.

Lemma step_at_least_one : 1 <= step.
Proof.
  pose proof (fl_small_integer 1 ltac:(lia)) as Hone. change (inject_Z 1) with 1 in Hone.
  pose proof (Number.fl_monotone fl rounding _ _ quotient_at_least_one). lra.
Qed.

Lemma step_error : Qabs (step - quotient) <= quotient * u.
Proof.
  apply (Number.fl_error fl rounding).
  pose proof NumberFacts.min_normal_le_one. pose proof quotient_at_least_one. lra.
Qed.

Lemma product_zero : product 0%nat == 0.
Proof.
  cbv beta. change (inject_Z (Z.of_nat 0)) with 0.
  rewrite (Number.fl_compat fl rounding (0 * step) (inject_Z 0)) by (change (inject_Z 0) with 0; ring).
  now rewrite fl_small_integer by lia.
Qed.

(** The rounded product is within 3 (len - 1) 2^-53 of the exact one. *)
Lemma product_error (i : nat) :
  (Z.of_nat i <= numToSelect - 1)%Z ->
  Qabs (product i - inject_Z (Z.of_nat i) * quotient) <= 3 * inject_Z (len - 1) * u.
Proof.
  intros Hi. cbv beta.
  assert (Hu : 0 < u) by (rewrite NumberFacts.unit_roundoff_value; reflexivity).
  assert (Hu1 : u <= 1) by (rewrite NumberFacts.unit_roundoff_value; unfold Qle; simpl; lia).
  assert (Hb : 0 < inject_Z (numToSelect - 1)) by (apply inject_Z_pos; lia).
  assert (Ha : 0 <= inject_Z (len - 1)) by (change 0 with (inject_Z 0); rewrite <- Zle_Qle; lia).
  pose proof quotient_at_least_one as He. pose proof step_at_least_one as Hs.
  pose proof step_error as Hstep. apply Qabs_Qle_condition in Hstep.
  destruct i as [|i].
  - pose proof product_zero as H0. cbv beta in H0.
    change (inject_Z (Z.of_nat 0)) with 0 in *.
    apply Qabs_Qle_condition.
    assert (0 <= 3 * inject_Z (len - 1) * u)
      by (apply Qmult_le_0_compat; [apply Qmult_le_0_compat; [lra | exact Ha] | lra]).
    split; lra.
  - set (I := inject_Z (Z.of_nat (S i))) in *.
    assert (HI : 1 <= I).
    { unfold I. change 1 with (inject_Z 1). rewrite <- Zle_Qle. lia. }
    assert (HIb : I <= inject_Z (numToSelect - 1)) by (unfold I; rewrite <- Zle_Qle; lia).
    set (e := quotient) in *. set (s := fl e) in *.
    assert (HX : I * e <= inject_Z (len - 1)).
    { apply Qle_trans with (inject_Z (numToSelect - 1) * e).
      - apply Qmult_le_compat_r; [exact HIb | lra].
      - unfold e. apply Qle_lteq. right. field. lra. }
    assert (HX0 : 0 <= I * e) by (apply Qmult_le_0_compat; lra).
    assert (HY : Qabs (I * s - I * e) <= I * e * u).
    { apply Qabs_Qle_condition. destruct Hstep as [Hs1 Hs2].
      assert (H1 : I * (s - e) <= I * (e * u)) by (apply Qmult_le_l; lra).
      assert (H2 : I * (- (e * u)) <= I * (s - e)) by (apply Qmult_le_l; lra).
      split; lra. }
    apply Qabs_Qle_condition in HY.
    assert (HXu : 0 <= I * e * u) by (apply Qmult_le_0_compat; lra).
    assert (HXu1 : I * e * u <= I * e).
    { assert (H1 : u * (I * e) <= 1 * (I * e)) by (apply Qmult_le_compat_r; lra). lra. }
    assert (HIs : 1 <= I * s).
    { apply Qle_trans with (1 * s); [lra|]. apply Qmult_le_compat_r; lra. }
    pose proof (Number.fl_error fl rounding (I * s)) as Hp.
    specialize (Hp ltac:(pose proof NumberFacts.min_normal_le_one; lra)).
    apply Qabs_Qle_condition in Hp.
    assert (HYu : I * s * u <= 2 * (I * e) * u).
    { apply Qmult_le_compat_r; lra. }
    assert (HAu : 3 * (I * e) * u <= 3 * inject_Z (len - 1) * u).
    { apply Qmult_le_compat_r; lra. }
    apply Qabs_Qle_condition. split; lra.
Qed.

Lemma round_first : Math_round (product 0%nat) = 0%Z.
Proof.
  unfold Math_round. pose proof product_zero as H. cbv beta in H.
  now rewrite (Qfloor_comp _ (0 + (1 # 2))) by (rewrite H; reflexivity).
Qed.

Lemma error_is_small : 3 * inject_Z (len - 1) * u <= 3 # 268435456.
Proof.
  rewrite NumberFacts.unit_roundoff_value.
  assert (H : inject_Z (len - 1) <= inject_Z (2 ^ 25)) by (rewrite <- Zle_Qle; lia).
  change (inject_Z (2 ^ 25)) with 33554432 in H. lra.
Qed.

Lemma round_last : Math_round (product (Z.to_nat (numToSelect - 1))) = (len - 1)%Z.
Proof.
  pose proof (product_error (Z.to_nat (numToSelect - 1)) ltac:(lia)) as H.
  cbv beta in *. rewrite !Z2Nat.id in H by lia. rewrite Z2Nat.id by lia.
  assert (H1 : 0 < inject_Z (numToSelect - 1)) by (apply inject_Z_pos; lia).
  assert (E : inject_Z (numToSelect - 1) * quotient == inject_Z (len - 1)) by (field; lra).
  pose proof error_is_small. apply Qabs_Qle_condition in H.
  unfold Math_round. apply Qfloor_unique; lra.
Qed.

Lemma round_advances (i : nat) :
  (Z.of_nat (S i) <= numToSelect - 1)%Z ->
  (Math_round (product i) + 1 <= Math_round (product (S i)))%Z.
Proof.
  intros Hi. unfold Math_round. rewrite <- Qfloor_plus_one. apply Qfloor_resp_le.
  cbv beta.
  destruct (Z.eq_dec len numToSelect) as [Hall|Hmore].
  - (* a step of exactly 1: the products are the integers themselves *)
    assert (Hb : 0 < inject_Z (numToSelect - 1)) by (apply inject_Z_pos; lia).
    assert (Hq : quotient == inject_Z 1).
    { rewrite Hall. change (inject_Z 1) with 1. field. lra. }
    assert (Hs : step == 1).
    { rewrite (Number.fl_compat fl rounding _ _ Hq). now rewrite fl_small_integer by lia. }
    assert (Hint : forall k : nat, (Z.of_nat k <= 2 ^ 25)%Z ->
              fl (inject_Z (Z.of_nat k) * step) == inject_Z (Z.of_nat k)).
    { intros k Hk.
      rewrite (Number.fl_compat fl rounding _ (inject_Z (Z.of_nat k)))
        by (rewrite Hs; ring).
      apply fl_small_integer. lia. }
    rewrite (Hint i), (Hint (S i)) by lia. rewrite MapFacts.inject_Z_S. lra.
  - (* a step of 1 + 1 / (numToSelect - 1) or more *)
    pose proof (product_error i ltac:(lia)) as Hi0.
    pose proof (product_error (S i) Hi) as Hi1. cbv beta in Hi0, Hi1.
    apply Qabs_Qle_condition in Hi0. apply Qabs_Qle_condition in Hi1.
    assert (Hnext : inject_Z (Z.of_nat (S i)) * quotient
                    == inject_Z (Z.of_nat i) * quotient + quotient)
      by (rewrite MapFacts.inject_Z_S; ring).
    assert (Hb : 0 < inject_Z (numToSelect - 1)) by (apply inject_Z_pos; lia).
    assert (Hgap : 1 + / inject_Z (numToSelect - 1) <= quotient).
    { setoid_replace (1 + / inject_Z (numToSelect - 1))
        with ((inject_Z (numToSelect - 1) + 1) / inject_Z (numToSelect - 1)) by (field; lra).
      apply Qmult_le_compat_r; [|apply Qlt_le_weak, Qinv_lt_0_compat, Hb].
      change 1 with (inject_Z 1). rewrite <- inject_Z_plus, <- Zle_Qle. lia. }
    assert (Hsmall : 6 * inject_Z (len - 1) * u <= / inject_Z (numToSelect - 1)).
    { apply Qle_shift_inv_l; [exact Hb|].
      rewrite NumberFacts.unit_roundoff_value.
      assert (Hab : inject_Z (len - 1) * inject_Z (numToSelect - 1) <= inject_Z (2 ^ 50)).
      { rewrite <- inject_Z_mult, <- Zle_Qle. nia. }
      change (inject_Z (2 ^ 50)) with 1125899906842624 in Hab. lra. }
    lra.
Qed.

Lemma round_monotone (i j : nat) :
  (i <= j)%nat -> (Z.of_nat j <= numToSelect - 1)%Z ->
  (Math_round (product i) <= Math_round (product j))%Z.
Proof.
  induction 1 as [|j Hij IH]; intros Hj; [lia|].
  pose proof (round_advances j Hj). specialize (IH ltac:(lia)). cbv beta in *. lia.
Qed.

Lemma round_in_range (i : nat) :
  (i < Z.to_nat numToSelect)%nat ->
  (0 <= Math_round (product i) <= len - 1)%Z.
Proof.
  intros Hi.
  pose proof round_first as H0. pose proof round_last as H1.
  pose proof (round_monotone 0 i ltac:(lia) ltac:(lia)).
  pose proof (round_monotone i (Z.to_nat (numToSelect - 1)) ltac:(lia) ltac:(lia)).
  cbv beta in *. lia.
Qed.

Lemma spreadIndex_round (i : nat) :
  (i < Z.to_nat numToSelect)%nat ->
  Z.of_nat (spreadIndex i) = Math_round (product i).
Proof.
  intros Hi. pose proof (round_in_range i Hi). unfold spreadIndex. cbv beta in *. lia.
Qed.

(** For a number of spots between 2 and the size of the pool, and a pool
    of 2^25 entries or fewer, maxSpread reads as many entries of the pool
    as it is asked for, at indices that strictly increase from the first
    entry to the last one, whatever the rounding of the division and of
    the products does to the single indices: the suggested spots are
    pairwise different entries, in ascending order, and include both ends
    of the pool. *)
Theorem maxSpread_spans_the_pool :
  let indices := map spreadIndex (seq 0 (Z.to_nat numToSelect)) in
  Rounded.maxSpreadDistances fl pool numToSelect
  = map (fun i => fst (nth i pool noEntry)) indices
  /\ length indices = Z.to_nat numToSelect
  /\ StronglySorted lt indices
  /\ hd_error indices = Some 0%nat
  /\ last indices 0%nat = (length pool - 1)%nat
  /\ Forall (fun i => (i < length pool)%nat) indices.
Proof.
  cbv zeta. split; [|split; [|split; [|split; [|split]]]].
  - unfold Rounded.maxSpreadDistances.
    destruct (Z.eqb_spec numToSelect 1); [lia|]. cbn [andb].
    destruct (Z.ltb_spec 1 numToSelect); [|lia].
    destruct (Z.ltb_spec 1 len); [|lia]. cbn [andb].
    rewrite map_map. reflexivity.
  - now rewrite length_map, length_seq.
  - apply sorted_map_seq. intros i _ Hi.
    pose proof (spreadIndex_round i ltac:(lia)). pose proof (spreadIndex_round (S i) ltac:(lia)).
    pose proof (round_advances i ltac:(lia)). cbv beta in *. lia.
  - destruct (Z.to_nat numToSelect) as [|n] eqn:En; [lia|]. cbn [seq map hd_error].
    f_equal. pose proof (spreadIndex_round 0 ltac:(lia)) as H.
    pose proof round_first. cbv beta in *. lia.
  - replace (Z.to_nat numToSelect) with (S (Z.to_nat (numToSelect - 1))) by lia.
    rewrite seq_S, map_app. cbn [map]. rewrite last_last. cbn [Nat.add].
    pose proof (spreadIndex_round (Z.to_nat (numToSelect - 1)) ltac:(lia)) as H.
    pose proof round_last. cbv beta in *. lia.
  - apply Forall_forall. intros y Hy. apply in_map_iff in Hy.
    destruct Hy as (i & <- & Hi). apply in_seq in Hi.
    pose proof (spreadIndex_round i ltac:(lia)). pose proof (round_in_range i ltac:(lia)).
    cbv beta in *. lia.
Qed.

End Spread.

(** The theorem for the rounding to the nearest double, on a pool of 35
    markers and 29 spots.  At its turn 21 the loop computes
    21 * (34 / 28) = 25.499999999999996 and reads the index 25; on exact
    numbers the product is 25.5 and the index would be 26. *)
Lemma maxSpread_spans_the_pool_witness :
  Rounded.maxSpreadDistances Number.binary64 Sample.markersEvery50 29
  = map (fun i => fst (nth i Sample.markersEvery50 noEntry))
        (map (spreadIndex Number.binary64 Sample.markersEvery50 29) (seq 0 29))
  /\ spreadIndex Number.binary64 Sample.markersEvery50 29 21 = 25%nat.
Proof.
  split; [|vm_compute; reflexivity].
  apply (maxSpread_spans_the_pool Number.binary64 NumberFacts.binary64_rounding
           Sample.markersEvery50 29); [lia | vm_compute; discriminate | vm_compute; discriminate].
Defined.

(** ** Feasibility and the spacing of a minTravel suggestion *)

(** Each distance of the list is more than [gap] after the one before,
    the first one after [last]. *)
Fixpoint spacedFrom (gap last : Q) (l : list Q) : Prop :=
  match l with
  | [] => True
  | d :: l' => last + gap < d /\ spacedFrom gap d l'
  end.

Section Spacing.

Variable distanceTo : LatLng -> LatLng -> Q.
Variable lineIntersect : LineString -> LineString -> list Position.
Variable turfDistance : Position -> Position -> Q.
Hypothesis distanceTo_nonneg : forall p q, 0 <= distanceTo p q.

Local Abbreviation isFeasible := (App.isFeasible distanceTo lineIntersect turfDistance).
Local Abbreviation greedyWalk := (App.greedyWalk distanceTo lineIntersect turfDistance).
Local Abbreviation suggestSpots := (App.suggestSpots distanceTo lineIntersect turfDistance).

Lemma walking_slower_than_cycling (d : Q) : 0 <= d -> d / (55 # 10) <= d / (14 # 10).
Proof.
  intros Hd. unfold Qdiv.
  setoid_replace (/ (55 # 10)) with (10 # 55) by reflexivity.
  setoid_replace (/ (14 # 10)) with (10 # 14) by reflexivity.
  lra.
Qed.

Lemma travel_time_nonneg (d speed : Q) : 0 <= d -> 0 < speed -> 0 <= d / speed.
Proof. intros Hd Hs. apply Qle_shift_div_l; lra. Qed.

Lemma feasible_runner_margin (course : LineString) (profile : TravelProfile)
    (pace lastDistance : Q) (lastLatLng : LatLng) (candidate : entry) :
  isFeasible course profile pace lastDistance lastLatLng candidate = true ->
  600 < (fst candidate - lastDistance) * pace.
Proof.
  intros H. apply isFeasible_iff in H. unfold feasibleSpec in H. cbv zeta in H.
  pose proof (distanceTo_nonneg lastLatLng (snd candidate)) as Hd.
  assert (Hpen : 0 <= (if App.courseCrossing lineIntersect turfDistance course lastLatLng
                              (snd candidate) then 300 else 0))
    by (destruct (App.courseCrossing _ _ _ _ _); lra).
  destruct profile; [| |contradiction].
  - pose proof (travel_time_nonneg _ (14 # 10) Hd eq_refl). lra.
  - pose proof (travel_time_nonneg _ (55 # 10) Hd eq_refl). lra.
Qed.

(** A candidate that a walker can reach in time, a cyclist can reach in
    time; a candidate that can be reached in time before a runner can be
    reached in time before a slower runner; nobody reaches a candidate in
    time by transit. *)
Theorem feasibility_is_monotone :
  forall (course : LineString) (pace lastDistance : Q) (lastLatLng : LatLng)
         (candidate : entry),
    (isFeasible course walking pace lastDistance lastLatLng candidate = true ->
     isFeasible course cycling pace lastDistance lastLatLng candidate = true)
    /\ (forall profile slowerPace,
          pace <= slowerPace -> 0 < pace ->
          isFeasible course profile pace lastDistance lastLatLng candidate = true ->
          isFeasible course profile slowerPace lastDistance lastLatLng candidate = true)
    /\ isFeasible course transit pace lastDistance lastLatLng candidate = false.
Proof.
  intros course pace lastD lastP candidate. split; [|split].
  - rewrite !isFeasible_iff. unfold feasibleSpec. cbv zeta.
    pose proof (walking_slower_than_cycling _ (distanceTo_nonneg lastP (snd candidate))).
    lra.
  - intros profile slower Hle Hpos Hfeas.
    pose proof (feasible_runner_margin _ _ _ _ _ _ Hfeas) as Hmargin.
    assert (Hgap : 0 < fst candidate - lastD).
    { destruct (Qlt_le_dec 0 (fst candidate - lastD)) as [|Hneg]; [assumption|].
      exfalso. assert (0 <= (lastD - fst candidate) * pace)
        by (apply Qmult_le_0_compat; lra). lra. }
    assert (Hmore : (fst candidate - lastD) * pace <= (fst candidate - lastD) * slower).
    { rewrite (Qmult_comm _ pace), (Qmult_comm _ slower).
      apply Qmult_le_compat_r; lra. }
    apply isFeasible_iff in Hfeas. apply isFeasible_iff.
    unfold feasibleSpec in *. cbv zeta in *. destruct profile; [lra | lra | contradiction].
  - destruct candidate. reflexivity.
Qed.

Lemma greedyWalk_spaced (course : LineString) (profile : TravelProfile) (pace : Q)
    (pool : list entry) (remaining : nat) :
  0 < pace ->
  forall (lastDistance : Q) (lastLatLng : LatLng) (usedIndices : list nat),
    let suggested :=
      greedyWalk course profile pace pool remaining lastDistance lastLatLng usedIndices in
    (length suggested <= remaining)%nat
    /\ spacedFrom (600 / pace) lastDistance suggested.
Proof.
  intros Hpace. induction remaining as [|remaining IH]; intros lastD lastP used;
    cbv zeta; cbn [App.greedyWalk]; [split; [reflexivity | exact I]|].
  pose proof (bestNextSpot_spec distanceTo lineIntersect turfDistance course profile pace
                lastD lastP used pool) as Hbest.
  destruct (App.bestNextSpot _ _ _ _ _ _ _ _ _ _) as [k|];
    [|split; [simpl; lia | exact I]].
  destruct Hbest as (ek & Hk & _ & Hfeas & _).
  rewrite (nth_error_nth pool k noEntry Hk).
  pose proof (feasible_runner_margin _ _ _ _ _ _ Hfeas) as Hmargin.
  destruct ek as [nextDist nextLatLng]. cbn [fst] in Hmargin.
  destruct (IH nextDist nextLatLng (k :: used)) as [Hlen Hspaced].
  split; [simpl; lia|]. split; [|exact Hspaced].
  assert (600 / pace < nextDist - lastD) by (apply Qlt_shift_div_r; assumption).
  lra.
Qed.

(** A minTravel suggestion has at most as many spots as asked for, and
    each spot is more than 600 / pace metres further along the course than
    the one before: the runner needs more than ten minutes from one spot
    to the next. *)
Theorem minTravel_spots_are_spaced :
  forall (st : AppState) (pace : Q) (suggested : list Q),
    suggestionStrategy st = minTravel ->
    parsePaceToSecondsPerMeter (runnerPace st) = Some pace ->
    suggestSpots st = Suggested suggested ->
    (Z.of_nat (length suggested) <= numSpotsToSuggest st)%Z
    /\ match suggested with
       | [] => False
       | seed :: rest => spacedFrom (600 / pace) seed rest
       end.
Proof.
  intros st pace suggested Hs Hp Hrun.
  pose proof (parsePace_positive _ _ Hp) as Hpace.
  unfold App.suggestSpots in Hrun. rewrite Hs, Hp in Hrun.
  destruct (gpxCourseLine st) as [course|]; [|discriminate].
  destruct (potentiallyAvailableMarkers _ _) as [|first others] eqn:Epool;
    [discriminate|].
  change ((length (first :: others) =? 0)%nat) with false in Hrun. cbn [orb] in Hrun.
  destruct (Z.leb_spec (numSpotsToSuggest st) 0) as [|Hask]; [discriminate|].
  injection Hrun as <-. unfold App.minTravelDistances.
  destruct (greedyWalk_spaced course (travelProfile st) pace (first :: others)
              (Z.to_nat (Z.min (numSpotsToSuggest st) (Z.of_nat (length (first :: others))) - 1))
              Hpace (fst first) (snd first) [0%nat]) as [Hlen Hspaced].
  split; [|exact Hspaced].
  simpl length in *. lia.
Qed.

End Spacing.

Lemma feasibility_is_monotone_witness :
  App.isFeasible Sample.gridDistance Sample.noIntersect Sample.gridPosDistance
    Sample.sampleCourse cycling (300 # 1000) 1000 (mkLatLng (1 # 100) 0)
    (5000, mkLatLng (1 # 100) (1 # 100000)) = true.
Proof.
  apply (feasibility_is_monotone Sample.gridDistance Sample.noIntersect
           Sample.gridPosDistance gridDistance_nonneg).
  reflexivity.
Defined.

Lemma minTravel_spots_are_spaced_witness :
  spacedFrom (600 / (300 # 1000)) 1000 [5000; 9000].
Proof.
  apply (minTravel_spots_are_spaced Sample.gridDistance Sample.noIntersect
           Sample.gridPosDistance gridDistance_nonneg
           (Sample.sampleState "5:00" walking minTravel 3) (300 # 1000)
           [1000; 5000; 9000]); reflexivity.
Defined.

(** ** Loading a track *)

Lemma map_set_not_empty (k : Q) (v : LatLng) (m : NumMap) : map_set k v m <> [].
Proof. destruct m as [|[k' v'] m]; simpl; [discriminate|]. destruct (Qeq_bool k' k); discriminate. Qed.

(** Loading a file always comes to an end.  After it the selection is
    empty, and there are markers exactly when there is a course line; a
    first track of two points or more gives a course line, which has one
    position for each point of that track.  So a run of the suggestion
    callback that finds markers finds a course line.  Distances are not
    negative. *)
Theorem loaded_markers_have_a_course :
  forall (distanceTo : LatLng -> LatLng -> Q) (data : GpxData) (st : AppState),
    (forall p q, 0 <= distanceTo p q) ->
    (exists n0 st', forall fuel, (n0 <= fuel)%nat ->
                      loadGpx distanceTo fuel data st = Done st')
    /\ forall (fuel : nat) (st' : AppState),
         loadGpx distanceTo fuel data st = Done st' ->
         selectedSpots st' = []
         /\ (markerPositions st' <> [] <-> gpxCourseLine st' <> None)
         /\ (forall line, gpxCourseLine st' = Some line ->
               exists track others,
                 data = track :: others /\ length line = length track
                 /\ (2 <= length line)%nat)
         /\ (forall track others,
               data = track :: others -> (2 <= length track)%nat ->
               gpxCourseLine st' <> None).
Proof.
  intros distanceTo data st Hnonneg. split.
  - unfold loadGpx, reportedMarkers.
    destruct data as [|track others]; [exists 0%nat; eexists; reflexivity|].
    rewrite length_map.
    destruct (Nat.ltb_spec 1 (length track)) as [Hlong|Hshort];
      [|exists 0%nat; eexists; reflexivity].
    destruct (map (fun p => mkLatLng (gpx_lat p) (gpx_lon p)) track)
      as [|p0 [|p1 rest]] eqn:Epoints;
      try (apply (f_equal (@length _)) in Epoints; rewrite length_map in Epoints;
           simpl in Epoints; lia).
    destruct (MapFacts.calculateSpotPositions_run distanceTo
                MapComponent.POTENTIAL_SPOT_INTERVAL eq_refl Hnonneg p0 p1 rest)
      as (n0 & ist & _ & _ & Hrun & _).
    exists n0. eexists. intros fuel Hfuel. rewrite (Hrun fuel Hfuel). reflexivity.
  - intros fuel st' Hload. unfold loadGpx, reportedMarkers in Hload.
    cbn [markerPositions handleGpxParsed runnerPace selectedSpots travelProfile gpxCourseLine
           numSpotsToSuggest suggestionStrategy skipFirstKm] in Hload.
    destruct data as [|track others].
    + injection Hload as <-. cbn [selectedSpots markerPositions gpxCourseLine courseLineOf].
      split; [reflexivity|]. split; [tauto|]. split; discriminate.
    + rewrite length_map in Hload. unfold courseLineOf in Hload.
      rewrite length_map in Hload.
      destruct (Nat.ltb_spec 1 (length track)) as [Hlong|Hshort].
      * destruct (Nat.leb_spec 2 (length track)) as [_|]; [|lia].
        unfold MapComponent.calculateSpotPositions in Hload.
        destruct (map _ track) as [|p0 [|p1 rest]] eqn:Epoints;
          try (apply (f_equal (@length _)) in Epoints; rewrite length_map in Epoints;
               simpl in Epoints; lia).
        destruct (MapComponent.segmentLoop _ _ _ _ _ _) as [ist| |]; try discriminate.
        injection Hload as <-.
        cbn [selectedSpots markerPositions gpxCourseLine MapComponent.markerPositions].
        split; [reflexivity|]. split; [|split].
        -- split; [discriminate | intros _; apply map_set_not_empty].
        -- intros line [= <-]. exists track, others. rewrite length_map. auto.
        -- discriminate.
      * destruct (Nat.leb_spec 2 (length track)) as [|_]; [lia|].
        injection Hload as <-. cbn [selectedSpots markerPositions gpxCourseLine].
        split; [reflexivity|]. split; [tauto|]. split; [discriminate|].
        intros track' others' [= <- <-] Hlen. lia.
Qed.

Lemma loaded_markers_have_a_course_witness :
  exists st',
    loadGpx Sample.gridDistance 5 Sample.cornerGpx
      (Sample.sampleState "5:00" walking minTravel 3) = Done st'
    /\ selectedSpots st' = []
    /\ markerPositions st' <> []
    /\ gpxCourseLine st' <> None.
Proof.
  assert (Hrun : { st' | loadGpx Sample.gridDistance 5 Sample.cornerGpx
                           (Sample.sampleState "5:00" walking minTravel 3) = Done st' }).
  { vm_compute. eexists. reflexivity. }
  destruct Hrun as [st' Hrun]. exists st'.
  destruct (proj2 (loaded_markers_have_a_course Sample.gridDistance Sample.cornerGpx
                     (Sample.sampleState "5:00" walking minTravel 3) gridDistance_nonneg)
              5%nat st' Hrun) as (Hsel & Hiff & _ & Hcourse).
  assert (Hline : gpxCourseLine st' <> None).
  { apply (Hcourse _ [] eq_refl). simpl. lia. }
  repeat split; [exact Hrun | exact Hsel | now apply Hiff | exact Hline].
Defined.

(** ** The start marker *)

Section FirstKm.

Local Abbreviation pick :=
  (fun (prev : xnum) (curr : Q) =>
     if xlt (distanceFromFirstKm (Fin curr)) (distanceFromFirstKm prev)
     then Fin curr else prev).

(** What the reduction holds after the keys [seen]. *)
Definition Nearest1000 (seen : list Q) (best : xnum) : Prop :=
  match best with
  | Infinity => seen = []
  | Fin k => In k seen /\ forall k', In k' seen -> Qabs (k - 1000) <= Qabs (k' - 1000)
  end.

Lemma reduce_nearest (rest : list Q) :
  forall (seen : list Q) (best : xnum),
    Nearest1000 seen best ->
    Nearest1000 (seen ++ rest) (fold_left pick rest best).
Proof.
  induction rest as [|curr rest IH]; intros seen best Hinv; cbn [fold_left].
  - now rewrite app_nil_r.
  - replace (seen ++ curr :: rest) with ((seen ++ [curr]) ++ rest)
      by (rewrite <- app_assoc; reflexivity).
    apply IH. destruct best as [k|]; cbn [distanceFromFirstKm xlt].
    + destruct Hinv as [Hk Hleast].
      destruct (Qlt_bool (Qabs (curr - 1000)) (Qabs (k - 1000))) eqn:E.
      * apply Qlt_bool_iff in E. split; [apply in_or_app; right; now left|].
        intros k' Hk'. apply in_app_or in Hk'. destruct Hk' as [Hk' | [<- | []]]; [|lra].
        specialize (Hleast k' Hk'). lra.
      * apply Qlt_bool_false_iff in E. split; [apply in_or_app; now left|].
        intros k' Hk'. apply in_app_or in Hk'. destruct Hk' as [Hk' | [<- | []]]; auto.
    + simpl in Hinv. subst seen. split; [now left|].
      intros k' [<- | []]. lra.
Qed.

(** The key marked as the start marker is a key of the Map that is
    nearest to 1000 m, and Infinity only for a Map without keys; when 1000
    is a key, the start marker is at 1000 m. *)
Theorem start_marker_is_nearest_to_first_km :
  forall markers : NumMap,
    (firstKmKey markers = Infinity <-> markers = [])
    /\ (forall k, firstKmKey markers = Fin k ->
          In k (map_keys markers)
          /\ forall k', In k' (map_keys markers) -> Qabs (k - 1000) <= Qabs (k' - 1000))
    /\ (keyIn 1000 markers -> exists k, firstKmKey markers = Fin k /\ k == 1000).
Proof.
  intros markers.
  pose proof (reduce_nearest (map_keys markers) [] Infinity eq_refl) as H.
  cbn [app] in H. fold (firstKmKey markers) in H.
  destruct (firstKmKey markers) as [k|]; unfold Nearest1000 in H.
  - split; [|split].
    + split; [discriminate|]. intros ->. destruct H as [[] _].
    + intros k0 [= <-]. exact H.
    + intros (key & Hkey & Heq). exists k. split; [reflexivity|].
      destruct H as [_ Hleast]. specialize (Hleast key Hkey).
      assert (E : Qabs (key - 1000) == 0) by (rewrite Heq; reflexivity).
      rewrite E in Hleast. pose proof (Qabs_nonneg (k - 1000)) as Hn.
      assert (E0 : Qabs (k - 1000) == 0) by lra.
      pose proof (Qle_Qabs (k - 1000)) as H1.
      pose proof (Qle_Qabs (- (k - 1000))) as H2. rewrite Qabs_opp in H2. lra.
  - split; [|split].
    + split; [|reflexivity]. intros _. destruct markers; [reflexivity | discriminate H].
    + discriminate.
    + intros (key & Hkey & _). destruct markers; [destruct Hkey | discriminate H].
Qed.

End FirstKm.

End AppExtra.

(* ================================================================== *)
(** * Further properties of the pace parser and of the formatters *)
(* ================================================================== *)

Module UtilsExtra.

Import Utils UtilsFacts Format.

Local Open Scope string_scope.

(** The number of occurrences of a character in a string. *)
Fixpoint countChar (c : ascii) (s : string) : nat :=
  match s with
  | EmptyString => 0
  | String c' rest => (if Ascii.eqb c' c then 1 else 0) + countChar c rest
  end.

Lemma split_length (sep : ascii) (s : string) :
  length (split sep s) = S (countChar sep s).
Proof.
  induction s as [|c rest IH]; [reflexivity|]. cbn [split countChar].
  destruct (Ascii.eqb c sep); simpl; [now rewrite IH|].
  destruct (split sep rest) as [|p ps]; [discriminate IH | exact IH].
Qed.

Lemma split_no_separator (sep : ascii) (s : string) :
  countChar sep s = 0%nat -> split sep s = [s].
Proof.
  induction s as [|c rest IH]; [reflexivity|]. cbn [split countChar].
  destruct (Ascii.eqb c sep); [discriminate|]. simpl. intros H. now rewrite IH.
Qed.

Lemma split_at_separator (sep : ascii) (a b : string) :
  countChar sep a = 0%nat -> split sep (a ++ String sep b) = a :: split sep b.
Proof.
  induction a as [|c rest IH]; cbn [append split countChar].
  - intros _. now rewrite Ascii.eqb_refl.
  - destruct (Ascii.eqb c sep); [discriminate|]. simpl. intros H. now rewrite IH.
Qed.

(** As long as the integers that the parser computes are safe integers,
    a pace is accepted only with exactly one colon, and an accepted pace
    is a positive whole number of thousandths of a second per metre: it is
    never zero and never negative. *)
Theorem accepted_pace_is_positive :
  forall (input : string) (pace : Q),
    safeIntegers input = true ->
    parsePaceToSecondsPerMeter input = Some pace ->
    countChar ":" input = 1%nat
    /\ exists n : Z,
         (1 <= n <= MAX_SAFE_INTEGER)%Z /\ pace = inject_Z n / 1000 /\ (1 # 1000) <= pace.
Proof.
  intros input pace. unfold parsePaceToSecondsPerMeter, safeIntegers.
  destruct (Nat.eqb_spec (length (split ":" input)) 2) as [Hlen|]; [|intros _; discriminate].
  cbn [negb]. rewrite (two_parts _ Hlen). cbn [nth].
  rewrite split_length in Hlen.
  destruct (parseInt _) as [m|]; [|intros _; discriminate].
  destruct (parseInt _) as [s|]; [|intros _; discriminate].
  intros Hsafe. apply andb_prop in Hsafe. destruct Hsafe as [_ Hsafe].
  unfold isSafeInteger in Hsafe. apply Z.leb_le in Hsafe.
  destruct (Z.leb_spec (m * 60 + s) 0) as [|Hpos]; [discriminate|].
  intros [= <-]. split; [lia|].
  exists (m * 60 + s)%Z. split; [lia|]. split; [reflexivity|].
  apply Qle_shift_div_l; [reflexivity|].
  setoid_replace ((1 # 1000) * 1000) with (inject_Z 1) by reflexivity.
  rewrite <- Zle_Qle. lia.
Qed.

Lemma accepted_pace_is_positive_witness : countChar ":" "5:30" = 1%nat.
Proof.
  apply (accepted_pace_is_positive "5:30" (330 # 1000)); reflexivity.
Defined.

(** ** Reading back a decimal numeral *)

Lemma uint_digits (d : Decimal.uint) :
  countChar ":" (NilEmpty.string_of_uint d) = 0%nat.
Proof. induction d; simpl; auto. Qed.

Lemma numeral_has_no_colon (n : Z) : countChar ":" (numberToString n) = 0%nat.
Proof.
  unfold numberToString, NilZero.string_of_uint.
  destruct (Nat.to_uint (Z.to_nat n)) eqn:E; try reflexivity;
    rewrite <- E; apply uint_digits.
Qed.

Lemma readDigits_uint (d : Decimal.uint) :
  forall acc : Z, (0 <= acc)%Z ->
    readDigits acc (NilEmpty.string_of_uint d) = Z.of_nat (Nat.of_uint_acc d (Z.to_nat acc)).
Proof.
  induction d as [|d IH|d IH|d IH|d IH|d IH|d IH|d IH|d IH|d IH|d IH]; intros acc Hacc;
    cbn [NilEmpty.string_of_uint readDigits Nat.of_uint_acc];
    [lia | | | | | | | | | |];
    change (digitValue _) with (Some 0%Z) || change (digitValue _) with (Some 1%Z)
    || change (digitValue _) with (Some 2%Z) || change (digitValue _) with (Some 3%Z)
    || change (digitValue _) with (Some 4%Z) || change (digitValue _) with (Some 5%Z)
    || change (digitValue _) with (Some 6%Z) || change (digitValue _) with (Some 7%Z)
    || change (digitValue _) with (Some 8%Z) || change (digitValue _) with (Some 9%Z);
    cbv iota; rewrite IH by lia; f_equal; f_equal; rewrite Nat.tail_mul_spec; lia.
Qed.

Lemma parseInt_uint (d : Decimal.uint) :
  parseInt (NilZero.string_of_uint d) = Some (Z.of_nat (Nat.of_uint d)).
Proof.
  unfold NilZero.string_of_uint, Nat.of_uint.
  destruct d; try reflexivity; cbn [NilEmpty.string_of_uint];
    (rewrite parseInt_digit by reflexivity); cbn [readUnsigned];
    change (digitValue _) with (Some 0%Z) || change (digitValue _) with (Some 1%Z)
    || change (digitValue _) with (Some 2%Z) || change (digitValue _) with (Some 3%Z)
    || change (digitValue _) with (Some 4%Z) || change (digitValue _) with (Some 5%Z)
    || change (digitValue _) with (Some 6%Z) || change (digitValue _) with (Some 7%Z)
    || change (digitValue _) with (Some 8%Z) || change (digitValue _) with (Some 9%Z);
    cbv iota; rewrite readDigits_uint by lia; reflexivity.
Qed.

Lemma parseInt_numeral (n : nat) :
  parseInt (numberToString (Z.of_nat n)) = Some (Z.of_nat n).
Proof.
  unfold numberToString. rewrite Nat2Z.id, parseInt_uint.
  now rewrite DecimalNat.Unsigned.of_to.
Qed.

(** A pace written as minutes, a colon and seconds, both in decimal, is
    read back as (60 minutes + seconds) / 1000, whatever the two numbers
    are, as long as they are not both zero and the total is a safe
    integer; the seconds need not be under 60. *)
Theorem written_pace_is_read_back :
  forall minutes seconds : nat,
    (0 < 60 * minutes + seconds)%nat ->
    (Z.of_nat (60 * minutes + seconds) <= MAX_SAFE_INTEGER)%Z ->
    let text := numberToString (Z.of_nat minutes) ++ ":" ++ numberToString (Z.of_nat seconds) in
    safeIntegers text = true
    /\ parsePaceToSecondsPerMeter text
       = Some (inject_Z (Z.of_nat (60 * minutes + seconds)) / 1000).
Proof.
  intros m s Hpos Hsafe. cbv zeta. unfold parsePaceToSecondsPerMeter, safeIntegers.
  change (":" ++ numberToString (Z.of_nat s)) with (String ":" (numberToString (Z.of_nat s))).
  rewrite split_at_separator by apply numeral_has_no_colon.
  rewrite split_no_separator by apply numeral_has_no_colon.
  cbn [length Nat.eqb negb nth]. rewrite !parseInt_numeral. split.
  - unfold isSafeInteger. rewrite !andb_true_iff, !Z.leb_le. lia.
  - destruct (Z.leb_spec (Z.of_nat m * 60 + Z.of_nat s) 0); [lia|].
    do 3 f_equal. lia.
Qed.

Lemma written_pace_is_read_back_witness :
  parsePaceToSecondsPerMeter "5:75" = Some (inject_Z (Z.of_nat (60 * 5 + 75)) / 1000).
Proof.
  apply (written_pace_is_read_back 5 75); [simpl; lia | unfold MAX_SAFE_INTEGER; lia].
Defined.

(** ** The formatters *)

Lemma floor_nonneg (x : Q) : 0 <= x -> (0 <= Qfloor x)%Z.
Proof. intros H. change 0%Z with (Qfloor 0). now apply Qfloor_resp_le. Qed.

Lemma floor_below (x : Q) (n : Z) : x < inject_Z n -> (Qfloor x < n)%Z.
Proof.
  intros H. pose proof (Qfloor_le x). rewrite Zlt_Qlt. lra.
Qed.

Lemma trunc_nonneg (x : Q) : 0 <= x -> Math_trunc x = Qfloor x.
Proof.
  intros H. unfold Math_trunc. now rewrite (proj2 (Qlt_bool_false_iff x 0) H).
Qed.

(** The hours, minutes and seconds that the two duration formatters
    compute for a duration that is not negative. *)
Lemma duration_fields (t : Q) :
  0 <= t ->
  let hours := Qfloor (t / 3600) in
  let minutes := Qfloor (jsRem t 3600 / 60) in
  let seconds := Qfloor (jsRem t 60) in
  (0 <= hours)%Z /\ (0 <= minutes < 60)%Z /\ (0 <= seconds < 60)%Z
  /\ (hours * 60 + minutes = Qfloor (t / 60))%Z
  /\ (hours * 3600 + minutes * 60 + seconds = Qfloor t)%Z.
Proof.
  intros Ht. cbv zeta. unfold jsRem.
  assert (Hx : 0 <= t / 3600) by (apply Qle_shift_div_l; lra).
  assert (Hz : 0 <= t / 60) by (apply Qle_shift_div_l; lra).
  rewrite (trunc_nonneg _ Hx), (trunc_nonneg _ Hz).
  destruct (AppExtra.Qfloor_bounds (t / 3600)) as [Ha1 Ha2].
  destruct (AppExtra.Qfloor_bounds (t / 60)) as [Hc1 Hc2].
  assert (Ex : t == 3600 * (t / 3600)) by (field; discriminate).
  assert (Ez : t == 60 * (t / 60)) by (field; discriminate).
  set (h := Qfloor (t / 3600)) in *. set (q := Qfloor (t / 60)) in *.
  set (x := t / 3600) in *. set (z := t / 60) in *.
  set (r1 := t - 3600 * inject_Z h). set (r2 := t - 60 * inject_Z q).
  assert (Hr1 : 0 <= r1 /\ r1 < 3600) by (unfold r1; split; lra).
  assert (Hr2 : 0 <= r2 /\ r2 < 60) by (unfold r2; split; lra).
  assert (Hy : 0 <= r1 / 60) by (apply Qle_shift_div_l; lra).
  assert (Ey : r1 == 60 * (r1 / 60)) by (field; discriminate).
  destruct (AppExtra.Qfloor_bounds (r1 / 60)) as [Hb1 Hb2].
  destruct (AppExtra.Qfloor_bounds r2) as [He1 He2].
  assert (Hq : q = (h * 60 + Qfloor (r1 / 60))%Z).
  { unfold q. apply AppExtra.Qfloor_unique;
      rewrite inject_Z_plus, inject_Z_mult; change (inject_Z 60) with 60;
      fold z; unfold r1 in *; lra. }
  split; [now apply floor_nonneg|].
  split; [split; [now apply floor_nonneg | apply floor_below; change (inject_Z 60) with 60; lra]|].
  split; [split; [now apply floor_nonneg | apply floor_below; change (inject_Z 60) with 60; lra]|].
  split; [lia|].
  symmetry. apply AppExtra.Qfloor_unique;
    rewrite !inject_Z_plus, !inject_Z_mult;
    change (inject_Z 60) with 60; change (inject_Z 3600) with 3600;
    assert (Eq : inject_Z q == inject_Z h * 60 + inject_Z (Qfloor (r1 / 60)))
      by (rewrite Hq, inject_Z_plus, inject_Z_mult; reflexivity);
    unfold r2 in *; lra.
Qed.

(** formatSecondsToHMS gives the placeholder for a negative duration, and
    otherwise three fields, padded to two characters, whose hours, minutes
    under 60 and seconds under 60 add up to the whole seconds of the
    duration. *)
Theorem hms_fields_add_up :
  forall t : Q,
    (t < 0 -> formatSecondsToHMS t = "--:--:--")
    /\ (0 <= t ->
        exists hours minutes seconds : Z,
          formatSecondsToHMS t
          = padStart2 (numberToString hours) ++ ":" ++ padStart2 (numberToString minutes)
            ++ ":" ++ padStart2 (numberToString seconds)
          /\ (0 <= hours)%Z /\ (0 <= minutes < 60)%Z /\ (0 <= seconds < 60)%Z
          /\ (hours * 3600 + minutes * 60 + seconds = Qfloor t)%Z).
Proof.
  intros t. unfold formatSecondsToHMS. split; intros Ht.
  - now rewrite (proj2 (Qlt_bool_iff t 0) Ht).
  - rewrite (proj2 (Qlt_bool_false_iff t 0) Ht).
    destruct (duration_fields t Ht) as (H1 & H2 & H3 & _ & H5).
    eexists _, _, _. split; [reflexivity|]. auto.
Qed.

Lemma hms_fields_add_up_witness : formatSecondsToHMS (-1) = "--:--:--".
Proof. apply (hms_fields_add_up (-1)). reflexivity. Defined.

(** formatSecondsToHoursMinutes drops the seconds: a positive duration
    shows "< 1m" under one minute, and otherwise the hours and the minutes
    under 60 that make up its whole minutes, the hours left out when zero
    and the minutes left out after hours when zero. *)
Theorem hours_minutes_truncate :
  forall t : Q,
    0 < t ->
    exists hours minutes : Z,
      (0 <= hours)%Z /\ (0 <= minutes < 60)%Z
      /\ (hours * 60 + minutes = Qfloor (t / 60))%Z
      /\ formatSecondsToHoursMinutes t
         = (if (0 <? hours)%Z then
              if (0 <? minutes)%Z
              then numberToString hours ++ "h" ++ " " ++ numberToString minutes ++ "m"
              else numberToString hours ++ "h"
            else if (0 <? minutes)%Z then numberToString minutes ++ "m"
            else "< 1m")
      /\ (t < 60 -> formatSecondsToHoursMinutes t = "< 1m").
Proof.
  intros t Ht. unfold formatSecondsToHoursMinutes.
  rewrite (proj2 (Qlt_bool_false_iff t 0) (Qlt_le_weak _ _ Ht)).
  assert (Hne : Qeq_bool t 0 = false) by (apply Qeq_bool_false_iff; lra).
  rewrite Hne.
  destruct (duration_fields t (Qlt_le_weak _ _ Ht)) as (H1 & H2 & _ & H4 & _).
  eexists _, _. split; [exact H1|]. split; [exact H2|]. split; [exact H4|].
  split; [reflexivity|].
  intros Hshort.
  assert (Hq : Qfloor (t / 60) = 0%Z).
  { apply AppExtra.Qfloor_unique; change (inject_Z 0) with 0.
    - apply Qle_shift_div_l; lra.
    - rewrite Qplus_0_l. apply Qlt_shift_div_r; lra. }
  rewrite Hq in H4.
  destruct (Z.ltb_spec 0 (Qfloor (t / 3600))); [lia|].
  destruct (Z.ltb_spec 0 (Qfloor (jsRem t 3600 / 60))); [lia|]. reflexivity.
Qed.

Lemma hours_minutes_truncate_witness : formatSecondsToHoursMinutes 59 = "< 1m".
Proof.
  destruct (hours_minutes_truncate 59 eq_refl) as (h & m & _ & _ & _ & _ & H).
  apply H. reflexivity.
Defined.

(** formatDistanceString rejects a negative distance, shows a distance
    under 1000 m as the nearest whole number of metres, so that 999.5 m and
    more shows as "1000m", and shows a distance from 1000 m on in
    kilometres, as the tenths nearest to the double that the division by
    1000 gives; [fl] is the rounding of that division. *)
Theorem distance_string_rounds :
  forall (fl : Q -> Q) (d : Q),
    Number.Rounding fl ->
    (d < 0 -> formatDistanceString fl d = "Invalid distance")
    /\ (0 <= d -> d < 1000 ->
        exists n : Z,
          formatDistanceString fl d = numberToString n ++ "m"
          /\ (0 <= n <= 1000)%Z
          /\ inject_Z n - (1 # 2) <= d /\ d < inject_Z n + (1 # 2))
    /\ ((9995 # 10) <= d -> d < 1000 -> formatDistanceString fl d = "1000m")
    /\ (1000 <= d ->
        exists tenths : Z,
          formatDistanceString fl d
          = (numberToString (tenths / 10) ++ "." ++ numberToString (tenths mod 10)) ++ "km"
          /\ (10 <= tenths)%Z
          /\ inject_Z tenths - (1 # 2) <= fl (d / 1000) * 10
          /\ fl (d / 1000) * 10 < inject_Z tenths + (1 # 2)).
Proof.
  intros fl d Hfl. unfold formatDistanceString. split; [|split; [|split]].
  - intros Hd. now rewrite (proj2 (Qlt_bool_iff d 0) Hd).
  - intros H0 H1. rewrite (proj2 (Qlt_bool_false_iff d 0) H0), (proj2 (Qlt_bool_iff d 1000) H1).
    exists (App.Math_round d). split; [reflexivity|].
    unfold App.Math_round. destruct (AppExtra.Qfloor_bounds (d + (1 # 2))) as [Hl Hh].
    split; [|split; lra]. split.
    + apply floor_nonneg. lra.
    + assert (Qfloor (d + (1 # 2)) < 1001)%Z by (apply floor_below; change (inject_Z 1001) with 1001; lra).
      lia.
  - intros H0 H1.
    rewrite (proj2 (Qlt_bool_false_iff d 0)) by lra. rewrite (proj2 (Qlt_bool_iff d 1000) H1).
    unfold App.Math_round.
    rewrite (AppExtra.Qfloor_unique 1000 (d + (1 # 2)));
      [reflexivity | change (inject_Z 1000) with 1000; lra
       | change (inject_Z 1000) with 1000; lra].
  - intros H1.
    rewrite (proj2 (Qlt_bool_false_iff d 0)) by lra.
    rewrite (proj2 (Qlt_bool_false_iff d 1000) H1).
    unfold toFixed1. eexists. split; [reflexivity|].
    assert (Hkm : 1 <= fl (d / 1000)).
    { pose proof (Number.fl_integer fl Hfl 1 ltac:(discriminate)) as Hone.
      assert (Hle : fl (inject_Z 1) <= fl (d / 1000)).
      { apply (Number.fl_monotone fl Hfl). change (inject_Z 1) with 1.
        apply Qle_shift_div_l; [reflexivity | lra]. }
      change (inject_Z 1) with 1 in Hone at 2. lra. }
    destruct (AppExtra.Qfloor_bounds (fl (d / 1000) * 10 + (1 # 2))) as [Hl Hh].
    split; [|split; lra].
    assert (H10 : (Qfloor 10 <= Qfloor (fl (d / 1000)%Q * 10 + (1 # 2)))%Z)
      by (apply Qfloor_resp_le; lra).
    exact H10.
Qed.

(** The theorem for the rounding to the nearest double, at 1150 m: the
    quotient is the double just under 1.15 and the tenths are 11. *)
Lemma distance_string_rounds_witness :
  formatDistanceString Number.binary64 1150 = "1.1km".
Proof.
  destruct (proj2 (proj2 (proj2 (distance_string_rounds Number.binary64 1150
                                   NumberFacts.binary64_rounding))))
    as (tenths & Hstring & _ & Hlow & Hhigh); [discriminate|].
  assert (Habove : (21 # 2) <= Number.binary64 (1150 / 1000) * 10)
    by (unfold Qle; vm_compute; discriminate).
  assert (Hbelow : Number.binary64 (1150 / 1000) * 10 < (23 # 2))
    by (unfold Qlt; vm_compute; reflexivity).
  assert (Htenths : tenths = 11%Z).
  { assert (H1 : inject_Z tenths < inject_Z 12) by (change (inject_Z 12) with 12; lra).
    assert (H2 : inject_Z 10 < inject_Z tenths) by (change (inject_Z 10) with 10; lra).
    rewrite <- Zlt_Qlt in H1, H2. lia. }
  rewrite Hstring, Htenths. reflexivity.
Defined.

End UtilsExtra.
